(** * FilterManager: facet filters, hierarchy selection and match navigation

    A shallow embedding of [docs/js/modules/filter-manager.js].  The class
    keeps its state in the fields of [this]; here every method is a function
    on an explicit [FilterManager] record (and on the [Host] timer table when
    it arms or cancels a timeout).  The DOM mirroring done by the methods
    (class lists, filter tags, the trigger badge) has no influence on the
    fields modelled here and is left out. *)

From Stdlib Require Import List String Ascii Bool ZArith PArith Lia PeanoNat Permutation.
Import ListNotations.
Local Open Scope string_scope.

(** ** JavaScript built-ins used by the module *)

Module Js.

(** [s.split(sep)] for a one-character separator.  The result is never
    empty: [''.split(':')] is [['']].  The separators used by the module
    are ASCII, so splitting the UTF-8 bytes splits at the same places. *)
Fixpoint split (sep : ascii) (s : string) : list string :=
  match s with
  | EmptyString => [EmptyString]
  | String c rest =>
      if Ascii.eqb c sep then EmptyString :: split sep rest
      else match split sep rest with
           | [] => [String c EmptyString]
           | p :: ps => String c p :: ps
           end
  end.

(** [s.includes(sub)] on strings. *)
Fixpoint strIncludes (s sub : string) : bool :=
  String.prefix sub s ||
  match s with
  | EmptyString => false
  | String _ rest => strIncludes rest sub
  end.

(** A string is falsy exactly when it is empty. *)
Definition truthy (s : string) : bool :=
  match s with EmptyString => false | String _ _ => true end.

(** A value that is a string or [undefined], compared as [===] and
    [Array.prototype.includes] compare them. *)
Definition optEqb (a b : option string) : bool :=
  match a, b with
  | Some x, Some y => String.eqb x y
  | None, None => true
  | _, _ => false
  end.

(** [arr.includes(x)] on an array of strings and [undefined]s. *)
Definition includes (arr : list (option string)) (x : option string) : bool :=
  existsb (optEqb x) arr.

(** [arr.includes(x)] on an array of strings. *)
Definition strArrIncludes (arr : list string) (x : string) : bool :=
  existsb (String.eqb x) arr.

(** [arr.indexOf(x)]: the first index holding [x], or -1. *)
Fixpoint indexOf (x : string) (arr : list string) : Z :=
  match arr with
  | [] => (-1)%Z
  | y :: rest =>
      if String.eqb y x then 0%Z
      else let i := indexOf x rest in
           if (i <? 0)%Z then (-1)%Z else (i + 1)%Z
  end.

(** The member names that every plain object inherits from
    [Object.prototype]: reading [obj[k]] for one of these names on an
    object literal that does not define [k] yields the inherited member
    (a truthy function or object), not [undefined]. *)
Definition objectPrototypeKeys : list string :=
  [ "constructor"; "__defineGetter__"; "__defineSetter__"; "hasOwnProperty";
    "__lookupGetter__"; "__lookupSetter__"; "isPrototypeOf";
    "propertyIsEnumerable"; "toString"; "valueOf"; "__proto__";
    "toLocaleString" ].

Definition isPrototypeKey (k : string) : bool :=
  strArrIncludes objectPrototypeKeys k.

(** Result of reading [obj[k]] on a plain object used as a dictionary. *)
Inductive Member (A : Type) : Type :=
| Own (a : A)
| Inherited
| Undefined.
Arguments Own {A} a.
Arguments Inherited {A}.
Arguments Undefined {A}.

Fixpoint ownGet {A : Type} (k : string) (obj : list (string * A)) : option A :=
  match obj with
  | [] => None
  | (k', a) :: rest => if String.eqb k' k then Some a else ownGet k rest
  end.

Definition get {A : Type} (obj : list (string * A)) (k : string) : Member A :=
  match ownGet k obj with
  | Some a => Own a
  | None => if isPrototypeKey k then Inherited else Undefined
  end.

(** What a call evaluates to: the module's methods either end without a
    [return] (the call is [undefined]) or return a boolean. *)
Inductive Value : Type :=
| VUndefined
| VBool (b : bool).

End Js.

(** ** Insertion-ordered [Set<string>] *)

Module StrSet.

Definition t := list string.

Definition empty : t := [].

Definition has (x : string) (s : t) : bool := Js.strArrIncludes s x.

(** [s.add(x)]: appended at the end unless already present. *)
Definition add (x : string) (s : t) : t :=
  if has x s then s else (s ++ [x])%list.

(** [s.delete(x)]. *)
Definition delete (x : string) (s : t) : t :=
  filter (fun y => negb (String.eqb y x)) s.

Definition size (s : t) : nat := List.length s.

End StrSet.

(** ** Records *)

(** An entry of [ds.objects]; only its [hierarchy] path is read. *)
Record DatasetObject : Type := mkObject { hierarchy : list string }.

(** [ds.robot] is a single tag, an array of tags, or missing. *)
Inductive RobotField : Type :=
| RobotMissing
| RobotOne (r : string)
| RobotMany (rs : list string).

Record Dataset : Type := mkDataset {
  path : string;
  name : string;
  scenes : option (list string);
  robot : RobotField;
  endEffector : option string;
  actions : option (list string);
  objects : option (list DatasetObject)
}.

(** [Array.isArray(ds.robot) ? ds.robot : [ds.robot]] *)
Definition robotsOf (ds : Dataset) : list (option string) :=
  match robot ds with
  | RobotMissing => [None]
  | RobotOne r => [Some r]
  | RobotMany rs => map Some rs
  end.

(** ** The hierarchy tree

    [Map<string, {children: Map, isLeaf: boolean}>]; a [Map] iterates in
    insertion order, so it is kept as an association list. *)

#[local] Unset Elimination Schemes.
Inductive HierarchyNode : Type :=
  mkNode { children : list (string * HierarchyNode); isLeaf : bool }.
#[local] Set Elimination Schemes.

Definition HierarchyMap : Type := list (string * HierarchyNode).

(** Induction on a node with the property available for its children. *)
Definition HierarchyNode_forall_ind (P : HierarchyNode -> Prop)
    (H : forall ch leaf, Forall (fun vn => P (snd vn)) ch -> P (mkNode ch leaf))
    : forall n, P n :=
  fix IH (n : HierarchyNode) : P n :=
    match n with
    | mkNode ch leaf =>
        H ch leaf
          ((fix go (l : list (string * HierarchyNode))
              : Forall (fun vn => P (snd vn)) l :=
              match l with
              | [] => Forall_nil _
              | vn :: rest => Forall_cons vn (IH (snd vn)) (go rest)
              end) ch)
    end.

(** [map.get(k)] / [map.has(k)] *)
Fixpoint mapGet (k : string) (m : HierarchyMap) : option HierarchyNode :=
  match m with
  | [] => None
  | (k', n) :: rest => if String.eqb k' k then Some n else mapGet k rest
  end.

(** Replaces the node stored under an existing key, keeping its position:
    the effect on the map of mutating the node object it holds. *)
Fixpoint mapReplace (k : string) (n : HierarchyNode) (m : HierarchyMap) : HierarchyMap :=
  match m with
  | [] => []
  | (k', n') :: rest =>
      if String.eqb k' k then (k', n) :: rest else (k', n') :: mapReplace k n rest
  end.

Definition isEmpty {A : Type} (l : list A) : bool :=
  match l with [] => true | _ :: _ => false end.

(** [addToHierarchy(hierarchyMap, levels)].  The source walks [levels] with
    a cursor [current] and mutates the maps in place; the recursion follows
    the cursor: at each level the node is created when absent (flagged leaf
    when this is the last level) and the walk continues in its [children]. *)
Fixpoint addToHierarchy (hierarchyMap : HierarchyMap) (levels : list string) : HierarchyMap :=
  match levels with
  | [] => hierarchyMap
  | level :: rest =>
      match mapGet level hierarchyMap with
      | None =>
          (hierarchyMap ++
            [(level, {| children := addToHierarchy [] rest; isLeaf := isEmpty rest |})])%list
      | Some node =>
          mapReplace level
            {| children := addToHierarchy (children node) rest; isLeaf := isLeaf node |}
            hierarchyMap
      end
  end.

(** ** Filter groups *)

Inductive FilterGroup : Type :=
| FlatGroup (title : string) (values : StrSet.t)
| HierarchicalGroup (title : string) (values : HierarchyMap).

Record Groups : Type := mkGroups {
  gScene : StrSet.t;
  gRobot : StrSet.t;
  gEnd : StrSet.t;
  gAction : StrSet.t;
  gObject : HierarchyMap
}.

Definition addAll (xs : list string) (s : StrSet.t) : StrSet.t :=
  fold_left (fun acc x => StrSet.add x acc) xs s.

(** The body of [this.datasets.forEach(ds => ...)] in [buildFilterGroups]. *)
Definition collectDataset (g : Groups) (ds : Dataset) : Groups :=
  let sc := match scenes ds with Some ss => addAll ss (gScene g) | None => gScene g end in
  let ro := match robot ds with
            | RobotMissing => gRobot g
            | RobotOne r => if Js.truthy r then StrSet.add r (gRobot g) else gRobot g
            | RobotMany rs => addAll rs (gRobot g)
            end in
  let en := match endEffector ds with
            | Some e => if Js.truthy e then StrSet.add e (gEnd g) else gEnd g
            | None => gEnd g
            end in
  let ac := match actions ds with Some acts => addAll acts (gAction g) | None => gAction g end in
  let ob := match objects ds with
            | Some objs => fold_left (fun m obj => addToHierarchy m (hierarchy obj)) objs (gObject g)
            | None => gObject g
            end in
  {| gScene := sc; gRobot := ro; gEnd := en; gAction := ac; gObject := ob |}.

Definition collectGroups (datasets : list Dataset) : Groups :=
  fold_left collectDataset datasets
    {| gScene := []; gRobot := []; gEnd := []; gAction := []; gObject := [] |}.

(** The object literal [groups] of [buildFilterGroups], in declaration order. *)
Definition groupsObject (g : Groups) : list (string * FilterGroup) :=
  [ ("scene", FlatGroup "scene" (gScene g));
    ("robot", FlatGroup "robot" (gRobot g));
    ("end", FlatGroup "end effector" (gEnd g));
    ("action", FlatGroup "action" (gAction g));
    ("object", HierarchicalGroup "operation object" (gObject g)) ].

(** The facet keys of [buildFilterGroups]. *)
Definition facetKeys : list string := ["scene"; "robot"; "end"; "action"; "object"].

(** ** State of the manager and of the host

    [setTimeout] returns a positive handle, so a stored handle is always
    truthy; [null] is [None]. *)

Definition TimerId : Type := positive.

(** The two callbacks the module hands to [setTimeout]. *)
Inductive TimerTask : Type :=
| FilterUpdateTask
| TooltipTask (filterKey filterValue : string).

Record Timer : Type := mkTimer {
  timerId : TimerId;
  timerDelay : nat;
  timerTask : TimerTask
}.

(** The part of the browser the module talks to: the table of armed
    timeouts, the next handle, the [--tooltip-delay] CSS value read through
    [ConfigManager.getCSSValue], and the number of [filtersChanged] events
    dispatched on [document] so far. *)
Record Host : Type := mkHost {
  timers : list Timer;
  nextTimerId : TimerId;
  tooltipDelay : nat;
  filtersChanged : nat
}.

Definition setTimeout (task : TimerTask) (delay : nat) (h : Host) : TimerId * Host :=
  (nextTimerId h,
   {| timers := (timers h ++ [mkTimer (nextTimerId h) delay task])%list;
      nextTimerId := Pos.succ (nextTimerId h);
      tooltipDelay := tooltipDelay h;
      filtersChanged := filtersChanged h |}).

Definition clearTimeout (id : TimerId) (h : Host) : Host :=
  {| timers := filter (fun t => negb (Pos.eqb (timerId t) id)) (timers h);
     nextTimerId := nextTimerId h;
     tooltipDelay := tooltipDelay h;
     filtersChanged := filtersChanged h |}.

Definition dispatchFiltersChanged (h : Host) : Host :=
  {| timers := timers h;
     nextTimerId := nextTimerId h;
     tooltipDelay := tooltipDelay h;
     filtersChanged := S (filtersChanged h) |}.

(** An entry of [filterFinderMatches]: the matched option (a DOM handle)
    and its label text. *)
Record FilterMatch : Type := mkMatch { element : nat; text : string }.

(** The tooltip element: the filter id and count it renders, and whether
    it carries the [show] class. *)
Record Tooltip : Type := mkTooltip {
  tipContent : option (string * nat);
  tipShown : bool
}.

Definition Counts : Type := list (string * nat).

Record FilterManager : Type := mkFilterManager {
  datasets : list Dataset;
  filterGroups : list (string * FilterGroup);
  selectedFilters : StrSet.t;
  pendingFilterUpdate : option TimerId;
  filterFinderMatches : list FilterMatch;
  filterFinderCurrentIndex : Z;
  tooltipElement : option Tooltip;
  tooltipTimeout : option TimerId;
  filterCounts : Counts
}.

(** [new FilterManager(datasets)] *)
Definition constructor (ds : list Dataset) : FilterManager :=
  {| datasets := ds;
     filterGroups := [];
     selectedFilters := StrSet.empty;
     pendingFilterUpdate := None;
     filterFinderMatches := [];
     filterFinderCurrentIndex := (-1)%Z;
     tooltipElement := None;
     tooltipTimeout := None;
     filterCounts := [] |}.

Definition withFilterGroups (g : list (string * FilterGroup)) (fm : FilterManager) : FilterManager :=
  {| datasets := datasets fm; filterGroups := g;
     selectedFilters := selectedFilters fm;
     pendingFilterUpdate := pendingFilterUpdate fm;
     filterFinderMatches := filterFinderMatches fm;
     filterFinderCurrentIndex := filterFinderCurrentIndex fm;
     tooltipElement := tooltipElement fm; tooltipTimeout := tooltipTimeout fm;
     filterCounts := filterCounts fm |}.

Definition withSelectedFilters (s : StrSet.t) (fm : FilterManager) : FilterManager :=
  {| datasets := datasets fm; filterGroups := filterGroups fm;
     selectedFilters := s;
     pendingFilterUpdate := pendingFilterUpdate fm;
     filterFinderMatches := filterFinderMatches fm;
     filterFinderCurrentIndex := filterFinderCurrentIndex fm;
     tooltipElement := tooltipElement fm; tooltipTimeout := tooltipTimeout fm;
     filterCounts := filterCounts fm |}.

Definition withPendingFilterUpdate (p : option TimerId) (fm : FilterManager) : FilterManager :=
  {| datasets := datasets fm; filterGroups := filterGroups fm;
     selectedFilters := selectedFilters fm;
     pendingFilterUpdate := p;
     filterFinderMatches := filterFinderMatches fm;
     filterFinderCurrentIndex := filterFinderCurrentIndex fm;
     tooltipElement := tooltipElement fm; tooltipTimeout := tooltipTimeout fm;
     filterCounts := filterCounts fm |}.

Definition withFinder (ms : list FilterMatch) (i : Z) (fm : FilterManager) : FilterManager :=
  {| datasets := datasets fm; filterGroups := filterGroups fm;
     selectedFilters := selectedFilters fm;
     pendingFilterUpdate := pendingFilterUpdate fm;
     filterFinderMatches := ms;
     filterFinderCurrentIndex := i;
     tooltipElement := tooltipElement fm; tooltipTimeout := tooltipTimeout fm;
     filterCounts := filterCounts fm |}.

Definition withTooltipElement (t : option Tooltip) (fm : FilterManager) : FilterManager :=
  {| datasets := datasets fm; filterGroups := filterGroups fm;
     selectedFilters := selectedFilters fm;
     pendingFilterUpdate := pendingFilterUpdate fm;
     filterFinderMatches := filterFinderMatches fm;
     filterFinderCurrentIndex := filterFinderCurrentIndex fm;
     tooltipElement := t; tooltipTimeout := tooltipTimeout fm;
     filterCounts := filterCounts fm |}.

Definition withTooltipTimeout (t : option TimerId) (fm : FilterManager) : FilterManager :=
  {| datasets := datasets fm; filterGroups := filterGroups fm;
     selectedFilters := selectedFilters fm;
     pendingFilterUpdate := pendingFilterUpdate fm;
     filterFinderMatches := filterFinderMatches fm;
     filterFinderCurrentIndex := filterFinderCurrentIndex fm;
     tooltipElement := tooltipElement fm; tooltipTimeout := t;
     filterCounts := filterCounts fm |}.

Definition withFilterCounts (c : Counts) (fm : FilterManager) : FilterManager :=
  {| datasets := datasets fm; filterGroups := filterGroups fm;
     selectedFilters := selectedFilters fm;
     pendingFilterUpdate := pendingFilterUpdate fm;
     filterFinderMatches := filterFinderMatches fm;
     filterFinderCurrentIndex := filterFinderCurrentIndex fm;
     tooltipElement := tooltipElement fm; tooltipTimeout := tooltipTimeout fm;
     filterCounts := c |}.

(** The manager together with the host it runs in. *)
Record World : Type := mkWorld { this : FilterManager; host : Host }.

Definition onThis (f : FilterManager -> FilterManager) (w : World) : World :=
  {| this := f (this w); host := host w |}.

(** [`${filterKey}:${filterValue}`] *)
Definition filterIdOf (filterKey filterValue : string) : string :=
  filterKey ++ ":" ++ filterValue.

(** [buildFilterGroups()] *)
Definition buildFilterGroups (fm : FilterManager) : FilterManager :=
  withFilterGroups (groupsObject (collectGroups (datasets fm))) fm.

(** ** Affected counts *)

(** The per-record test of [calculateAffectedCount]; [undefined] results of
    [ds.scenes && ...] are falsy. *)
Definition affectedMatch (filterKey filterValue : string) (ds : Dataset) : bool :=
  if String.eqb filterKey "scene" then
    match scenes ds with
    | Some ss => Js.strArrIncludes ss filterValue
    | None => false
    end
  else if String.eqb filterKey "robot" then
    Js.includes (robotsOf ds) (Some filterValue)
  else if String.eqb filterKey "end" then
    Js.optEqb (endEffector ds) (Some filterValue)
  else if String.eqb filterKey "action" then
    match actions ds with
    | Some acts => Js.strArrIncludes acts filterValue
    | None => false
    end
  else if String.eqb filterKey "object" then
    match objects ds with
    | Some objs => existsb (fun obj => Js.strArrIncludes (hierarchy obj) filterValue) objs
    | None => false
    end
  else false.

(** [calculateAffectedCount(filterKey, filterValue)] *)
Definition calculateAffectedCount (fm : FilterManager) (filterKey filterValue : string) : nat :=
  fold_left (fun count ds => if affectedMatch filterKey filterValue ds then S count else count)
    (datasets fm) 0.

(** [Map.prototype.set] on the count cache. *)
Fixpoint countsSet (k : string) (n : nat) (c : Counts) : Counts :=
  match c with
  | [] => [(k, n)]
  | (k', n') :: rest =>
      if String.eqb k' k then (k', n) :: rest else (k', n') :: countsSet k n rest
  end.

Fixpoint countsGet (k : string) (c : Counts) : option nat :=
  match c with
  | [] => None
  | (k', n) :: rest => if String.eqb k' k then Some n else countsGet k rest
  end.

(** One entry of [updateHierarchyCounts]'s [forEach], with the recursion
    into the node's children. *)
Fixpoint updateNodeCounts (fm : FilterManager) (key value : string)
    (node : HierarchyNode) (c : Counts) : Counts :=
  match node with
  | mkNode ch _ =>
      let c1 := countsSet (filterIdOf key value) (calculateAffectedCount fm key value) c in
      if negb (isEmpty ch) then
        (fix each (m : HierarchyMap) (acc : Counts) : Counts :=
           match m with
           | [] => acc
           | (v, n) :: rest => each rest (updateNodeCounts fm key v n acc)
           end) ch c1
      else c1
  end.

(** [updateHierarchyCounts(key, hierarchyMap)] *)
Definition updateHierarchyCounts (fm : FilterManager) (key : string)
    (hierarchyMap : HierarchyMap) (c : Counts) : Counts :=
  fold_left (fun acc vn => updateNodeCounts fm key (fst vn) (snd vn) acc) hierarchyMap c.

(** [updateFilterCounts()] *)
Definition updateFilterCounts (fm : FilterManager) : FilterManager :=
  withFilterCounts
    (fold_left
       (fun acc kg =>
          match snd kg with
          | FlatGroup _ values =>
              fold_left
                (fun a value =>
                   countsSet (filterIdOf (fst kg) value)
                     (calculateAffectedCount fm (fst kg) value) a)
                values acc
          | HierarchicalGroup _ values => updateHierarchyCounts fm (fst kg) values acc
          end)
       (filterGroups fm) [])
    fm.

(** ** Change notification *)

(** [scheduleFilterUpdate()] *)
Definition scheduleFilterUpdate (w : World) : World :=
  let h := match pendingFilterUpdate (this w) with
           | Some id => clearTimeout id (host w)
           | None => host w
           end in
  let (id, h') := setTimeout FilterUpdateTask 150 h in
  {| this := withPendingFilterUpdate (Some id) (this w); host := h' |}.

(** The arrow function armed by [scheduleFilterUpdate]. *)
Definition filterUpdateCallback (w : World) : World :=
  let fm := match tooltipElement (this w) with
            | Some _ => updateFilterCounts (this w)
            | None => this w
            end in
  {| this := withPendingFilterUpdate None fm;
     host := dispatchFiltersChanged (host w) |}.

(** The arrow function armed by [showTooltip]. *)
Definition tooltipCallback (filterKey filterValue : string) (w : World) : World :=
  let filterId := filterIdOf filterKey filterValue in
  let count := match countsGet filterId (filterCounts (this w)) with
               | Some n => n
               | None => 0
               end in
  match tooltipElement (this w) with
  | Some _ =>
      onThis (withTooltipElement
                (Some {| tipContent := Some (filterId, count); tipShown := true |})) w
  | None => w
  end.

Definition runTask (task : TimerTask) (w : World) : World :=
  match task with
  | FilterUpdateTask => filterUpdateCallback w
  | TooltipTask k v => tooltipCallback k v w
  end.

(** The event loop runs an armed timeout: the entry leaves the table and
    its callback runs on the state of that moment. *)
Inductive timerFires : World -> World -> Prop :=
| TimerFires (w : World) (t : Timer) :
    In t (timers (host w)) ->
    timerFires w
      (runTask (timerTask t)
         {| this := this w; host := clearTimeout (timerId t) (host w) |}).

(** Any number of timeouts firing, with no call into the manager between. *)
Inductive timersRun : World -> World -> Prop :=
| RunDone (w : World) : timersRun w w
| RunStep (w1 w2 w3 : World) :
    timerFires w1 w2 -> timersRun w2 w3 -> timersRun w1 w3.

(** ** Selection *)

(** [toggleFilterSelection(filterKey, filterValue, filterLabel, optionElement)].
    The label and the option element only reach the DOM.  The method has no
    [return] statement. *)
Definition toggleFilterSelection (filterKey filterValue : string) (w : World)
    : World * Js.Value :=
  let filterId := filterIdOf filterKey filterValue in
  let sel := selectedFilters (this w) in
  let sel' := if StrSet.has filterId sel then StrSet.delete filterId sel
              else StrSet.add filterId sel in
  (scheduleFilterUpdate (onThis (withSelectedFilters sel') w), Js.VUndefined).

(** [removeFilterTagById(filterId)] *)
Definition removeFilterTagById (filterId : string) (w : World) : World :=
  scheduleFilterUpdate
    (onThis (withSelectedFilters (StrSet.delete filterId (selectedFilters (this w)))) w).

(** [resetFilters()] *)
Definition resetFilters (w : World) : World :=
  let w1 := match pendingFilterUpdate (this w) with
            | Some id =>
                {| this := withPendingFilterUpdate None (this w);
                   host := clearTimeout id (host w) |}
            | None => w
            end in
  onThis (withSelectedFilters StrSet.empty) w1.

(** ** Predicate evaluation *)

(** The object [filters] of [applyFilters]: facet key to the array of
    selected values, in insertion order. *)
Definition Filters : Type := list (string * list (option string)).

(** [filters[key].push(value)] when [filters] owns [key], and
    [filters[key] = []] followed by the push when it does not. *)
Fixpoint pushFilter (key : string) (value : option string) (filters : Filters) : Filters :=
  match filters with
  | [] => [(key, [value])]
  | (k, vs) :: rest =>
      if String.eqb k key then (k, (vs ++ [value])%list) :: rest
      else (k, vs) :: pushFilter key value rest
  end.

(** The destructuring [const [key, value] = filterId.split(':')]: [key] is
    the first part, [value] the second part or [undefined]. *)
Definition splitFilterId (filterId : string) : string * option string :=
  let parts := Js.split ":" filterId in
  (nth 0 parts "", nth_error parts 1).

(** One round of [this.selectedFilters.forEach(filterId => ...)].  For a
    key naming a member of [Object.prototype], [filters[key]] is that
    (truthy) member, no array is stored, and [.push] is not a function: the
    call throws a [TypeError], rendered as [None]. *)
Definition collectFilter (filters : option Filters) (filterId : string) : option Filters :=
  match filters with
  | None => None
  | Some fs =>
      let (key, value) := splitFilterId filterId in
      if Js.isPrototypeKey key then None else Some (pushFilter key value fs)
  end.

Definition collectFilters (selected : StrSet.t) : option Filters :=
  fold_left collectFilter selected (Some []).

(** The [if / else if] chain computing [match] for one entry of [filters]. *)
Definition facetMatch (key : string) (values : list (option string)) (ds : Dataset) : bool :=
  if String.eqb key "scene" then
    match scenes ds with
    | Some ss => existsb (fun v => Js.includes values (Some v)) ss
    | None => false
    end
  else if String.eqb key "robot" then
    existsb (fun r => Js.includes values r) (robotsOf ds)
  else if String.eqb key "end" then
    Js.includes values (endEffector ds)
  else if String.eqb key "action" then
    match actions ds with
    | Some acts => existsb (fun a => Js.includes values (Some a)) acts
    | None => false
    end
  else if String.eqb key "object" then
    match objects ds with
    | Some objs =>
        existsb (fun obj => existsb (fun h => Js.includes values (Some h)) (hierarchy obj)) objs
    | None => false
    end
  else false.

Section TextQuery.

(** [String.prototype.toLowerCase], a built-in of the host. *)
Variable toLowerCase : string -> string.

(** The callback of [this.datasets.filter(ds => ...)].  The loop over
    [Object.entries(filters)] returns [false] at the first entry that does
    not match; every test is pure, so the verdict is the conjunction. *)
Definition keepDataset (searchQuery : string) (filters : Filters) (ds : Dataset) : bool :=
  if Js.truthy searchQuery
     && negb (Js.strIncludes (toLowerCase (name ds)) (toLowerCase searchQuery))
  then false
  else forallb (fun kv => facetMatch (fst kv) (snd kv) ds) filters.

(** [applyFilters(searchQuery = '')]; [None] when it throws. *)
Definition applyFilters (fm : FilterManager) (searchQuery : string) : option (list Dataset) :=
  match collectFilters (selectedFilters fm) with
  | None => None
  | Some filters => Some (filter (keepDataset searchQuery filters) (datasets fm))
  end.

(** ** Filter finder *)

(** A [.filter-option] element as [searchFilterOptions] reads it: its
    handle and the trimmed text of its label element, when it has one. *)
Record FilterOption : Type := mkOption { optElement : nat; optLabel : option string }.

(** [clearFilterSearch()] *)
Definition clearFilterSearch (fm : FilterManager) : FilterManager :=
  withFinder [] (-1)%Z fm.

(** The first pass of [searchFilterOptions]: the options whose label
    contains the query, in document order. *)
Definition findMatches (queryLower : string) (allOptions : list FilterOption) : list FilterMatch :=
  flat_map
    (fun o =>
       match optLabel o with
       | Some label =>
           if Js.strIncludes (toLowerCase label) queryLower
           then [{| element := optElement o; text := label |}]
           else []
       | None => []
       end)
    allOptions.

(** [searchFilterOptions(query)]; [allOptions] is [None] when the
    [#filterGroups] container is missing. *)
Definition searchFilterOptions (allOptions : option (list FilterOption)) (query : string)
    (fm : FilterManager) : FilterManager :=
  let fm0 := clearFilterSearch fm in
  match allOptions with
  | None => fm0
  | Some opts =>
      if negb (Js.truthy query) then withFinder [] (filterFinderCurrentIndex fm0) fm0
      else
        let ms := findMatches (toLowerCase query) opts in
        if (0 <? List.length ms)%nat then withFinder ms 0%Z fm0
        else withFinder ms (filterFinderCurrentIndex fm0) fm0
  end.

End TextQuery.

(** [navigateFilterMatch(direction)].  [%] is the truncating remainder. *)
Definition navigateFilterMatch (direction : string) (fm : FilterManager) : FilterManager :=
  let n := Z.of_nat (List.length (filterFinderMatches fm)) in
  if (n =? 0)%Z then fm
  else
    let i := filterFinderCurrentIndex fm in
    let i' := if String.eqb direction "next" then Z.rem (i + 1) n
              else Z.rem (i - 1 + n) n in
    withFinder (filterFinderMatches fm) i' fm.

(** ** Bulk selection *)

(** [parentPath ? `${parentPath}>${value}` : value] *)
Definition fullPathOf (parentPath value : string) : string :=
  if Js.truthy parentPath then parentPath ++ ">" ++ value else value.

(** The guarded [this.selectedFilters.add(filterId)] of the bulk selectors. *)
Definition selectId (filterId : string) (sel : StrSet.t) : StrSet.t :=
  if negb (StrSet.has filterId sel) then StrSet.add filterId sel else sel.

(** The guarded [this.selectedFilters.delete(filterId)]. *)
Definition clearId (filterId : string) (sel : StrSet.t) : StrSet.t :=
  if StrSet.has filterId sel then StrSet.delete filterId sel else sel.

(** One entry of [selectAllInHierarchy]'s [forEach]: the node is selected
    when [node.isLeaf], then its children are visited. *)
Fixpoint selectAllInNode (groupKey parentPath value : string)
    (node : HierarchyNode) (sel : StrSet.t) : StrSet.t :=
  match node with
  | mkNode ch leaf =>
      let fullPath := fullPathOf parentPath value in
      let sel1 := if leaf then selectId (filterIdOf groupKey value) sel else sel in
      if negb (isEmpty ch) then
        (fix each (m : HierarchyMap) (acc : StrSet.t) : StrSet.t :=
           match m with
           | [] => acc
           | (v, n) :: rest => each rest (selectAllInNode groupKey fullPath v n acc)
           end) ch sel1
      else sel1
  end.

(** [selectAllInHierarchy(groupKey, hierarchyMap, parentPath = '')] *)
Definition selectAllInHierarchy (groupKey : string) (hierarchyMap : HierarchyMap)
    (parentPath : string) (sel : StrSet.t) : StrSet.t :=
  fold_left (fun acc vn => selectAllInNode groupKey parentPath (fst vn) (snd vn) acc)
    hierarchyMap sel.

(** One entry of [selectLeafNodesRecursive]'s [forEach]: the node is
    selected when [node.isLeaf || node.children.size === 0]. *)
Fixpoint selectLeafNode (groupKey parentPath value : string)
    (node : HierarchyNode) (sel : StrSet.t) : StrSet.t :=
  match node with
  | mkNode ch leaf =>
      let fullPath := fullPathOf parentPath value in
      let sel1 := if leaf || isEmpty ch then selectId (filterIdOf groupKey value) sel
                  else sel in
      if negb (isEmpty ch) then
        (fix each (m : HierarchyMap) (acc : StrSet.t) : StrSet.t :=
           match m with
           | [] => acc
           | (v, n) :: rest => each rest (selectLeafNode groupKey fullPath v n acc)
           end) ch sel1
      else sel1
  end.

(** [selectLeafNodesRecursive(groupKey, hierarchyMap, parentPath)] *)
Definition selectLeafNodesRecursive (groupKey : string) (hierarchyMap : HierarchyMap)
    (parentPath : string) (sel : StrSet.t) : StrSet.t :=
  fold_left (fun acc vn => selectLeafNode groupKey parentPath (fst vn) (snd vn) acc)
    hierarchyMap sel.

(** One entry of [clearLeafNodesRecursive]'s [forEach]. *)
Fixpoint clearLeafNode (groupKey parentPath value : string)
    (node : HierarchyNode) (sel : StrSet.t) : StrSet.t :=
  match node with
  | mkNode ch leaf =>
      let fullPath := fullPathOf parentPath value in
      let sel1 := if leaf || isEmpty ch then clearId (filterIdOf groupKey value) sel
                  else sel in
      if negb (isEmpty ch) then
        (fix each (m : HierarchyMap) (acc : StrSet.t) : StrSet.t :=
           match m with
           | [] => acc
           | (v, n) :: rest => each rest (clearLeafNode groupKey fullPath v n acc)
           end) ch sel1
      else sel1
  end.

(** [clearLeafNodesRecursive(groupKey, hierarchyMap, parentPath)] *)
Definition clearLeafNodesRecursive (groupKey : string) (hierarchyMap : HierarchyMap)
    (parentPath : string) (sel : StrSet.t) : StrSet.t :=
  fold_left (fun acc vn => clearLeafNode groupKey parentPath (fst vn) (snd vn) acc)
    hierarchyMap sel.

(** The [for ... of] loop of [findHierarchyNode]: [parts] is the whole
    path, [todo] what is left of it, [current] the cursor. *)
Fixpoint findLoop (parts todo : list string) (current : HierarchyMap)
    : option HierarchyNode :=
  match todo with
  | [] => None
  | part :: rest =>
      match mapGet part current with
      | None => None
      | Some node =>
          if (Js.indexOf part parts =? Z.of_nat (List.length parts) - 1)%Z
          then Some node
          else findLoop parts rest (children node)
      end
  end.

(** [findHierarchyNode(hierarchyMap, path)] *)
Definition findHierarchyNode (hierarchyMap : HierarchyMap) (path : string)
    : option HierarchyNode :=
  let parts := Js.split ">" path in
  findLoop parts parts hierarchyMap.

(** [selectAllInGroup(groupKey)].  An inherited member read through
    [this.filterGroups[groupKey]] is truthy and has no [type]: neither
    branch runs, the update is still scheduled. *)
Definition selectAllInGroup (groupKey : string) (w : World) : World :=
  match Js.get (filterGroups (this w)) groupKey with
  | Js.Undefined => w
  | Js.Inherited => scheduleFilterUpdate w
  | Js.Own (FlatGroup _ values) =>
      scheduleFilterUpdate
        (onThis (withSelectedFilters
                   (fold_left (fun acc value => selectId (filterIdOf groupKey value) acc)
                      values (selectedFilters (this w)))) w)
  | Js.Own (HierarchicalGroup _ values) =>
      scheduleFilterUpdate
        (onThis (withSelectedFilters
                   (selectAllInHierarchy groupKey values "" (selectedFilters (this w)))) w)
  end.

(** [clearGroup(groupKey)]: the ids whose first [':']-part is [groupKey]
    are collected, then deleted. *)
Definition clearGroup (groupKey : string) (w : World) : World :=
  let sel := selectedFilters (this w) in
  let filtersToRemove :=
    filter (fun filterId => String.eqb (fst (splitFilterId filterId)) groupKey) sel in
  scheduleFilterUpdate
    (onThis (withSelectedFilters
               (fold_left (fun acc filterId => StrSet.delete filterId acc)
                  filtersToRemove sel)) w).

(** [selectAllChildrenInHierarchy(groupKey, path)] *)
Definition selectAllChildrenInHierarchy (groupKey path : string) (w : World) : World :=
  match Js.get (filterGroups (this w)) groupKey with
  | Js.Own (HierarchicalGroup _ values) =>
      match findHierarchyNode values path with
      | None => w
      | Some node =>
          scheduleFilterUpdate
            (onThis (withSelectedFilters
                       (selectLeafNodesRecursive groupKey (children node) path
                          (selectedFilters (this w)))) w)
      end
  | _ => w
  end.

(** [clearAllChildrenInHierarchy(groupKey, path)] *)
Definition clearAllChildrenInHierarchy (groupKey path : string) (w : World) : World :=
  match Js.get (filterGroups (this w)) groupKey with
  | Js.Own (HierarchicalGroup _ values) =>
      match findHierarchyNode values path with
      | None => w
      | Some node =>
          scheduleFilterUpdate
            (onThis (withSelectedFilters
                       (clearLeafNodesRecursive groupKey (children node) path
                          (selectedFilters (this w)))) w)
      end
  | _ => w
  end.

(** ** Tooltips *)

(** [initializeTooltips()] *)
Definition initializeTooltips (fm : FilterManager) : FilterManager :=
  let fm1 := match tooltipElement fm with
             | Some _ => fm
             | None => withTooltipElement
                         (Some {| tipContent := None; tipShown := false |}) fm
             end in
  updateFilterCounts fm1.

(** [showTooltip(element, filterKey, filterValue)] *)
Definition showTooltip (filterKey filterValue : string) (w : World) : World :=
  match tooltipElement (this w) with
  | None => w
  | Some _ =>
      let h := match tooltipTimeout (this w) with
               | Some id => clearTimeout id (host w)
               | None => host w
               end in
      let (id, h') := setTimeout (TooltipTask filterKey filterValue) (tooltipDelay h) h in
      {| this := withTooltipTimeout (Some id) (this w); host := h' |}
  end.

(** [hideTooltip()] *)
Definition hideTooltip (w : World) : World :=
  let w1 := match tooltipTimeout (this w) with
            | Some id =>
                {| this := withTooltipTimeout None (this w);
                   host := clearTimeout id (host w) |}
            | None => w
            end in
  match tooltipElement (this w1) with
  | Some t =>
      onThis (withTooltipElement
                (Some {| tipContent := tipContent t; tipShown := false |})) w1
  | None => w1
  end.

(** ** Vocabulary of the statements *)

(** The string has no [':']. *)
Fixpoint noColon (s : string) : bool :=
  match s with
  | EmptyString => true
  | String c rest => negb (Ascii.eqb c ":") && noColon rest
  end.

(** The part of the string before its first [':'] (all of it when there
    is none). *)
Fixpoint beforeColon (s : string) : string :=
  match s with
  | EmptyString => EmptyString
  | String c rest => if Ascii.eqb c ":" then EmptyString else String c (beforeColon rest)
  end.

(** An id built from a facet key and a value without [':']. *)
Definition plainId (filterId : string) : Prop :=
  exists k v, filterId = filterIdOf k v /\ In k facetKeys /\ noColon v = true.

(** The selected values recorded for [key] in a list of (key, value) pairs. *)
Definition valuesFor (key : string) (pairs : list (string * option string))
    : list (option string) :=
  map snd (filter (fun p => String.eqb (fst p) key) pairs).

(** [filters] after pushing the pairs one by one. *)
Definition pushAll (pairs : list (string * option string)) (fs : Filters) : Filters :=
  fold_left (fun acc p => pushFilter (fst p) (snd p) acc) pairs fs.

(** Resolving a path as the spec words it: walk the tree segment by
    segment from the root; the walk fails as soon as a segment is absent,
    and the node of the final segment is the result. *)
Fixpoint walkPath (m : HierarchyMap) (segments : list string) : option HierarchyNode :=
  match segments with
  | [] => None
  | seg :: rest =>
      match mapGet seg m with
      | None => None
      | Some node =>
          match rest with
          | [] => Some node
          | _ :: _ => walkPath (children node) rest
          end
      end
  end.

(** [descendant m v n]: the node [n] is stored under the value [v]
    somewhere in the forest [m], at any depth. *)
Inductive descendant : HierarchyMap -> string -> HierarchyNode -> Prop :=
| DescHere (m : HierarchyMap) (v : string) (n : HierarchyNode) :
    In (v, n) m -> descendant m v n
| DescBelow (m : HierarchyMap) (v' : string) (n' : HierarchyNode)
    (v : string) (n : HierarchyNode) :
    In (v', n') m -> descendant (children n') v n -> descendant m v n.

(** Every node without children, here and below, is flagged as a leaf. *)
Fixpoint leafOk (node : HierarchyNode) : bool :=
  match node with
  | mkNode ch leaf =>
      (negb (isEmpty ch) || leaf) && forallb (fun vn => leafOk (snd vn)) ch
  end.

Definition mapLeafOk (m : HierarchyMap) : bool :=
  forallb (fun vn => leafOk (snd vn)) m.

(** The leaf test of [selectLeafNodesRecursive] and [clearLeafNodesRecursive]. *)
Definition leafTest (node : HierarchyNode) : bool :=
  isLeaf node || isEmpty (children node).

(** The ids [groupKey:value] of the nodes of a subtree that pass the leaf
    test, in the order the traversals visit them. *)
Fixpoint nodeLeafIds (groupKey value : string) (node : HierarchyNode) : list string :=
  match node with
  | mkNode ch leaf =>
      ((if leaf || isEmpty ch then [filterIdOf groupKey value] else [])
       ++ flat_map (fun vn => nodeLeafIds groupKey (fst vn) (snd vn)) ch)%list
  end.

Definition leafIds (groupKey : string) (m : HierarchyMap) : list string :=
  flat_map (fun vn => nodeLeafIds groupKey (fst vn) (snd vn)) m.

(** ** Reachable states *)

(** The states the page can bring the manager to: construction, the calls
    of the event handlers into the manager, the [filtersChanged] event that
    the reset button dispatches itself, and armed timeouts firing. *)
Inductive reachable : World -> Prop :=
| ReachNew (ds : list Dataset) (delay : nat) :
    reachable {| this := constructor ds;
                 host := {| timers := []; nextTimerId := 1%positive;
                            tooltipDelay := delay; filtersChanged := 0 |} |}
| ReachBuild (w : World) :
    reachable w -> reachable (onThis buildFilterGroups w)
| ReachToggle (k v : string) (w : World) :
    reachable w -> reachable (fst (toggleFilterSelection k v w))
| ReachRemoveTag (filterId : string) (w : World) :
    reachable w -> reachable (removeFilterTagById filterId w)
| ReachReset (w : World) :
    reachable w -> reachable (resetFilters w)
| ReachDispatch (w : World) :
    reachable w ->
    reachable {| this := this w; host := dispatchFiltersChanged (host w) |}
| ReachSelectAll (groupKey : string) (w : World) :
    reachable w -> reachable (selectAllInGroup groupKey w)
| ReachClearGroup (groupKey : string) (w : World) :
    reachable w -> reachable (clearGroup groupKey w)
| ReachSelectUnder (groupKey path : string) (w : World) :
    reachable w -> reachable (selectAllChildrenInHierarchy groupKey path w)
| ReachClearUnder (groupKey path : string) (w : World) :
    reachable w -> reachable (clearAllChildrenInHierarchy groupKey path w)
| ReachSearch (toLowerCase : string -> string) (allOptions : option (list FilterOption))
    (query : string) (w : World) :
    reachable w -> reachable (onThis (searchFilterOptions toLowerCase allOptions query) w)
| ReachNavigate (direction : string) (w : World) :
    reachable w -> reachable (onThis (navigateFilterMatch direction) w)
| ReachClearSearch (w : World) :
    reachable w -> reachable (onThis clearFilterSearch w)
| ReachInitTooltips (w : World) :
    reachable w -> reachable (onThis initializeTooltips w)
| ReachShowTooltip (k v : string) (w : World) :
    reachable w -> reachable (showTooltip k v w)
| ReachHideTooltip (w : World) :
    reachable w -> reachable (hideTooltip w)
| ReachTimer (w w' : World) :
    reachable w -> timerFires w w' -> reachable w'.

(** How the two stored handles relate to the timer table: handles are
    unique and below the next one; an armed filter update is the one
    recorded in [pendingFilterUpdate], and a recorded one is armed; the
    handle in [tooltipTimeout] never names a filter update. *)
Definition timersOk (pending tooltip : option TimerId) (h : Host) : Prop :=
  NoDup (map timerId (timers h)) /\
  (forall t, In t (timers h) -> (timerId t < nextTimerId h)%positive) /\
  (forall t, In t (timers h) -> timerTask t = FilterUpdateTask ->
             pending = Some (timerId t)) /\
  (forall p, pending = Some p ->
             exists t, In t (timers h) /\ timerId t = p /\ timerTask t = FilterUpdateTask) /\
  (forall q, tooltip = Some q ->
             (q < nextTimerId h)%positive /\
             forall t, In t (timers h) -> timerId t = q -> timerTask t <> FilterUpdateTask).

Definition worldOk (w : World) : Prop :=
  timersOk (pendingFilterUpdate (this w)) (tooltipTimeout (this w)) (host w).

(** The calls of the event handlers into the manager that change its
    state, as data ([applyFilters] and [calculateAffectedCount] only read
    it). *)
Inductive Call : Type :=
| CallBuildFilterGroups
| CallToggle (filterKey filterValue : string)
| CallRemoveTag (filterId : string)
| CallReset
| CallSelectAllInGroup (groupKey : string)
| CallClearGroup (groupKey : string)
| CallSelectUnder (groupKey path : string)
| CallClearUnder (groupKey path : string)
| CallSearch (toLowerCase : string -> string) (allOptions : option (list FilterOption))
    (query : string)
| CallNavigate (direction : string)
| CallClearSearch
| CallInitializeTooltips
| CallShowTooltip (filterKey filterValue : string)
| CallHideTooltip.

Definition perform (c : Call) (w : World) : World :=
  match c with
  | CallBuildFilterGroups => onThis buildFilterGroups w
  | CallToggle k v => fst (toggleFilterSelection k v w)
  | CallRemoveTag filterId => removeFilterTagById filterId w
  | CallReset => resetFilters w
  | CallSelectAllInGroup groupKey => selectAllInGroup groupKey w
  | CallClearGroup groupKey => clearGroup groupKey w
  | CallSelectUnder groupKey p => selectAllChildrenInHierarchy groupKey p w
  | CallClearUnder groupKey p => clearAllChildrenInHierarchy groupKey p w
  | CallSearch toLowerCase allOptions query =>
      onThis (searchFilterOptions toLowerCase allOptions query) w
  | CallNavigate direction => onThis (navigateFilterMatch direction) w
  | CallClearSearch => onThis clearFilterSearch w
  | CallInitializeTooltips => onThis initializeTooltips w
  | CallShowTooltip k v => showTooltip k v w
  | CallHideTooltip => hideTooltip w
  end.

(** The two methods whose body holds a [clearTimeout(this.tooltipTimeout)]. *)
Definition clearsTooltipTimeout (c : Call) : bool :=
  match c with
  | CallShowTooltip _ _ | CallHideTooltip => true
  | _ => false
  end.

(** ** Sample data *)

(** A fresh page: nothing armed, the default tooltip delay. *)
Definition initialHost : Host :=
  {| timers := []; nextTimerId := 1%positive; tooltipDelay := 300; filtersChanged := 0 |}.

(** The manager after [new FilterManager(datasets)] and [buildFilterGroups()]. *)
Definition initialWorld (ds : list Dataset) : World :=
  {| this := buildFilterGroups (constructor ds); host := initialHost |}.

Definition threeMatches : FilterManager :=
  withFinder [mkMatch 0 "arm"; mkMatch 1 "armchair"; mkMatch 2 "farm"] 0%Z (constructor []).

(** Records A (scene=kitchen, robot=arm1) and B (scene=kitchen, robot=arm2). *)
Definition recordA : Dataset :=
  {| path := "a"; name := "A"; scenes := Some ["kitchen"]; robot := RobotOne "arm1";
     endEffector := None; actions := None; objects := None |}.

Definition recordB : Dataset :=
  {| path := "b"; name := "B"; scenes := Some ["kitchen"]; robot := RobotOne "arm2";
     endEffector := None; actions := None; objects := None |}.

(** A record whose single object has the path [tools > drill]. *)
Definition drillRecord : Dataset :=
  {| path := "d"; name := "drill demo"; scenes := None; robot := RobotMissing;
     endEffector := None; actions := None;
     objects := Some [ {| hierarchy := ["tools"; "drill"] |} ] |}.

(** Records tagged with the scenes [lab:bench] and [lab]. *)
Definition benchRecord : Dataset :=
  {| path := "bench"; name := "bench"; scenes := Some ["lab:bench"]; robot := RobotMissing;
     endEffector := None; actions := None; objects := None |}.

Definition labRecord : Dataset :=
  {| path := "lab"; name := "lab"; scenes := Some ["lab"]; robot := RobotMissing;
     endEffector := None; actions := None; objects := None |}.

(** A record with the single object path [segments]. *)
Definition objectRecord (segments : list string) : Dataset :=
  {| path := "o"; name := "o"; scenes := None; robot := RobotMissing;
     endEffector := None; actions := None;
     objects := Some [ {| hierarchy := segments |} ] |}.

(** The tree [a > {b (leaf), c > {d (leaf)}}], built from two records. *)
Definition abcdWorld : World :=
  initialWorld [objectRecord ["a"; "b"]; objectRecord ["a"; "c"; "d"]].

(** A longer path first, then a path that stops at its first segment. *)
Definition longThenShort : list Dataset :=
  [objectRecord ["a"; "b"]; objectRecord ["a"]].

Definition shortThenLong : list Dataset :=
  [objectRecord ["a"]; objectRecord ["a"; "b"]].

(** A record whose path repeats a segment: [a > a > b]. *)
Definition aabWorld : World := initialWorld [objectRecord ["a"; "a"; "b"]].

(** Hovering [scene:kitchen] with the tooltips initialised, then toggling it. *)
Definition hoverThenToggle : World :=
  fst (toggleFilterSelection "scene" "kitchen"
         (showTooltip "scene" "kitchen"
            (onThis initializeTooltips (initialWorld [recordA; recordB])))).

(** ** Callers in the event handlers

    [EventHandlers] shares the set [selectedDatasets] of record paths with
    the other managers; its methods below read the filtered records from
    the filter manager and update that set.  The grid and panel refreshes
    they end with only reach the DOM. *)

(** [document.getElementById('searchBox')?.value || '']: [box] is the
    value of the search box, or [None] when the element is missing. *)
Definition searchBoxValue (box : option string) : string :=
  match box with
  | Some v => if Js.truthy v then v else ""
  | None => ""
  end.

(** [toggleSelection(path)] *)
Definition toggleSelection (p : string) (selectedDatasets : StrSet.t) : StrSet.t :=
  if StrSet.has p selectedDatasets then StrSet.delete p selectedDatasets
  else StrSet.add p selectedDatasets.

Section FilteredSelection.

Variable toLowerCase : string -> string.

(** [selectAllFiltered()]; [None] when [applyFilters] throws. *)
Definition selectAllFiltered (fm : FilterManager) (box : option string)
    (selectedDatasets : StrSet.t) : option StrSet.t :=
  match applyFilters toLowerCase fm (searchBoxValue box) with
  | None => None
  | Some filteredDatasets =>
      Some (fold_left (fun acc ds => StrSet.add (path ds) acc)
              filteredDatasets selectedDatasets)
  end.

(** [deselectAllFiltered()]; [None] when [applyFilters] throws. *)
Definition deselectAllFiltered (fm : FilterManager) (box : option string)
    (selectedDatasets : StrSet.t) : option StrSet.t :=
  match applyFilters toLowerCase fm (searchBoxValue box) with
  | None => None
  | Some filteredDatasets =>
      Some (fold_left (fun acc ds => StrSet.delete (path ds) acc)
              filteredDatasets selectedDatasets)
  end.

End FilteredSelection.

(** What the handlers of [bindFilterEvents] see besides the manager: the
    [#searchBox] element ([None] when the page has none, else its value)
    and the number of [filtersChanged] notifications that the debounced
    [input] listener of the search box has armed and that have not fired
    yet.  [debounce] comes from [virtual-scroll.js]; how many calls it lets
    through is left open.  The other timeouts of the page (focus, resize,
    the click animation of a button) dispatch nothing and are left out. *)
Record Page : Type := mkPage {
  world : World;
  searchBox : option string;
  searchNotifications : nat
}.

(** The click handler of the reset button: the search box is emptied,
    the filters are reset and [filtersChanged] is dispatched at once.
    Without a search box the first statement assigns to a property of
    [null]: the handler throws before the manager is called, which is
    [None].  Setting [value] from a script fires no [input] event.  The
    later version of the handler first calls [addClickAnimation], which
    only touches the class list of the button. *)
Definition resetButtonClick (p : Page) : option Page :=
  match searchBox p with
  | None => None
  | Some _ =>
      let w1 := resetFilters (world p) in
      Some {| world := {| this := this w1; host := dispatchFiltersChanged (host w1) |};
              searchBox := Some "";
              searchNotifications := searchNotifications p |}
  end.

(** A timeout of the page fires: one of the manager's, or a notification
    of the search box, whose callback dispatches [filtersChanged]. *)
Inductive pageTimerFires : Page -> Page -> Prop :=
| ManagerTimerFires (p : Page) (w' : World) :
    timerFires (world p) w' ->
    pageTimerFires p
      {| world := w'; searchBox := searchBox p;
         searchNotifications := searchNotifications p |}
| SearchNotificationFires (p : Page) (n : nat) :
    searchNotifications p = S n ->
    pageTimerFires p
      {| world := {| this := this (world p);
                     host := dispatchFiltersChanged (host (world p)) |};
         searchBox := searchBox p;
         searchNotifications := n |}.

Inductive pageTimersRun : Page -> Page -> Prop :=
| PageRunDone (p : Page) : pageTimersRun p p
| PageRunStep (p1 p2 p3 : Page) :
    pageTimerFires p1 p2 -> pageTimersRun p2 p3 -> pageTimersRun p1 p3.

(** The [touchstart] listener of [bindFilterDropdownEvents] (touch
    devices).  [target] describes [e.target.closest('.filter-option')]:
    [None] when the touch is outside every option, else the option (a DOM
    handle) with its [data-filter] and [data-value], a missing attribute
    reading as the empty string.  [lastTouchTarget] is
    the listener's own variable.  The result is the new state, the new
    [lastTouchTarget], and whether [e.preventDefault()] was called. *)
Definition touchStart (target : option (nat * string * string))
    (lastTouchTarget : option nat) (w : World) : World * option nat * bool :=
  match target with
  | None => (hideTooltip w, None, false)
  | Some (optionEl, filterKey, filterValue) =>
      if Js.truthy filterKey && Js.truthy filterValue then
        match lastTouchTarget with
        | Some last =>
            if Nat.eqb last optionEl then (hideTooltip w, None, false)
            else (showTooltip filterKey filterValue w, Some optionEl, true)
        | None => (showTooltip filterKey filterValue w, Some optionEl, true)
        end
      else (w, lastTouchTarget, false)
  end.

(** ** Records as they are loaded

    Nothing checks a record before it reaches the manager.
    [addToHierarchy] returns at once on a missing path ([!levels]), so an
    entry of [ds.objects] without [hierarchy] passes [buildFilterGroups];
    the [object] test of [applyFilters] then calls [.some] on [undefined]
    and throws.  This module keeps that case: [hierarchy] is optional, a
    test may throw ([None]), and every loop stops where the code's does. *)

Module Raw.

Record DatasetObject : Type := mkObject { hierarchy : option (list string) }.

Record Dataset : Type := mkDataset {
  path : string;
  name : string;
  scenes : option (list string);
  robot : RobotField;
  endEffector : option string;
  actions : option (list string);
  objects : option (list DatasetObject)
}.

Definition robotsOf (ds : Dataset) : list (option string) :=
  match robot ds with
  | RobotMissing => [None]
  | RobotOne r => [Some r]
  | RobotMany rs => map Some rs
  end.

(** [ds.objects.some(obj => obj.hierarchy.some(h => values.includes(h)))]:
    the objects are visited in order up to the first one that matches;
    visiting one without [hierarchy] throws. *)
Fixpoint someObject (values : list (option string)) (objs : list DatasetObject)
    : option bool :=
  match objs with
  | [] => Some false
  | obj :: rest =>
      match hierarchy obj with
      | None => None
      | Some segments =>
          if existsb (fun h => Js.includes values (Some h)) segments then Some true
          else someObject values rest
      end
  end.

(** The [if / else if] chain computing [match] for one entry of [filters]. *)
Definition facetMatch (key : string) (values : list (option string)) (ds : Dataset)
    : option bool :=
  if String.eqb key "scene" then
    Some match scenes ds with
         | Some ss => existsb (fun v => Js.includes values (Some v)) ss
         | None => false
         end
  else if String.eqb key "robot" then
    Some (existsb (fun r => Js.includes values r) (robotsOf ds))
  else if String.eqb key "end" then
    Some (Js.includes values (endEffector ds))
  else if String.eqb key "action" then
    Some match actions ds with
         | Some acts => existsb (fun a => Js.includes values (Some a)) acts
         | None => false
         end
  else if String.eqb key "object" then
    match objects ds with
    | Some objs => someObject values objs
    | None => Some false
    end
  else Some false.

(** The loop [for (const [key, values] of entries)] with its
    [if (!match) return false]: it is left at the first entry that does not
    match, or that throws; the entries after it are not looked at. *)
Fixpoint matchEntries (entries : Filters) (ds : Dataset) : option bool :=
  match entries with
  | [] => Some true
  | (key, values) :: rest =>
      match facetMatch key values ds with
      | None => None
      | Some false => Some false
      | Some true => matchEntries rest ds
      end
  end.

(** [Array.prototype.filter] with a callback that may throw. *)
Fixpoint filterDatasets (keep : Dataset -> option bool) (l : list Dataset)
    : option (list Dataset) :=
  match l with
  | [] => Some []
  | ds :: rest =>
      match keep ds with
      | None => None
      | Some b =>
          match filterDatasets keep rest with
          | None => None
          | Some kept => Some (if b then ds :: kept else kept)
          end
      end
  end.

Section ApplyFilters.

(** [Object.entries(filters)] lists the integer-like keys first, in
    ascending order, and then the other keys in insertion order.  The
    order is a parameter; the properties below are proved for every order
    that lists each entry once. *)
Variable entries : Filters -> Filters.

Variable toLowerCase : string -> string.

(** The callback of [this.datasets.filter(ds => ...)]. *)
Definition keepDataset (searchQuery : string) (filters : Filters) (ds : Dataset)
    : option bool :=
  if Js.truthy searchQuery
     && negb (Js.strIncludes (toLowerCase (name ds)) (toLowerCase searchQuery))
  then Some false
  else matchEntries (entries filters) ds.

(** [applyFilters(searchQuery = '')] on [this.selectedFilters] and
    [this.datasets]; [None] when it throws. *)
Definition applyFilters (selectedFilters : StrSet.t) (datasets : list Dataset)
    (searchQuery : string) : option (list Dataset) :=
  match collectFilters selectedFilters with
  | None => None
  | Some filters => filterDatasets (keepDataset searchQuery filters) datasets
  end.

End ApplyFilters.

End Raw.

(** A record of the earlier sections, as a loaded record: every object
    entry carries its hierarchy. *)
Definition loosenObject (obj : DatasetObject) : Raw.DatasetObject :=
  {| Raw.hierarchy := Some (hierarchy obj) |}.

Definition loosen (ds : Dataset) : Raw.Dataset :=
  {| Raw.path := path ds;
     Raw.name := name ds;
     Raw.scenes := scenes ds;
     Raw.robot := robot ds;
     Raw.endEffector := endEffector ds;
     Raw.actions := actions ds;
     Raw.objects := option_map (map loosenObject) (objects ds) |}.

(** Every object entry of the record has a [hierarchy]. *)
Definition hasHierarchy (ds : Raw.Dataset) : bool :=
  match Raw.objects ds with
  | Some objs =>
      forallb (fun obj => match Raw.hierarchy obj with Some _ => true | None => false end) objs
  | None => true
  end.

(** The order of [Object.entries] when no key is integer-like. *)
Definition insertionOrder (filters : Filters) : Filters := filters.

(** A record tagged with the scene [k] whose single object entry has no
    [hierarchy]. *)
Definition bareObjectRecord : Raw.Dataset :=
  {| Raw.path := "r"; Raw.name := "r"; Raw.scenes := Some ["k"];
     Raw.robot := RobotMissing; Raw.endEffector := None; Raw.actions := None;
     Raw.objects := Some [ {| Raw.hierarchy := None |} ] |}.

(** ** Further vocabulary *)


Definition isUpdateTimer (t : Timer) : bool :=
  match timerTask t with
  | FilterUpdateTask => true
  | TooltipTask _ _ => false
  end.

(** The armed filter-update timeouts. *)
Definition pendingUpdates (h : Host) : list Timer := filter isUpdateTimer (timers h).

(** The armed tooltip timeouts. *)
Definition pendingTooltips (h : Host) : list Timer :=
  filter (fun t => negb (isUpdateTimer t)) (timers h).

(** An armed tooltip timeout is the one recorded in [tooltipTimeout]. *)
Definition tooltipOk (w : World) : Prop :=
  forall t, In t (timers (host w)) -> isUpdateTimer t = false ->
            tooltipTimeout (this w) = Some (timerId t).

(** The tooltip is not on display. *)
Definition tooltipHidden (fm : FilterManager) : bool :=
  match tooltipElement fm with
  | Some t => negb (tipShown t)
  | None => true
  end.

(** The ids [groupKey:value] of the nodes of a subtree flagged [isLeaf],
    in the order [selectAllInHierarchy] visits them. *)
Fixpoint nodeFlaggedIds (groupKey value : string) (node : HierarchyNode) : list string :=
  match node with
  | mkNode ch leaf =>
      ((if leaf then [filterIdOf groupKey value] else [])
       ++ flat_map (fun vn => nodeFlaggedIds groupKey (fst vn) (snd vn)) ch)%list
  end.

Definition flaggedIds (groupKey : string) (m : HierarchyMap) : list string :=
  flat_map (fun vn => nodeFlaggedIds groupKey (fst vn) (snd vn)) m.





(** [navigateFilterMatch(direction)] called [k] times. *)
Fixpoint navigateTimes (direction : string) (k : nat) (fm : FilterManager) : FilterManager :=
  match k with
  | O => fm
  | S k' => navigateTimes direction k' (navigateFilterMatch direction fm)
  end.

(** * Properties *)

(** ** Sets and strings *)

Lemma strArrIncludes_In (arr : list string) (x : string) :
  Js.strArrIncludes arr x = true <-> In x arr.
Proof.
  unfold Js.strArrIncludes. rewrite existsb_exists. split.
  - intros [y [Hy Heq]]. apply String.eqb_eq in Heq. now subst.
  - intros H. exists x. split; [assumption | apply String.eqb_refl].
Qed.

Lemma has_In (x : string) (s : StrSet.t) : StrSet.has x s = true <-> In x s.
Proof. apply strArrIncludes_In. Qed.

Lemma has_false_In (x : string) (s : StrSet.t) : StrSet.has x s = false <-> ~ In x s.
Proof.
  rewrite <- has_In. destruct (StrSet.has x s); split; intro H; congruence.
Qed.

Lemma In_add (x y : string) (s : StrSet.t) :
  In y (StrSet.add x s) <-> y = x \/ In y s.
Proof.
  unfold StrSet.add. destruct (StrSet.has x s) eqn:E.
  - apply has_In in E. split; [tauto | intros [-> | H]; assumption].
  - rewrite in_app_iff. simpl. split; intros H; intuition congruence.
Qed.

Lemma In_delete (x y : string) (s : StrSet.t) :
  In y (StrSet.delete x s) <-> y <> x /\ In y s.
Proof.
  unfold StrSet.delete. rewrite filter_In, negb_true_iff, String.eqb_neq. tauto.
Qed.

Lemma In_selectId (x y : string) (s : StrSet.t) :
  In y (selectId x s) <-> y = x \/ In y s.
Proof.
  unfold selectId. destruct (StrSet.has x s) eqn:E; simpl.
  - apply has_In in E. split; [tauto | intros [-> | H]; assumption].
  - apply In_add.
Qed.

Lemma In_clearId (x y : string) (s : StrSet.t) :
  In y (clearId x s) <-> y <> x /\ In y s.
Proof.
  unfold clearId. destruct (StrSet.has x s) eqn:E.
  - apply In_delete.
  - apply has_false_In in E. split; [| tauto].
    intros H. split; [| assumption]. intros ->. contradiction.
Qed.

(** ** Match navigation *)

Lemma navigate_empty (direction : string) (fm : FilterManager) :
  filterFinderMatches fm = [] -> navigateFilterMatch direction fm = fm.
Proof. intros H. unfold navigateFilterMatch. now rewrite H. Qed.

(** C7.  With [n > 0] matches and the current index [i] in [0 .. n-1],
    [navigateFilterMatch('next')] moves the index to [(i+1) mod n] and
    [navigateFilterMatch('prev')] to [(i-1+n) mod n], leaving the match list
    as it is; with an empty match list the call changes nothing.  With three
    matches, [prev] from index 0 lands on 2 and repeated [next] visits
    1, 2, 0. *)
Theorem navigate_wraps (fm : FilterManager) (m1 m2 m3 : FilterMatch) :
  let n := Z.of_nat (List.length (filterFinderMatches fm)) in
  let i := filterFinderCurrentIndex fm in
  (filterFinderMatches fm = [] ->
     forall direction, navigateFilterMatch direction fm = fm) /\
  ((0 <= i < n)%Z ->
     navigateFilterMatch "next" fm
       = withFinder (filterFinderMatches fm) ((i + 1) mod n)%Z fm /\
     navigateFilterMatch "prev" fm
       = withFinder (filterFinderMatches fm) ((i - 1 + n) mod n)%Z fm) /\
  (let fm0 := withFinder [m1; m2; m3] 0%Z fm in
   let fm1 := navigateFilterMatch "next" fm0 in
   let fm2 := navigateFilterMatch "next" fm1 in
   let fm3 := navigateFilterMatch "next" fm2 in
   filterFinderCurrentIndex (navigateFilterMatch "prev" fm0) = 2%Z /\
   filterFinderCurrentIndex fm1 = 1%Z /\
   filterFinderCurrentIndex fm2 = 2%Z /\
   filterFinderCurrentIndex fm3 = 0%Z).
Proof.
  intros n i. split; [| split].
  - intros Hn direction. now apply navigate_empty.
  - intros Hi. unfold navigateFilterMatch. fold n. fold i.
    assert (Hn : (n =? 0)%Z = false) by (apply Z.eqb_neq; lia).
    rewrite Hn. simpl.
    rewrite !Z.rem_mod_nonneg by lia. split; reflexivity.
  - repeat split.
Qed.

Lemma navigate_wraps_witness :
  (forall direction,
     navigateFilterMatch direction (constructor []) = constructor []) /\
  filterFinderCurrentIndex (navigateFilterMatch "next" threeMatches) = 1%Z /\
  filterFinderCurrentIndex (navigateFilterMatch "prev" threeMatches) = 2%Z.
Proof.
  split.
  - apply (proj1 (navigate_wraps (constructor []) (mkMatch 0 "") (mkMatch 0 "") (mkMatch 0 ""))).
    reflexivity.
  - destruct (proj1 (proj2 (navigate_wraps threeMatches
                              (mkMatch 0 "") (mkMatch 0 "") (mkMatch 0 ""))))
      as [Hn Hp].
    + simpl. lia.
    + rewrite Hn, Hp. split; reflexivity.
Defined.

(** ** Toggling *)

#[local] Arguments StrSet.has : simpl never.
#[local] Arguments StrSet.add : simpl never.
#[local] Arguments StrSet.delete : simpl never.

Lemma has_add (x y : string) (s : StrSet.t) :
  StrSet.has y (StrSet.add x s) = String.eqb y x || StrSet.has y s.
Proof.
  apply eq_true_iff_eq. rewrite orb_true_iff, !has_In, In_add, String.eqb_eq. tauto.
Qed.

Lemma has_delete (x y : string) (s : StrSet.t) :
  StrSet.has y (StrSet.delete x s) = negb (String.eqb y x) && StrSet.has y s.
Proof.
  apply eq_true_iff_eq.
  rewrite andb_true_iff, negb_true_iff, !has_In, In_delete, String.eqb_neq. tauto.
Qed.

Lemma selected_scheduleFilterUpdate (w : World) :
  selectedFilters (this (scheduleFilterUpdate w)) = selectedFilters (this w).
Proof. reflexivity. Qed.

Lemma datasets_scheduleFilterUpdate (w : World) :
  datasets (this (scheduleFilterUpdate w)) = datasets (this w).
Proof. reflexivity. Qed.

(** C5, as the code has it.  [toggleFilterSelection] flips the membership
    of the id [filterKey:filterValue] and of no other id; the call itself
    evaluates to [undefined], whether the id was added or removed. *)
Theorem toggle_flips_membership (filterKey filterValue : string) (w : World) :
  let filterId := filterIdOf filterKey filterValue in
  let w' := fst (toggleFilterSelection filterKey filterValue w) in
  snd (toggleFilterSelection filterKey filterValue w) = Js.VUndefined /\
  StrSet.has filterId (selectedFilters (this w'))
    = negb (StrSet.has filterId (selectedFilters (this w))) /\
  forall other,
    StrSet.has other (selectedFilters (this w'))
    = if String.eqb other filterId
      then negb (StrSet.has filterId (selectedFilters (this w)))
      else StrSet.has other (selectedFilters (this w)).
Proof.
  intros filterId w'.
  assert (H : forall other,
             StrSet.has other (selectedFilters (this w'))
             = if String.eqb other filterId
               then negb (StrSet.has filterId (selectedFilters (this w)))
               else StrSet.has other (selectedFilters (this w))).
  { intros other. subst w'. unfold toggleFilterSelection. fold filterId.
    cbn [fst]. rewrite selected_scheduleFilterUpdate. cbn.
    destruct (StrSet.has filterId (selectedFilters (this w))) eqn:E.
    - rewrite has_delete. destruct (String.eqb_spec other filterId); [reflexivity|].
      reflexivity.
    - rewrite has_add. destruct (String.eqb_spec other filterId) as [-> |]; [reflexivity|].
      reflexivity. }
  split; [reflexivity | split; [| exact H]].
  rewrite H, String.eqb_refl. reflexivity.
Qed.

(** Against the return value of C5: adding [scene:kitchen] to the empty
    selection selects it, and the call does not evaluate to [true]. *)
Lemma toggle_returns_no_boolean :
  let r := toggleFilterSelection "scene" "kitchen" (initialWorld [recordA; recordB]) in
  StrSet.has "scene:kitchen" (selectedFilters (this (fst r))) = true /\
  snd r <> Js.VBool true.
Proof. split; [reflexivity | discriminate]. Qed.

(** ** Affected counts and the selection *)

Lemma datasets_selectAllInGroup (groupKey : string) (w : World) :
  datasets (this (selectAllInGroup groupKey w)) = datasets (this w).
Proof.
  unfold selectAllInGroup.
  destruct (Js.get (filterGroups (this w)) groupKey) as [[t vs | t vs] | |]; reflexivity.
Qed.

(** C6.  [calculateAffectedCount] reads the record collection only: two
    managers holding the same records give the same count whatever their
    selections are, replacing the selection leaves every count unchanged,
    and so does [selectAllInGroup] for any group. *)
Theorem affected_count_ignores_selection (fm1 fm2 : FilterManager)
    (filterKey filterValue : string) :
  datasets fm1 = datasets fm2 ->
  calculateAffectedCount fm1 filterKey filterValue
    = calculateAffectedCount fm2 filterKey filterValue /\
  (forall sel,
     calculateAffectedCount (withSelectedFilters sel fm1) filterKey filterValue
     = calculateAffectedCount fm1 filterKey filterValue) /\
  (forall groupKey h,
     calculateAffectedCount (this (selectAllInGroup groupKey (mkWorld fm1 h)))
       filterKey filterValue
     = calculateAffectedCount fm1 filterKey filterValue).
Proof.
  intros H. unfold calculateAffectedCount. split; [now rewrite H | split].
  - reflexivity.
  - intros groupKey h. now rewrite datasets_selectAllInGroup.
Qed.

Lemma affected_count_ignores_selection_witness :
  calculateAffectedCount (this (initialWorld [recordA; recordB])) "scene" "kitchen"
  = calculateAffectedCount
      (this (selectAllInGroup "robot" (initialWorld [recordA; recordB])))
      "scene" "kitchen".
Proof.
  apply (affected_count_ignores_selection
           (this (initialWorld [recordA; recordB]))
           (this (selectAllInGroup "robot" (initialWorld [recordA; recordB])))
           "scene" "kitchen").
  reflexivity.
Defined.

(** ** Splitting filter ids *)

Lemma split_nonempty (sep : ascii) (s : string) : Js.split sep s <> [].
Proof.
  destruct s as [| c rest]; simpl; [discriminate |].
  destruct (Ascii.eqb c sep); [discriminate |].
  destruct (Js.split sep rest); discriminate.
Qed.

Lemma split_colon_head (s : string) :
  exists tl, Js.split ":" s = beforeColon s :: tl.
Proof.
  induction s as [| c rest [tl IH]]; simpl.
  - now exists [].
  - destruct (Ascii.eqb c ":").
    + now exists (Js.split ":" rest).
    + rewrite IH. now exists tl.
Qed.

Lemma split_key_colon (key rest : string) :
  noColon key = true ->
  Js.split ":" (key ++ String ":" rest) = key :: Js.split ":" rest.
Proof.
  induction key as [| c key IH]; simpl; intros H.
  - reflexivity.
  - apply andb_true_iff in H. destruct H as [Hc Hk].
    apply negb_true_iff in Hc. rewrite Hc, IH by assumption. reflexivity.
Qed.

Lemma beforeColon_noColon (s : string) : noColon (beforeColon s) = true.
Proof.
  induction s as [| c rest IH]; simpl; [reflexivity |].
  destruct (Ascii.eqb c ":") eqn:E; simpl; [reflexivity |].
  now rewrite E, IH.
Qed.

Lemma beforeColon_id (s : string) : beforeColon s = s <-> noColon s = true.
Proof.
  induction s as [| c rest IH]; simpl.
  - tauto.
  - destruct (Ascii.eqb c ":") eqn:E; simpl.
    + split; discriminate.
    + rewrite <- IH. split; [intros H; congruence | intros H; congruence].
Qed.

Lemma beforeColon_split (s : string) :
  noColon s = false -> exists rest, s = beforeColon s ++ String ":" rest.
Proof.
  induction s as [| c s IH]; simpl; [discriminate |].
  destruct (Ascii.eqb c ":") eqn:E; simpl.
  - intros _. apply Ascii.eqb_eq in E. subst c. now exists s.
  - intros H. destruct (IH H) as [rest Hr]. exists rest. now rewrite <- Hr.
Qed.

(** What the destructuring recovers from an id built by
    [`${filterKey}:${filterValue}`] when the key has no [':']. *)
Lemma splitFilterId_filterIdOf (filterKey filterValue : string) :
  noColon filterKey = true ->
  splitFilterId (filterIdOf filterKey filterValue)
  = (filterKey, Some (beforeColon filterValue)).
Proof.
  intros H. unfold splitFilterId, filterIdOf.
  change (":" ++ filterValue) with (String ":" filterValue).
  rewrite split_key_colon by assumption.
  destruct (split_colon_head filterValue) as [tl ->]. reflexivity.
Qed.

Lemma facetKeys_noColon (key : string) : In key facetKeys -> noColon key = true.
Proof.
  unfold facetKeys. simpl.
  intros [<- | [<- | [<- | [<- | [<- | []]]]]]; reflexivity.
Qed.

Lemma facetKeys_not_prototype (key : string) :
  In key facetKeys -> Js.isPrototypeKey key = false.
Proof.
  unfold facetKeys. simpl.
  intros [<- | [<- | [<- | [<- | [<- | []]]]]]; reflexivity.
Qed.

(** C10.  [applyFilters] reads a pair back from a stored id by
    [filterId.split(':')] and its first two parts.  For a key without [':']
    (every facet key of [buildFilterGroups] is one), the pair read back from
    the id [filterKey:filterValue] is the key and the part of the value
    before its first [':'].  That is the pair the id was built from exactly
    when the value has no [':']; a value with a [':'] is cut at it, and the
    cut value is the one the records are matched against. *)
Theorem filterId_split_inverts_iff_no_colon (filterKey filterValue : string) :
  noColon filterKey = true ->
  splitFilterId (filterIdOf filterKey filterValue)
    = (nth 0 (Js.split ":" (filterIdOf filterKey filterValue)) "",
       nth_error (Js.split ":" (filterIdOf filterKey filterValue)) 1) /\
  splitFilterId (filterIdOf filterKey filterValue)
    = (filterKey, Some (beforeColon filterValue)) /\
  (splitFilterId (filterIdOf filterKey filterValue) = (filterKey, Some filterValue)
   <-> noColon filterValue = true) /\
  (noColon filterValue = false ->
   exists pre rest,
     filterValue = pre ++ ":" ++ rest /\ noColon pre = true /\ pre <> filterValue /\
     splitFilterId (filterIdOf filterKey filterValue) = (filterKey, Some pre)) /\
  (forall toLowerCase fm,
     In filterKey facetKeys ->
     selectedFilters fm = [filterIdOf filterKey filterValue] ->
     applyFilters toLowerCase fm ""
     = Some (filter (facetMatch filterKey [Some (beforeColon filterValue)]) (datasets fm))).
Proof.
  intros Hkey.
  pose proof (splitFilterId_filterIdOf filterKey filterValue Hkey) as Hs.
  split; [reflexivity | split; [exact Hs | split; [| split]]].
  - rewrite Hs, <- beforeColon_id. split; [intros H; congruence | intros H; congruence].
  - intros Hc. destruct (beforeColon_split _ Hc) as [rest Hr].
    exists (beforeColon filterValue), rest.
    split; [exact Hr | split; [apply beforeColon_noColon | split; [| exact Hs]]].
    intros Heq. apply beforeColon_id in Heq. congruence.
  - intros toLowerCase fm Hfacet Hsel. unfold applyFilters, collectFilters. rewrite Hsel.
    change (fold_left collectFilter [filterIdOf filterKey filterValue] (Some []))
      with (collectFilter (Some []) (filterIdOf filterKey filterValue)).
    unfold collectFilter. rewrite Hs, (facetKeys_not_prototype _ Hfacet).
    unfold pushFilter.
    apply f_equal. apply filter_ext. intros ds. unfold keepDataset. simpl.
    apply andb_true_r.
Qed.

Lemma filterId_split_inverts_iff_no_colon_witness :
  splitFilterId (filterIdOf "scene" "lab:bench") = ("scene", Some "lab") /\
  splitFilterId (filterIdOf "scene" "kitchen") = ("scene", Some "kitchen").
Proof.
  split.
  - apply (proj1 (proj2 (filterId_split_inverts_iff_no_colon "scene" "lab:bench" eq_refl))).
  - apply (proj1 (proj2 (proj2 (filterId_split_inverts_iff_no_colon "scene" "kitchen"
                                  eq_refl)))).
    reflexivity.
Defined.

(** ** The facet tests of [applyFilters] *)

Lemma includes_In (values : list (option string)) (x : option string) :
  Js.includes values x = true <-> In x values.
Proof.
  unfold Js.includes. rewrite existsb_exists. split.
  - intros [y [Hy Heq]]. destruct x, y; simpl in Heq; try discriminate.
    + apply String.eqb_eq in Heq. now subst.
    + assumption.
  - intros H. exists x. split; [assumption |].
    destruct x; simpl; [apply String.eqb_refl | reflexivity].
Qed.

(** [Object.entries] lists integer-like keys before the others; the
    verdict on a record does not depend on the order of the entries. *)
Lemma keepDataset_entries_order (toLowerCase : string -> string) (searchQuery : string)
    (filters filters' : Filters) (ds : Dataset) :
  Permutation filters filters' ->
  keepDataset toLowerCase searchQuery filters ds
  = keepDataset toLowerCase searchQuery filters' ds.
Proof.
  intros Hperm. unfold keepDataset.
  destruct (Js.truthy searchQuery && _); [reflexivity |].
  induction Hperm as [| x l l' _ IH | x y l | l l' l'' _ IH1 _ IH2]; simpl.
  - reflexivity.
  - now rewrite IH.
  - now rewrite !andb_assoc, (andb_comm (facetMatch (fst y) (snd y) ds)).
  - now rewrite IH1.
Qed.

(** The [object] branch of the facet test, on the array of values it is
    handed: a record passes exactly when some segment, at any depth, of the
    hierarchy path of one of its objects is among them.  So the record
    with the path [tools > drill] is kept after [object:tools] is toggled
    on, and likewise after [object:drill] is. *)
Lemma object_facet_matches_any_segment (ds : Dataset) (values : list (option string))
    (toLowerCase : string -> string) :
  (facetMatch "object" values ds = true <->
   exists objs obj h,
     objects ds = Some objs /\ In obj objs /\ In h (hierarchy obj) /\ In (Some h) values) /\
  applyFilters toLowerCase
    (this (fst (toggleFilterSelection "object" "tools" (initialWorld [drillRecord])))) ""
    = Some [drillRecord] /\
  applyFilters toLowerCase
    (this (fst (toggleFilterSelection "object" "drill" (initialWorld [drillRecord])))) ""
    = Some [drillRecord] /\
  applyFilters toLowerCase
    (this (fst (toggleFilterSelection "object" "saw" (initialWorld [drillRecord])))) ""
    = Some [].
Proof.
  split; [| repeat split].
  unfold facetMatch. simpl. destruct (objects ds) as [objs |].
  - rewrite existsb_exists. split.
    + intros [obj [Hobj Hex]]. apply existsb_exists in Hex. destruct Hex as [h [Hh Hin]].
      apply includes_In in Hin. now exists objs, obj, h.
    + intros [objs' [obj [h [Heq [Hobj [Hh Hin]]]]]]. injection Heq as <-.
      exists obj. split; [assumption |]. apply existsb_exists. exists h.
      split; [assumption | now apply includes_In].
  - split; [discriminate |]. intros [objs [obj [h [Heq _]]]]. discriminate.
Qed.

(** C1, at a value holding a [':'].  After [scene] / [lab:bench] is
    toggled on, the record tagged [lab:bench], which [calculateAffectedCount]
    counts for that value, is rejected, and the record tagged [lab], which
    it does not count, is admitted. *)
Theorem applyFilters_cuts_colon_value (toLowerCase : string -> string) :
  let w := fst (toggleFilterSelection "scene" "lab:bench"
                  (initialWorld [benchRecord; labRecord])) in
  selectedFilters (this w) = ["scene:lab:bench"] /\
  affectedMatch "scene" "lab:bench" benchRecord = true /\
  affectedMatch "scene" "lab:bench" labRecord = false /\
  calculateAffectedCount (this w) "scene" "lab:bench" = 1 /\
  applyFilters toLowerCase (this w) "" = Some [labRecord].
Proof. repeat split. Qed.

(** ** [applyFilters] on selections of plain ids *)

Lemma ownGet_pushFilter (key k : string) (value : option string) (fs : Filters) :
  Js.ownGet k (pushFilter key value fs)
  = if String.eqb key k
    then Some (match Js.ownGet key fs with
               | Some vs => (vs ++ [value])%list
               | None => [value]
               end)
    else Js.ownGet k fs.
Proof.
  induction fs as [| [k' vs] fs IH]; simpl.
  - destruct (String.eqb key k); reflexivity.
  - destruct (String.eqb_spec k' key) as [-> | Hne]; simpl.
    + destruct (String.eqb key k); reflexivity.
    + rewrite IH. destruct (String.eqb_spec key k) as [<- | Hne'].
      * destruct (String.eqb_spec k' key); [contradiction | reflexivity].
      * reflexivity.
Qed.

Lemma keys_pushFilter (key : string) (value : option string) (fs : Filters) :
  map fst (pushFilter key value fs)
  = match Js.ownGet key fs with
    | Some _ => map fst fs
    | None => (map fst fs ++ [key])%list
    end.
Proof.
  induction fs as [| [k' vs] fs IH]; simpl; [reflexivity |].
  destruct (String.eqb_spec k' key) as [-> | Hne]; simpl; [reflexivity |].
  rewrite IH. destruct (Js.ownGet key fs); reflexivity.
Qed.

Lemma ownGet_None_keys (k : string) (fs : Filters) :
  Js.ownGet k fs = None -> ~ In k (map fst fs).
Proof.
  induction fs as [| [k' vs] fs IH]; simpl; [tauto |].
  destruct (String.eqb_spec k' k); [discriminate |].
  intros H [Heq | Hin]; [contradiction | now apply IH].
Qed.

Lemma NoDup_pushFilter (key : string) (value : option string) (fs : Filters) :
  NoDup (map fst fs) -> NoDup (map fst (pushFilter key value fs)).
Proof.
  intros H. rewrite keys_pushFilter. destruct (Js.ownGet key fs) eqn:E; [assumption |].
  apply NoDup_app; [assumption | repeat constructor; simpl; tauto |].
  intros x Hx [<- | []]. now apply (ownGet_None_keys _ _ E).
Qed.

Lemma In_ownGet (k : string) (vs : list (option string)) (fs : Filters) :
  NoDup (map fst fs) -> (In (k, vs) fs <-> Js.ownGet k fs = Some vs).
Proof.
  induction fs as [| [k' vs'] fs IH]; simpl; intros Hnd.
  - split; [tauto | discriminate].
  - inversion Hnd as [| ? ? Hnotin Hnd']; subst.
    destruct (String.eqb_spec k' k) as [-> | Hne].
    + split.
      * intros [Heq | Hin]; [congruence |].
        exfalso. apply Hnotin. now apply (in_map fst) in Hin.
      * intros Heq. left. congruence.
    + rewrite <- (IH Hnd'). split; [intros [Heq | Hin]; [congruence | assumption] | tauto].
Qed.

Lemma pushAll_spec (pairs : list (string * option string)) :
  forall fs,
    NoDup (map fst fs) ->
    NoDup (map fst (pushAll pairs fs)) /\
    forall k,
      Js.ownGet k (pushAll pairs fs)
      = match Js.ownGet k fs, valuesFor k pairs with
        | None, [] => None
        | None, vs => Some vs
        | Some vs0, vs => Some (vs0 ++ vs)%list
        end.
Proof.
  induction pairs as [| [key value] pairs IH]; intros fs Hnd; simpl.
  - split; [assumption |]. intros k. unfold valuesFor. simpl.
    destruct (Js.ownGet k fs); [now rewrite app_nil_r | reflexivity].
  - destruct (IH (pushFilter key value fs) (NoDup_pushFilter key value fs Hnd)) as [Hnd' Hget].
    split; [exact Hnd' |]. intros k. unfold pushAll in Hget. rewrite Hget.
    rewrite ownGet_pushFilter. unfold valuesFor. simpl.
    destruct (String.eqb_spec key k) as [<- | Hne]; simpl.
    + destruct (Js.ownGet key fs); [now rewrite <- app_assoc | reflexivity].
    + reflexivity.
Qed.

Lemma collectFilters_pushAll (sel : StrSet.t) :
  (forall id, In id sel -> Js.isPrototypeKey (fst (splitFilterId id)) = false) ->
  collectFilters sel = Some (pushAll (map splitFilterId sel) []).
Proof.
  unfold collectFilters, pushAll. generalize (@nil (string * list (option string))).
  induction sel as [| id sel IH]; intros fs H; [reflexivity |].
  cbn [fold_left map].
  pose proof (H id (or_introl eq_refl)) as Hk.
  unfold collectFilter at 2.
  destruct (splitFilterId id) as [key value] eqn:E. simpl in Hk.
  rewrite Hk. apply IH. intros id' Hin. apply H. now right.
Qed.

(** With no [undefined] among the selected values, the facet test of
    [applyFilters] is the test of [calculateAffectedCount] at one of them. *)
Lemma facetMatch_affectedMatch (key : string) (values : list (option string)) (ds : Dataset) :
  ~ In None values ->
  (facetMatch key values ds = true <->
   exists v, In (Some v) values /\ affectedMatch key v ds = true).
Proof.
  intros Hnone. unfold facetMatch, affectedMatch.
  destruct (String.eqb key "scene").
  { destruct (scenes ds) as [ss |].
    - rewrite existsb_exists. split.
      + intros [v [Hv Hin]]. apply includes_In in Hin. exists v.
        split; [assumption | now apply strArrIncludes_In].
      + intros [v [Hin Hv]]. apply strArrIncludes_In in Hv. exists v.
        split; [assumption | now apply includes_In].
    - split; [discriminate | intros [v [_ H]]; discriminate]. }
  destruct (String.eqb key "robot").
  { rewrite existsb_exists. split.
    - intros [r [Hr Hin]]. apply includes_In in Hin. destruct r as [r |]; [| contradiction].
      exists r. split; [assumption | now apply includes_In].
    - intros [v [Hin Hv]]. apply includes_In in Hv. exists (Some v).
      split; [assumption | now apply includes_In]. }
  destruct (String.eqb key "end").
  { rewrite includes_In. destruct (endEffector ds) as [e |]; simpl.
    - split.
      + intros Hin. exists e. split; [assumption | apply String.eqb_refl].
      + intros [v [Hin Hv]]. apply String.eqb_eq in Hv. now subst.
    - split; [contradiction | intros [v [_ H]]; discriminate]. }
  destruct (String.eqb key "action").
  { destruct (actions ds) as [acts |].
    - rewrite existsb_exists. split.
      + intros [v [Hv Hin]]. apply includes_In in Hin. exists v.
        split; [assumption | now apply strArrIncludes_In].
      + intros [v [Hin Hv]]. apply strArrIncludes_In in Hv. exists v.
        split; [assumption | now apply includes_In].
    - split; [discriminate | intros [v [_ H]]; discriminate]. }
  destruct (String.eqb key "object").
  { destruct (objects ds) as [objs |].
    - rewrite existsb_exists. split.
      + intros [obj [Hobj Hex]]. apply existsb_exists in Hex. destruct Hex as [h [Hh Hin]].
        apply includes_In in Hin. exists h. split; [assumption |].
        apply existsb_exists. exists obj. split; [assumption | now apply strArrIncludes_In].
      + intros [v [Hin Hex]]. apply existsb_exists in Hex. destruct Hex as [obj [Hobj Hv]].
        apply strArrIncludes_In in Hv. exists obj. split; [assumption |].
        apply existsb_exists. exists v. split; [assumption | now apply includes_In].
    - split; [discriminate | intros [v [_ H]]; discriminate]. }
  split; [discriminate | intros [v [_ H]]; discriminate].
Qed.

Lemma append_inj_l (k s s' : string) : k ++ s = k ++ s' -> s = s'.
Proof.
  induction k as [| c k IH]; simpl; intros H; [assumption |].
  apply IH. congruence.
Qed.

Lemma filterIdOf_inj (k k' v v' : string) :
  noColon k = true -> noColon k' = true ->
  filterIdOf k v = filterIdOf k' v' -> k = k' /\ v = v'.
Proof.
  intros Hk Hk' Heq.
  pose proof (splitFilterId_filterIdOf k v Hk) as H1.
  pose proof (splitFilterId_filterIdOf k' v' Hk') as H2.
  rewrite Heq, H2 in H1. injection H1 as Hkk _. subst k'.
  split; [reflexivity |]. unfold filterIdOf in Heq.
  apply append_inj_l in Heq. simpl in Heq. congruence.
Qed.

Lemma In_valuesFor (k : string) (x : option string) (pairs : list (string * option string)) :
  In x (valuesFor k pairs) <-> In (k, x) pairs.
Proof.
  unfold valuesFor. rewrite in_map_iff. split.
  - intros [[k' x'] [Hx Hin]]. apply filter_In in Hin. destruct Hin as [Hin Hk].
    simpl in *. apply String.eqb_eq in Hk. now subst.
  - intros Hin. exists (k, x). split; [reflexivity |].
    apply filter_In. split; [assumption | apply String.eqb_refl].
Qed.

Lemma plain_pair_In (sel : StrSet.t) (k : string) (x : option string) :
  Forall plainId sel ->
  In (k, x) (map splitFilterId sel) ->
  exists v, x = Some v /\ In k facetKeys /\ In (filterIdOf k v) sel.
Proof.
  intros Hplain Hin. apply in_map_iff in Hin. destruct Hin as [id [Hsplit Hid]].
  rewrite Forall_forall in Hplain. destruct (Hplain id Hid) as [k' [v' [-> [Hk' Hv']]]].
  rewrite (splitFilterId_filterIdOf k' v' (facetKeys_noColon _ Hk')) in Hsplit.
  apply beforeColon_id in Hv'. rewrite Hv' in Hsplit.
  injection Hsplit as <- <-. now exists v'.
Qed.

Lemma plain_In_pair (sel : StrSet.t) (k v : string) :
  Forall plainId sel -> In k facetKeys ->
  In (filterIdOf k v) sel -> In (k, Some v) (map splitFilterId sel).
Proof.
  intros Hplain Hk Hin. apply in_map_iff. exists (filterIdOf k v). split; [| assumption].
  rewrite Forall_forall in Hplain. destruct (Hplain _ Hin) as [k' [v' [Heq [Hk' Hv']]]].
  apply filterIdOf_inj in Heq; try now apply facetKeys_noColon.
  destruct Heq as [-> ->].
  rewrite (splitFilterId_filterIdOf k' v' (facetKeys_noColon _ Hk')).
  apply beforeColon_id in Hv'. now rewrite Hv'.
Qed.

(** The facet rule on the selections it holds for: every selected id is
    built from a facet key and a value without [':'].  [applyFilters] then
    keeps, in the original order, the records that contain the query in
    their name and that, for every facet key with a selected value, match
    one of that key's selected values. *)
Lemma applyFilters_plain_selection (toLowerCase : string -> string)
    (fm : FilterManager) (searchQuery : string) :
  Forall plainId (selectedFilters fm) ->
  exists filters,
    applyFilters toLowerCase fm searchQuery
    = Some (filter (keepDataset toLowerCase searchQuery filters) (datasets fm)) /\
    forall ds,
      keepDataset toLowerCase searchQuery filters ds = true <->
      (searchQuery = ""
       \/ Js.strIncludes (toLowerCase (name ds)) (toLowerCase searchQuery) = true) /\
      forall key,
        In key facetKeys ->
        (exists v, In (filterIdOf key v) (selectedFilters fm)) ->
        exists v, In (filterIdOf key v) (selectedFilters fm)
                  /\ affectedMatch key v ds = true.
Proof.
  intros Hplain. set (sel := selectedFilters fm) in *.
  set (pairs := map splitFilterId sel).
  assert (Hcollect : collectFilters sel = Some (pushAll pairs [])).
  { apply collectFilters_pushAll. intros id Hid.
    destruct (splitFilterId id) as [k x] eqn:E.
    assert (Hin : In (k, x) (map splitFilterId sel))
      by (apply in_map_iff; now exists id).
    destruct (plain_pair_In sel k x Hplain Hin) as [v [_ [Hk _]]].
    now apply facetKeys_not_prototype. }
  destruct (pushAll_spec pairs [] (NoDup_nil _)) as [Hnd Hget].
  exists (pushAll pairs []). split.
  { unfold applyFilters. fold sel. now rewrite Hcollect. }
  assert (Hnone : forall k, ~ In None (valuesFor k pairs)).
  { intros k Hin. apply In_valuesFor in Hin.
    destruct (plain_pair_In sel k None Hplain Hin) as [v [Hv _]]. discriminate. }
  assert (Hentry : forall k vs,
             In (k, vs) (pushAll pairs []) <-> vs <> [] /\ vs = valuesFor k pairs).
  { intros k vs. rewrite (In_ownGet k vs _ Hnd), Hget. simpl.
    destruct (valuesFor k pairs) as [| x xs].
    - split; [discriminate | intros [H1 H2]; congruence].
    - split; [intros H; injection H as <-; split; [discriminate | reflexivity]
             | intros [_ ->]; reflexivity]. }
  intros ds. unfold keepDataset.
  assert (Htext : (Js.truthy searchQuery
                   && negb (Js.strIncludes (toLowerCase (name ds)) (toLowerCase searchQuery))
                   = false)
                  <-> (searchQuery = ""
                       \/ Js.strIncludes (toLowerCase (name ds)) (toLowerCase searchQuery)
                          = true)).
  { destruct searchQuery; simpl.
    - split; [now left | reflexivity].
    - rewrite negb_false_iff. split; [now right | intros [H | H]; [discriminate | exact H]]. }
  destruct (Js.truthy searchQuery
            && negb (Js.strIncludes (toLowerCase (name ds)) (toLowerCase searchQuery))).
  { split; [discriminate |]. intros [H _]. apply Htext in H. discriminate. }
  rewrite forallb_forall. split.
  - intros Hall. split; [now apply Htext |].
    intros key Hkey [v Hv].
    pose proof (plain_In_pair sel key v Hplain Hkey Hv) as Hpair.
    apply (proj2 (In_valuesFor key (Some v) pairs)) in Hpair.
    assert (Hin : In (key, valuesFor key pairs) (pushAll pairs [])).
    { apply Hentry. split; [| reflexivity]. intros E. rewrite E in Hpair. contradiction. }
    specialize (Hall _ Hin). simpl in Hall.
    apply (facetMatch_affectedMatch key _ ds (Hnone key)) in Hall.
    destruct Hall as [v1 [Hv1 Hm]]. apply In_valuesFor in Hv1.
    destruct (plain_pair_In sel key (Some v1) Hplain Hv1) as [v2 [Heq [_ Hsel]]].
    injection Heq as <-. now exists v1.
  - intros [_ Hall] [k vs] Hin. simpl. apply Hentry in Hin. destruct Hin as [Hne ->].
    apply (facetMatch_affectedMatch k _ ds (Hnone k)).
    destruct (valuesFor k pairs) as [| x xs] eqn:E; [contradiction |].
    assert (Hx : In (k, x) pairs) by (apply In_valuesFor; rewrite E; now left).
    destruct (plain_pair_In sel k x Hplain Hx) as [v [-> [Hk Hsel]]].
    destruct (Hall k Hk (ex_intro _ v Hsel)) as [v1 [Hsel1 Hm]].
    exists v1. split; [| assumption].
    rewrite <- E. apply In_valuesFor. now apply plain_In_pair.
Qed.

(** The spec's sample: with A (scene=kitchen, robot=arm1) and B
    (scene=kitchen, robot=arm2), [scene:kitchen] with [robot:arm1] keeps A
    alone and [scene:kitchen] alone keeps both. *)
Lemma applyFilters_kitchen_arm1 (toLowerCase : string -> string) :
  let w0 := initialWorld [recordA; recordB] in
  let w1 := fst (toggleFilterSelection "scene" "kitchen" w0) in
  let w2 := fst (toggleFilterSelection "robot" "arm1" w1) in
  applyFilters toLowerCase (this w0) "" = Some [recordA; recordB] /\
  applyFilters toLowerCase (this w1) "" = Some [recordA; recordB] /\
  applyFilters toLowerCase (this w2) "" = Some [recordA].
Proof. repeat split. Qed.

(** ** The [object] facet under a selection *)

Lemma facetMatch_single (k v : string) (ds : Dataset) :
  facetMatch k [Some v] ds = affectedMatch k v ds.
Proof.
  apply eq_true_iff_eq. rewrite facetMatch_affectedMatch.
  - split.
    + intros [v' [[Heq | []] Hm]]. now injection Heq as <-.
    + intros Hm. exists v. split; [now left | assumption].
  - intros [H | []]. discriminate.
Qed.

Lemma affectedMatch_object_segment (v : string) (ds : Dataset) :
  affectedMatch "object" v ds = true <->
  exists objs obj, objects ds = Some objs /\ In obj objs /\ In v (hierarchy obj).
Proof.
  unfold affectedMatch. simpl. destruct (objects ds) as [objs |].
  - rewrite existsb_exists. split.
    + intros [obj [Hobj Hin]]. apply strArrIncludes_In in Hin. now exists objs, obj.
    + intros [objs' [obj [Heq [Hobj Hin]]]]. injection Heq as <-.
      exists obj. split; [assumption | now apply strArrIncludes_In].
  - split; [discriminate |]. intros [objs [obj [Heq _]]]. discriminate.
Qed.

(** C4, end to end.  After [object] / [v] is toggled on over an empty
    selection, [applyFilters('')] keeps exactly the records one of whose
    hierarchy segments, at any depth, equals the part of [v] before its
    first [':']: for a value without [':'] that is the claim (the record
    with the path [tools > drill] is kept for [tools] and for [drill]), for
    a value holding one it is not.  After [object] / [lab:bench] is toggled
    on, the record whose segment is [lab:bench], which
    [calculateAffectedCount] counts for that value, is rejected, and the
    record whose segment is [lab] is admitted. *)
Theorem object_selection_matches_cut_value (toLowerCase : string -> string)
    (w : World) (v : string) :
  selectedFilters (this w) = [] ->
  let w' := fst (toggleFilterSelection "object" v w) in
  selectedFilters (this w') = [filterIdOf "object" v] /\
  (exists kept,
     applyFilters toLowerCase (this w') "" = Some kept /\
     forall ds,
       In ds kept <->
       In ds (datasets (this w)) /\
       exists objs obj,
         objects ds = Some objs /\ In obj objs /\ In (beforeColon v) (hierarchy obj)) /\
  (noColon v = true -> beforeColon v = v) /\
  (let bug := fst (toggleFilterSelection "object" "lab:bench"
                     (initialWorld [objectRecord ["lab:bench"]; objectRecord ["lab"]])) in
   selectedFilters (this bug) = ["object:lab:bench"] /\
   calculateAffectedCount (this bug) "object" "lab:bench" = 1 /\
   affectedMatch "object" "lab:bench" (objectRecord ["lab:bench"]) = true /\
   affectedMatch "object" "lab:bench" (objectRecord ["lab"]) = false /\
   applyFilters toLowerCase (this bug) "" = Some [objectRecord ["lab"]]).
Proof.
  intros Hsel w'.
  assert (Hsel' : selectedFilters (this w') = [filterIdOf "object" v]).
  { subst w'. unfold toggleFilterSelection. cbn [fst].
    rewrite selected_scheduleFilterUpdate. cbn. now rewrite Hsel. }
  split; [exact Hsel' | split; [| split; [apply beforeColon_id | repeat split]]].
  exists (filter (affectedMatch "object" (beforeColon v)) (datasets (this w))).
  split.
  - unfold applyFilters, collectFilters. rewrite Hsel'.
    change (fold_left collectFilter [filterIdOf "object" v] (Some []))
      with (collectFilter (Some []) (filterIdOf "object" v)).
    unfold collectFilter. rewrite (splitFilterId_filterIdOf "object" v eq_refl).
    change (Js.isPrototypeKey "object") with false. cbv iota. unfold pushFilter.
    apply f_equal.
    replace (datasets (this w')) with (datasets (this w))
      by (subst w'; unfold toggleFilterSelection; cbn [fst];
          now rewrite datasets_scheduleFilterUpdate).
    apply filter_ext. intros ds. unfold keepDataset. simpl.
    rewrite andb_true_r. apply facetMatch_single.
  - intros ds. rewrite filter_In, affectedMatch_object_segment. reflexivity.
Qed.

Lemma object_selection_matches_cut_value_witness :
  exists kept,
    applyFilters (fun s => s)
      (this (fst (toggleFilterSelection "object" "tools" (initialWorld [drillRecord])))) ""
    = Some kept /\
    In drillRecord kept.
Proof.
  destruct (object_selection_matches_cut_value (fun s => s) (initialWorld [drillRecord])
              "tools" eq_refl) as [_ [[kept [Hkept Hin]] _]].
  exists kept. split; [exact Hkept |].
  apply Hin. split; [left; reflexivity |].
  exists [ {| hierarchy := ["tools"; "drill"] |} ], {| hierarchy := ["tools"; "drill"] |}.
  split; [reflexivity | split; [left; reflexivity | left; reflexivity]].
Defined.

(** ** The hierarchy builder *)

Lemma mapGet_In (k : string) (n : HierarchyNode) (m : HierarchyMap) :
  mapGet k m = Some n -> In (k, n) m.
Proof.
  induction m as [| [k' n'] m IH]; simpl; [discriminate |].
  destruct (String.eqb_spec k' k) as [-> | Hne].
  - intros H. injection H as <-. now left.
  - intros H. right. now apply IH.
Qed.

Lemma mapGet_app_absent (k : string) (n : HierarchyNode) (m : HierarchyMap) :
  mapGet k m = None -> mapGet k (m ++ [(k, n)])%list = Some n.
Proof.
  induction m as [| [k' n'] m IH]; simpl.
  - now rewrite String.eqb_refl.
  - destruct (String.eqb k' k); [discriminate | assumption].
Qed.

Lemma mapGet_mapReplace (k : string) (n n0 : HierarchyNode) (m : HierarchyMap) :
  mapGet k m = Some n0 -> mapGet k (mapReplace k n m) = Some n.
Proof.
  induction m as [| [k' n'] m IH]; simpl; [discriminate |].
  destruct (String.eqb k' k) eqn:E; simpl; rewrite E; [reflexivity | assumption].
Qed.

Lemma mapLeafOk_mapGet (k : string) (n : HierarchyNode) (m : HierarchyMap) :
  mapLeafOk m = true -> mapGet k m = Some n -> leafOk n = true.
Proof.
  intros Hm Hget. apply mapGet_In in Hget.
  unfold mapLeafOk in Hm. rewrite forallb_forall in Hm. exact (Hm _ Hget).
Qed.

Lemma mapLeafOk_mapReplace (k : string) (n : HierarchyNode) (m : HierarchyMap) :
  mapLeafOk m = true -> leafOk n = true -> mapLeafOk (mapReplace k n m) = true.
Proof.
  unfold mapLeafOk. induction m as [| [k' n'] m IH]; simpl; intros Hm Hn; [reflexivity |].
  apply andb_true_iff in Hm. destruct Hm as [Hn' Hm].
  destruct (String.eqb k' k); simpl.
  - now rewrite Hn, Hm.
  - now rewrite Hn', IH.
Qed.

Lemma addToHierarchy_nonempty (levels : list string) (m : HierarchyMap) :
  isEmpty (addToHierarchy m levels) = true -> isEmpty m = true /\ levels = [].
Proof.
  destruct levels as [| level rest]; simpl; [tauto |].
  destruct (mapGet level m) as [node |] eqn:E.
  - destruct m as [| [k n] m]; simpl in *; [discriminate |].
    destruct (String.eqb k level); discriminate.
  - destruct m; simpl; discriminate.
Qed.

Lemma leafOk_unfold (ch : HierarchyMap) (leaf : bool) :
  leafOk (mkNode ch leaf) = (negb (isEmpty ch) || leaf) && mapLeafOk ch.
Proof. reflexivity. Qed.

Lemma addToHierarchy_leafOk (levels : list string) :
  forall m, mapLeafOk m = true -> mapLeafOk (addToHierarchy m levels) = true.
Proof.
  induction levels as [| level rest IH]; intros m Hm; simpl; [assumption |].
  destruct (mapGet level m) as [node |] eqn:E.
  - apply mapLeafOk_mapReplace; [assumption |].
    pose proof (mapLeafOk_mapGet _ _ _ Hm E) as Hnode.
    destruct node as [ch leaf]. rewrite leafOk_unfold in *. simpl.
    apply andb_true_iff in Hnode. destruct Hnode as [Hflag Hch].
    rewrite (IH ch Hch), andb_true_r.
    destruct leaf; [apply orb_true_r |]. rewrite orb_false_r in *.
    apply negb_true_iff. apply negb_true_iff in Hflag.
    destruct (isEmpty (addToHierarchy ch rest)) eqn:E2; [| reflexivity].
    apply addToHierarchy_nonempty in E2. destruct E2 as [E2 _]. congruence.
  - unfold mapLeafOk. rewrite forallb_app. fold (mapLeafOk m). rewrite Hm. simpl.
    rewrite andb_true_r. fold (mapLeafOk (addToHierarchy [] rest)).
    rewrite (IH [] eq_refl), andb_true_r.
    destruct rest as [| l rest]; [reflexivity |].
    destruct (isEmpty (addToHierarchy [] (l :: rest))) eqn:E2; [| reflexivity].
    apply addToHierarchy_nonempty in E2. destruct E2 as [_ E2]. discriminate.
Qed.

Lemma collectGroups_leafOk (ds : list Dataset) :
  mapLeafOk (gObject (collectGroups ds)) = true.
Proof.
  unfold collectGroups.
  assert (H : forall g, mapLeafOk (gObject g) = true ->
                        mapLeafOk (gObject (fold_left collectDataset ds g)) = true).
  { induction ds as [| d ds IH]; intros g Hg; simpl; [assumption |].
    apply IH. unfold collectDataset. simpl.
    destruct (objects d) as [objs |]; [| assumption].
    revert Hg. generalize (gObject g).
    induction objs as [| obj objs IHo]; intros m Hm; simpl; [assumption |].
    apply IHo. now apply addToHierarchy_leafOk. }
  apply H. reflexivity.
Qed.

(** The bodies of the three traversals, written as the source has them:
    the entry itself, then the same traversal over its children. *)
Lemma selectAllInNode_eq (groupKey parentPath value : string)
    (ch : HierarchyMap) (leaf : bool) (sel : StrSet.t) :
  selectAllInNode groupKey parentPath value (mkNode ch leaf) sel
  = selectAllInHierarchy groupKey ch (fullPathOf parentPath value)
      (if leaf then selectId (filterIdOf groupKey value) sel else sel).
Proof.
  simpl. generalize (if leaf then selectId (filterIdOf groupKey value) sel else sel).
  unfold selectAllInHierarchy. destruct ch as [| [v n] ch]; [reflexivity |]. intros acc. simpl.
  match goal with
  | |- context [?f groupKey ?pp v n acc] => generalize (f groupKey pp v n acc)
  end.
  induction ch as [| [v' n'] ch IH]; intros acc'; [reflexivity |].
  simpl. apply IH.
Qed.

Lemma selectLeafNode_eq (groupKey parentPath value : string)
    (ch : HierarchyMap) (leaf : bool) (sel : StrSet.t) :
  selectLeafNode groupKey parentPath value (mkNode ch leaf) sel
  = selectLeafNodesRecursive groupKey ch (fullPathOf parentPath value)
      (if leaf || isEmpty ch then selectId (filterIdOf groupKey value) sel else sel).
Proof.
  simpl.
  generalize (if leaf || isEmpty ch then selectId (filterIdOf groupKey value) sel else sel).
  unfold selectLeafNodesRecursive. destruct ch as [| [v n] ch]; [reflexivity |]. intros acc. simpl.
  match goal with
  | |- context [?f groupKey ?pp v n acc] => generalize (f groupKey pp v n acc)
  end.
  induction ch as [| [v' n'] ch IH]; intros acc'; [reflexivity |].
  simpl. apply IH.
Qed.

Lemma clearLeafNode_eq (groupKey parentPath value : string)
    (ch : HierarchyMap) (leaf : bool) (sel : StrSet.t) :
  clearLeafNode groupKey parentPath value (mkNode ch leaf) sel
  = clearLeafNodesRecursive groupKey ch (fullPathOf parentPath value)
      (if leaf || isEmpty ch then clearId (filterIdOf groupKey value) sel else sel).
Proof.
  simpl.
  generalize (if leaf || isEmpty ch then clearId (filterIdOf groupKey value) sel else sel).
  unfold clearLeafNodesRecursive. destruct ch as [| [v n] ch]; [reflexivity |]. intros acc. simpl.
  match goal with
  | |- context [?f groupKey ?pp v n acc] => generalize (f groupKey pp v n acc)
  end.
  induction ch as [| [v' n'] ch IH]; intros acc'; [reflexivity |].
  simpl. apply IH.
Qed.

Lemma leafOk_leafTest (n : HierarchyNode) :
  leafOk n = true -> leafTest n = isLeaf n.
Proof.
  destruct n as [ch leaf]. rewrite leafOk_unfold. unfold leafTest. simpl.
  destruct leaf, ch; simpl; intros H; try reflexivity; discriminate.
Qed.

Lemma leafOk_descendant (m : HierarchyMap) (v : string) (n : HierarchyNode) :
  descendant m v n -> mapLeafOk m = true -> leafOk n = true.
Proof.
  induction 1 as [m v n Hin | m v' n' v n Hin Hdesc IH]; intros Hm;
    unfold mapLeafOk in Hm; rewrite forallb_forall in Hm.
  - exact (Hm _ Hin).
  - apply IH. specialize (Hm _ Hin). simpl in Hm. destruct n' as [ch leaf].
    rewrite leafOk_unfold in Hm. apply andb_true_iff in Hm. apply Hm.
Qed.

Lemma selectLeafNode_selectAllInNode (n : HierarchyNode) :
  leafOk n = true ->
  forall groupKey parentPath value sel,
    selectLeafNode groupKey parentPath value n sel
    = selectAllInNode groupKey parentPath value n sel.
Proof.
  induction n as [ch leaf IH] using HierarchyNode_forall_ind.
  intros Hok groupKey parentPath value sel.
  rewrite selectLeafNode_eq, selectAllInNode_eq.
  pose proof (leafOk_leafTest _ Hok) as Htest. unfold leafTest in Htest. simpl in Htest.
  rewrite Htest. clear Htest. rewrite leafOk_unfold in Hok. apply andb_true_iff in Hok.
  destruct Hok as [_ Hch].
  generalize (if leaf then selectId (filterIdOf groupKey value) sel else sel).
  generalize (fullPathOf parentPath value).
  unfold selectLeafNodesRecursive, selectAllInHierarchy. unfold mapLeafOk in Hch.
  induction ch as [| [v n] ch IHch]; intros pp acc; [reflexivity |].
  simpl in Hch. apply andb_true_iff in Hch. destruct Hch as [Hn Hch].
  inversion IH as [| ? ? IHn IHrest]; subst. cbn [fold_left fst snd].
  simpl in IHn. rewrite (IHn Hn). now apply IHch.
Qed.

(** C9.  In the tree that [buildFilterGroups] builds with [addToHierarchy]
    from any record collection, every node without children is flagged
    [isLeaf], at every depth; on that tree the test
    [node.isLeaf || node.children.size === 0] agrees with [node.isLeaf] at
    every node, and [selectLeafNodesRecursive] selects exactly what
    [selectAllInHierarchy] selects. *)
Theorem built_tree_childless_nodes_are_leaves (ds : list Dataset) :
  let tree := gObject (collectGroups ds) in
  filterGroups (buildFilterGroups (constructor ds))
    = groupsObject (collectGroups ds) /\
  mapLeafOk tree = true /\
  (forall v n, descendant tree v n ->
     (children n = [] -> isLeaf n = true) /\ leafTest n = isLeaf n) /\
  (forall groupKey parentPath sel,
     selectLeafNodesRecursive groupKey tree parentPath sel
     = selectAllInHierarchy groupKey tree parentPath sel).
Proof.
  intros tree. pose proof (collectGroups_leafOk ds) as Hok. fold tree in Hok.
  split; [reflexivity | split; [exact Hok | split]].
  - intros v n Hdesc. pose proof (leafOk_descendant _ _ _ Hdesc Hok) as Hn.
    pose proof (leafOk_leafTest _ Hn) as Ht. split; [| exact Ht].
    intros Hch. unfold leafTest in Ht. rewrite Hch in Ht. simpl in Ht.
    rewrite orb_true_r in Ht. now symmetry.
  - intros groupKey parentPath sel.
    unfold selectLeafNodesRecursive, selectAllInHierarchy. revert sel.
    unfold mapLeafOk in Hok. induction tree as [| [v n] m IH]; intros sel; [reflexivity |].
    simpl in Hok. apply andb_true_iff in Hok. destruct Hok as [Hn Hm].
    cbn [fold_left fst snd]. rewrite (selectLeafNode_selectAllInNode n Hn). now apply IH.
Qed.

(** C2, at a longer path processed first.  After the paths [a > b] and
    then [a], the node [a], where the second record's path ends, is not
    flagged [isLeaf] (and [selectAllInGroup] leaves [object:a] out); in the
    other order it is. *)
Theorem existing_node_is_not_marked_leaf :
  let tree := gObject (collectGroups longThenShort) in
  let tree' := gObject (collectGroups shortThenLong) in
  tree = [("a", mkNode [("b", mkNode [] true)] false)] /\
  option_map isLeaf (walkPath tree ["a"]) = Some false /\
  selectedFilters (this (selectAllInGroup "object" (initialWorld longThenShort)))
    = ["object:b"] /\
  tree' = [("a", mkNode [("b", mkNode [] true)] true)] /\
  option_map isLeaf (walkPath tree' ["a"]) = Some true.
Proof. repeat split. Qed.

(** What [addToHierarchy] does to the node where the path ends: the node
    exists afterwards, flagged [isLeaf] when the call created it, and with
    the flag it already had when it existed. *)
Lemma addToHierarchy_final_node (levels : list string) :
  forall m,
    levels <> [] ->
    exists n,
      walkPath (addToHierarchy m levels) levels = Some n /\
      isLeaf n = match walkPath m levels with
                 | Some n0 => isLeaf n0
                 | None => true
                 end.
Proof.
  induction levels as [| level rest IH]; intros m Hne; [contradiction |].
  simpl. destruct (mapGet level m) as [node |] eqn:E.
  - rewrite (mapGet_mapReplace level _ node m E). destruct rest as [| l rest].
    + eexists. split; reflexivity.
    + cbn [children]. apply IH. discriminate.
  - rewrite (mapGet_app_absent level _ m E). destruct rest as [| l rest].
    + eexists. split; reflexivity.
    + cbn [children]. destruct (IH [] ltac:(discriminate)) as [n [Hw Hl]].
      exists n. split; [exact Hw |]. rewrite Hl. reflexivity.
Qed.

(** ** Resolving a path *)

Lemma indexOf_lower (x : string) (arr : list string) : (-1 <= Js.indexOf x arr)%Z.
Proof.
  induction arr as [| y arr IH]; simpl; [lia |].
  destruct (String.eqb y x); [lia |].
  destruct (Js.indexOf x arr <? 0)%Z eqn:E; [lia |]. apply Z.ltb_ge in E. lia.
Qed.

Lemma indexOf_app_le (x : string) (pre rest : list string) :
  (0 <= Js.indexOf x (pre ++ x :: rest) <= Z.of_nat (List.length pre))%Z.
Proof.
  induction pre as [| y pre IH].
  - simpl. rewrite String.eqb_refl. lia.
  - cbn [app Js.indexOf List.length]. destruct (String.eqb y x); [lia |].
    destruct (Js.indexOf x (pre ++ x :: rest) <? 0)%Z eqn:E.
    + apply Z.ltb_lt in E. lia.
    + lia.
Qed.

Lemma indexOf_nth (x : string) (arr : list string) :
  (0 <= Js.indexOf x arr)%Z ->
  nth (Z.to_nat (Js.indexOf x arr)) arr "" = x.
Proof.
  induction arr as [| y arr IH]; simpl; [lia |].
  destruct (String.eqb_spec y x) as [-> | Hne]; [reflexivity |].
  destruct (Js.indexOf x arr <? 0)%Z eqn:E; [lia |]. apply Z.ltb_ge in E.
  intros _. rewrite Z2Nat.inj_add by lia. rewrite Nat.add_comm. simpl. now apply IH.
Qed.

Lemma nth_last (arr : list string) :
  nth (List.length arr - 1) arr "" = last arr "".
Proof.
  induction arr as [| y arr IH]; [reflexivity |].
  destruct arr as [| z arr]; [reflexivity |].
  change (last (y :: z :: arr) "") with (last (z :: arr) ""). rewrite <- IH.
  cbn [List.length].
  replace (S (S (List.length arr)) - 1)%nat with (S (S (List.length arr) - 1)) by lia.
  reflexivity.
Qed.

Lemma findLoop_resolves (parts : list string) :
  Js.indexOf (last parts "") parts = (Z.of_nat (List.length parts) - 1)%Z ->
  forall todo pre current,
    parts = (pre ++ todo)%list ->
    findLoop parts todo current = walkPath current todo.
Proof.
  intros Hlast. induction todo as [| part rest IH]; intros pre current Hparts; [reflexivity |].
  simpl. destruct (mapGet part current) as [node |]; [| reflexivity].
  destruct rest as [| part' rest].
  - assert (Hp : last parts "" = part) by (rewrite Hparts; apply last_last).
    rewrite <- Hp, Hlast, Z.eqb_refl. reflexivity.
  - pose proof (indexOf_app_le part pre (part' :: rest)) as Hle. rewrite <- Hparts in Hle.
    assert (Hlen : List.length parts = (List.length pre + S (S (List.length rest)))%nat)
      by (rewrite Hparts, length_app; reflexivity).
    destruct (Z.eqb_spec (Js.indexOf part parts) (Z.of_nat (List.length parts) - 1));
      [lia |].
    apply (IH (pre ++ [part])%list). now rewrite <- app_assoc.
Qed.

Lemma findLoop_repeated_last (parts : list string) :
  parts <> [] ->
  Js.indexOf (last parts "") parts <> (Z.of_nat (List.length parts) - 1)%Z ->
  forall todo current, findLoop parts todo current = None.
Proof.
  intros Hparts Hlast. induction todo as [| part rest IH]; intros current; [reflexivity |].
  simpl. destruct (mapGet part current) as [node |]; [| reflexivity].
  destruct (Z.eqb_spec (Js.indexOf part parts) (Z.of_nat (List.length parts) - 1))
    as [Heq | Hne]; [| apply IH].
  exfalso. apply Hlast.
  assert (Hpos : (0 <= Js.indexOf part parts)%Z).
  { destruct parts; [contradiction | cbn [List.length] in Heq; lia]. }
  pose proof (indexOf_nth part parts Hpos) as Hnth.
  rewrite Heq in Hnth.
  replace (Z.to_nat (Z.of_nat (List.length parts) - 1)) with (List.length parts - 1)%nat
    in Hnth by lia.
  rewrite nth_last in Hnth. now rewrite Hnth.
Qed.

(** [findHierarchyNode] against the walk of the spec: they agree when the
    final segment does not occur earlier in the path; when it does, the
    [indexOf] test never succeeds and the result is [null]. *)
Lemma findHierarchyNode_walkPath (m : HierarchyMap) (path : string) :
  let parts := Js.split ">" path in
  findHierarchyNode m path
  = if (Js.indexOf (last parts "") parts =? Z.of_nat (List.length parts) - 1)%Z
    then walkPath m parts
    else None.
Proof.
  intros parts. unfold findHierarchyNode. fold parts.
  destruct (Z.eqb_spec (Js.indexOf (last parts "") parts) (Z.of_nat (List.length parts) - 1))
    as [Heq | Hne].
  - now apply (findLoop_resolves parts Heq parts []).
  - apply findLoop_repeated_last; [apply split_nonempty | assumption].
Qed.

(** ** What the subtree traversals select and clear *)

Lemma nodeLeafIds_eq (groupKey value : string) (ch : HierarchyMap) (leaf : bool) :
  nodeLeafIds groupKey value (mkNode ch leaf)
  = ((if leaf || isEmpty ch then [filterIdOf groupKey value] else [])
     ++ leafIds groupKey ch)%list.
Proof. reflexivity. Qed.

Lemma selectLeafNode_leafIds (n : HierarchyNode) :
  forall groupKey parentPath value sel,
    selectLeafNode groupKey parentPath value n sel
    = fold_left (fun acc id => selectId id acc) (nodeLeafIds groupKey value n) sel.
Proof.
  induction n as [ch leaf IH] using HierarchyNode_forall_ind.
  intros groupKey parentPath value sel.
  rewrite selectLeafNode_eq, nodeLeafIds_eq, fold_left_app.
  replace (fold_left (fun acc id => selectId id acc)
             (if leaf || isEmpty ch then [filterIdOf groupKey value] else []) sel)
    with (if leaf || isEmpty ch then selectId (filterIdOf groupKey value) sel else sel)
    by (destruct (leaf || isEmpty ch); reflexivity).
  generalize (if leaf || isEmpty ch then selectId (filterIdOf groupKey value) sel else sel).
  generalize (fullPathOf parentPath value).
  unfold selectLeafNodesRecursive, leafIds.
  induction IH as [| [v n] ch Hn _ IHch]; intros pp acc; [reflexivity |].
  cbn [fold_left flat_map fst snd]. rewrite fold_left_app.
  simpl in Hn. rewrite Hn. apply IHch.
Qed.

Lemma clearLeafNode_leafIds (n : HierarchyNode) :
  forall groupKey parentPath value sel,
    clearLeafNode groupKey parentPath value n sel
    = fold_left (fun acc id => clearId id acc) (nodeLeafIds groupKey value n) sel.
Proof.
  induction n as [ch leaf IH] using HierarchyNode_forall_ind.
  intros groupKey parentPath value sel.
  rewrite clearLeafNode_eq, nodeLeafIds_eq, fold_left_app.
  replace (fold_left (fun acc id => clearId id acc)
             (if leaf || isEmpty ch then [filterIdOf groupKey value] else []) sel)
    with (if leaf || isEmpty ch then clearId (filterIdOf groupKey value) sel else sel)
    by (destruct (leaf || isEmpty ch); reflexivity).
  generalize (if leaf || isEmpty ch then clearId (filterIdOf groupKey value) sel else sel).
  generalize (fullPathOf parentPath value).
  unfold clearLeafNodesRecursive, leafIds.
  induction IH as [| [v n] ch Hn _ IHch]; intros pp acc; [reflexivity |].
  cbn [fold_left flat_map fst snd]. rewrite fold_left_app.
  simpl in Hn. rewrite Hn. apply IHch.
Qed.

Lemma selectLeafNodesRecursive_leafIds (groupKey : string) (m : HierarchyMap)
    (parentPath : string) (sel : StrSet.t) :
  selectLeafNodesRecursive groupKey m parentPath sel
  = fold_left (fun acc id => selectId id acc) (leafIds groupKey m) sel.
Proof.
  unfold selectLeafNodesRecursive, leafIds. revert sel.
  induction m as [| [v n] m IH]; intros sel; [reflexivity |].
  cbn [fold_left flat_map fst snd]. rewrite fold_left_app, selectLeafNode_leafIds. apply IH.
Qed.

Lemma clearLeafNodesRecursive_leafIds (groupKey : string) (m : HierarchyMap)
    (parentPath : string) (sel : StrSet.t) :
  clearLeafNodesRecursive groupKey m parentPath sel
  = fold_left (fun acc id => clearId id acc) (leafIds groupKey m) sel.
Proof.
  unfold clearLeafNodesRecursive, leafIds. revert sel.
  induction m as [| [v n] m IH]; intros sel; [reflexivity |].
  cbn [fold_left flat_map fst snd]. rewrite fold_left_app, clearLeafNode_leafIds. apply IH.
Qed.

Lemma In_fold_selectId (ids : list string) (fid : string) :
  forall sel,
    In fid (fold_left (fun acc id => selectId id acc) ids sel) <-> In fid sel \/ In fid ids.
Proof.
  induction ids as [| id ids IH]; intros sel; simpl; [tauto |].
  rewrite IH, In_selectId. intuition congruence.
Qed.

Lemma In_fold_clearId (ids : list string) (fid : string) :
  forall sel,
    In fid (fold_left (fun acc id => clearId id acc) ids sel) <-> In fid sel /\ ~ In fid ids.
Proof.
  induction ids as [| id ids IH]; intros sel; simpl; [tauto |].
  rewrite IH, In_clearId. intuition congruence.
Qed.

Lemma leafTest_nodeLeafIds (groupKey value : string) (n : HierarchyNode) :
  leafTest n = true -> In (filterIdOf groupKey value) (nodeLeafIds groupKey value n).
Proof.
  destruct n as [ch leaf]. unfold leafTest. simpl. intros ->. now left.
Qed.

Lemma leafIds_nodeLeafIds (groupKey value fid : string) (n : HierarchyNode) :
  In fid (leafIds groupKey (children n)) -> In fid (nodeLeafIds groupKey value n).
Proof.
  destruct n as [ch leaf]. rewrite nodeLeafIds_eq. intros H. apply in_or_app. now right.
Qed.

Lemma descendant_leafIds (groupKey : string) (m : HierarchyMap) (v : string)
    (n : HierarchyNode) :
  descendant m v n -> leafTest n = true -> In (filterIdOf groupKey v) (leafIds groupKey m).
Proof.
  induction 1 as [m v n Hin | m v' n' v n Hin Hdesc IH]; intros Ht;
    unfold leafIds; apply in_flat_map.
  - exists (v, n). split; [assumption | now apply leafTest_nodeLeafIds].
  - exists (v', n'). split; [assumption |]. apply leafIds_nodeLeafIds. now apply IH.
Qed.

Lemma nodeLeafIds_descendant (n : HierarchyNode) :
  forall groupKey value fid,
    In fid (nodeLeafIds groupKey value n) ->
    (leafTest n = true /\ fid = filterIdOf groupKey value) \/
    exists v' n', descendant (children n) v' n' /\ leafTest n' = true
                  /\ fid = filterIdOf groupKey v'.
Proof.
  induction n as [ch leaf IH] using HierarchyNode_forall_ind.
  intros groupKey value fid. rewrite nodeLeafIds_eq. intros Hin.
  apply in_app_or in Hin. destruct Hin as [Hin | Hin].
  - left. unfold leafTest. simpl. destruct (leaf || isEmpty ch); [| contradiction].
    destruct Hin as [<- | []]. now split.
  - right. unfold leafIds in Hin. apply in_flat_map in Hin.
    destruct Hin as [[v n] [Hvn Hfid]]. rewrite Forall_forall in IH.
    destruct (IH _ Hvn groupKey v fid Hfid) as [[Ht ->] | [v' [n' [Hd [Ht ->]]]]].
    + exists v, n. split; [now apply DescHere | now split].
    + exists v', n'. split; [| now split]. simpl. now apply (DescBelow ch v n).
Qed.

Lemma In_leafIds (groupKey : string) (m : HierarchyMap) (fid : string) :
  In fid (leafIds groupKey m) <->
  exists v n, descendant m v n /\ leafTest n = true /\ fid = filterIdOf groupKey v.
Proof.
  split.
  - unfold leafIds. intros Hin. apply in_flat_map in Hin.
    destruct Hin as [[v n] [Hvn Hfid]].
    destruct (nodeLeafIds_descendant n groupKey v fid Hfid)
      as [[Ht ->] | [v' [n' [Hd [Ht ->]]]]].
    + exists v, n. split; [now apply DescHere | now split].
    + exists v', n'. split; [| now split]. now apply (DescBelow m v n).
  - intros [v [n [Hd [Ht ->]]]]. now apply (descendant_leafIds groupKey m v n).
Qed.

Lemma walkPath_leafOk (segments : list string) :
  forall m node,
    mapLeafOk m = true -> walkPath m segments = Some node -> leafOk node = true.
Proof.
  induction segments as [| seg rest IH]; intros m node Hm; simpl; [discriminate |].
  destruct (mapGet seg m) as [n |] eqn:E; [| discriminate].
  pose proof (mapLeafOk_mapGet _ _ _ Hm E) as Hn.
  destruct rest as [| seg' rest].
  - intros H. now injection H as <-.
  - apply IH. destruct n as [ch leaf]. rewrite leafOk_unfold in Hn.
    apply andb_true_iff in Hn. apply Hn.
Qed.

(** C3, as the code has it.  On a tree in which every childless node is
    flagged (every tree the builder makes): when a segment of the path is
    absent, [selectAllChildrenInHierarchy] and [clearAllChildrenInHierarchy]
    change nothing at all; when every segment is present and the final
    segment does not occur earlier in the path, they add, respectively
    remove, exactly the ids [groupKey:value] of the nodes flagged [isLeaf]
    among the descendants of the resolved node.  On the tree
    [a > {b (leaf), c > {d (leaf)}}], selecting under [a] yields [object:b]
    and [object:d], and neither [object:a] nor [object:c]. *)
Theorem selectAllUnder_clearUnder_leaves_only (w : World)
    (groupKey title path : string) (tree : HierarchyMap) :
  Js.get (filterGroups (this w)) groupKey = Js.Own (HierarchicalGroup title tree) ->
  mapLeafOk tree = true ->
  let parts := Js.split ">" path in
  let sel := selectedFilters (this w) in
  (walkPath tree parts = None ->
   selectAllChildrenInHierarchy groupKey path w = w /\
   clearAllChildrenInHierarchy groupKey path w = w) /\
  (forall node,
     walkPath tree parts = Some node ->
     Js.indexOf (last parts "") parts = (Z.of_nat (List.length parts) - 1)%Z ->
     forall fid,
       (In fid (selectedFilters (this (selectAllChildrenInHierarchy groupKey path w)))
        <-> In fid sel \/
            exists v n, descendant (children node) v n /\ isLeaf n = true
                        /\ fid = filterIdOf groupKey v) /\
       (In fid (selectedFilters (this (clearAllChildrenInHierarchy groupKey path w)))
        <-> In fid sel /\
            ~ exists v n, descendant (children node) v n /\ isLeaf n = true
                          /\ fid = filterIdOf groupKey v)) /\
  gObject (collectGroups (datasets (this abcdWorld)))
    = [("a", mkNode [("b", mkNode [] true);
                     ("c", mkNode [("d", mkNode [] true)] false)] false)] /\
  selectedFilters (this (selectAllChildrenInHierarchy "object" "a" abcdWorld))
    = ["object:b"; "object:d"].
Proof.
  intros Hget Hok parts sel.
  pose proof (findHierarchyNode_walkPath tree path) as Hfind. fold parts in Hfind.
  cbv zeta in Hfind.
  split; [| split; [| split; reflexivity]].
  - intros Hnone. rewrite Hnone in Hfind.
    assert (Hf : findHierarchyNode tree path = None)
      by (rewrite Hfind; now destruct (_ =? _)%Z).
    unfold selectAllChildrenInHierarchy, clearAllChildrenInHierarchy.
    rewrite Hget, Hf. split; reflexivity.
  - intros node Hwalk Hlast fid. rewrite Hlast, Z.eqb_refl, Hwalk in Hfind.
    assert (Hch : mapLeafOk (children node) = true).
    { pose proof (walkPath_leafOk _ _ _ Hok Hwalk) as Hn. destruct node as [ch leaf].
      rewrite leafOk_unfold in Hn. apply andb_true_iff in Hn. apply Hn. }
    assert (Hleaf : (exists v n, descendant (children node) v n /\ leafTest n = true
                                 /\ fid = filterIdOf groupKey v)
                    <-> (exists v n, descendant (children node) v n /\ isLeaf n = true
                                     /\ fid = filterIdOf groupKey v)).
    { split; intros [v [n [Hd [Ht Hfid]]]]; exists v, n;
        (split; [assumption | split; [| assumption]]);
        pose proof (leafOk_leafTest n (leafOk_descendant _ _ _ Hd Hch)) as Heq; congruence. }
    unfold selectAllChildrenInHierarchy, clearAllChildrenInHierarchy.
    rewrite Hget, Hfind, !selected_scheduleFilterUpdate. cbn [this onThis selectedFilters
      withSelectedFilters]. fold sel.
    rewrite selectLeafNodesRecursive_leafIds, clearLeafNodesRecursive_leafIds.
    rewrite In_fold_selectId, In_fold_clearId, In_leafIds, Hleaf. tauto.
Qed.

Lemma selectAllUnder_clearUnder_leaves_only_witness :
  In "object:d"
    (selectedFilters (this (selectAllChildrenInHierarchy "object" "a" abcdWorld))) /\
  selectAllChildrenInHierarchy "object" "a>x" abcdWorld = abcdWorld.
Proof.
  pose proof (selectAllUnder_clearUnder_leaves_only abcdWorld "object" "operation object")
    as H.
  split.
  - destruct (H "a" (gObject (collectGroups (datasets (this abcdWorld))))
                eq_refl eq_refl) as [_ [Hsel _]].
    apply (Hsel (mkNode [("b", mkNode [] true);
                         ("c", mkNode [("d", mkNode [] true)] false)] false)
                eq_refl eq_refl "object:d").
    right. exists "d", (mkNode [] true). split; [| split; reflexivity].
    apply (DescBelow _ "c" (mkNode [("d", mkNode [] true)] false)).
    + simpl. right. now left.
    + apply DescHere. simpl. now left.
  - destruct (H "a>x" (gObject (collectGroups (datasets (this abcdWorld))))
                eq_refl eq_refl) as [Hnone _].
    apply Hnone. reflexivity.
Defined.

(** Against the "exactly when" of C3: with every segment of the path
    present, selecting under [a] a second time, or clearing under [a] when
    nothing is selected, leaves the selection as it was. *)
Lemma selectAllUnder_unchanged_on_present_path :
  let tree := gObject (collectGroups (datasets (this abcdWorld))) in
  let w1 := selectAllChildrenInHierarchy "object" "a" abcdWorld in
  walkPath tree (Js.split ">" "a") <> None /\
  selectedFilters (this (selectAllChildrenInHierarchy "object" "a" w1))
    = selectedFilters (this w1) /\
  selectedFilters (this (clearAllChildrenInHierarchy "object" "a" abcdWorld))
    = selectedFilters (this abcdWorld).
Proof. split; [discriminate | split; reflexivity]. Qed.

(** A path whose final segment repeats an earlier one is not resolved,
    although each of its segments is present: the [indexOf] test of
    [findHierarchyNode] looks at the first occurrence. *)
Lemma findHierarchyNode_repeated_segment :
  let tree := gObject (collectGroups (datasets (this aabWorld))) in
  walkPath tree (Js.split ">" "a>a") = Some (mkNode [("b", mkNode [] true)] false) /\
  findHierarchyNode tree "a>a" = None /\
  selectAllChildrenInHierarchy "object" "a>a" aabWorld = aabWorld.
Proof. repeat split. Qed.

(** ** Timers *)

(** Case analysis on the group that [this.filterGroups[groupKey]] reads. *)
Ltac case_group :=
  match goal with
  | |- context [Js.get (filterGroups ?fm) ?k] =>
      destruct (Js.get (filterGroups fm) k) as [[? ? | ? ?] | |]
  end.

Lemma In_clearTimeout (id : TimerId) (h : Host) (t : Timer) :
  In t (timers (clearTimeout id h)) <-> In t (timers h) /\ timerId t <> id.
Proof.
  unfold clearTimeout. simpl. rewrite filter_In, negb_true_iff, Pos.eqb_neq. tauto.
Qed.

Lemma NoDup_map_filter {A B : Type} (f : A -> B) (g : A -> bool) (l : list A) :
  NoDup (map f l) -> NoDup (map f (filter g l)).
Proof.
  induction l as [| a l IH]; simpl; intros H; [constructor |].
  inversion H as [| ? ? Hnotin Hnd]; subst.
  destruct (g a); simpl; [| now apply IH].
  constructor; [| now apply IH].
  intros Hin. apply Hnotin. apply in_map_iff in Hin. destruct Hin as [x [Hx Hin]].
  apply filter_In in Hin. apply in_map_iff. exists x. tauto.
Qed.

Lemma timer_unique (l : list Timer) (t t' : Timer) :
  NoDup (map timerId l) -> In t l -> In t' l -> timerId t = timerId t' -> t = t'.
Proof.
  induction l as [| a l IH]; simpl; intros Hnd Ht Ht' Heq; [contradiction |].
  inversion Hnd as [| ? ? Hnotin Hnd']; subst.
  destruct Ht as [-> | Ht], Ht' as [-> | Ht'].
  - reflexivity.
  - exfalso. apply Hnotin. rewrite Heq. now apply in_map.
  - exfalso. apply Hnotin. rewrite <- Heq. now apply in_map.
  - now apply IH.
Qed.

Lemma timersOk_clear_pending (p : TimerId) (tt : option TimerId) (h : Host) :
  timersOk (Some p) tt h -> timersOk None tt (clearTimeout p h).
Proof.
  intros [Hnd [Hlt [Hupd [Hpend Htip]]]]. repeat split.
  - now apply NoDup_map_filter.
  - intros t Ht. apply In_clearTimeout in Ht. now apply Hlt.
  - intros t Ht Htask. apply In_clearTimeout in Ht. destruct Ht as [Ht Hne].
    specialize (Hupd t Ht Htask). congruence.
  - discriminate.
  - now apply (Htip q).
  - intros t Ht. apply In_clearTimeout in Ht. destruct Ht as [Ht _].
    destruct (Htip q H) as [_ Hq]. now apply Hq.
Qed.

Lemma timersOk_clear_other (pd tt : option TimerId) (q : TimerId) (h : Host) :
  timersOk pd tt h ->
  (forall t, In t (timers h) -> timerId t = q -> timerTask t <> FilterUpdateTask) ->
  timersOk pd tt (clearTimeout q h).
Proof.
  intros [Hnd [Hlt [Hupd [Hpend Htip]]]] Hq. repeat split.
  - now apply NoDup_map_filter.
  - intros t Ht. apply In_clearTimeout in Ht. now apply Hlt.
  - intros t Ht Htask. apply In_clearTimeout in Ht. now apply Hupd.
  - intros p Hp. destruct (Hpend p Hp) as [t [Ht [Hid Htask]]].
    exists t. split; [| now split]. apply In_clearTimeout. split; [assumption |].
    intros Heq. now apply (Hq t Ht Heq).
  - now apply (Htip q0).
  - intros t Ht. apply In_clearTimeout in Ht. destruct Ht as [Ht _].
    destruct (Htip q0 H) as [_ Hq0]. now apply Hq0.
Qed.

Lemma timersOk_forget_tooltip (pd tt : option TimerId) (h : Host) :
  timersOk pd tt h -> timersOk pd None h.
Proof.
  intros [Hnd [Hlt [Hupd [Hpend Htip]]]]. repeat split; try assumption; discriminate.
Qed.

Lemma timersOk_arm_update (tt : option TimerId) (delay : nat) (h : Host) :
  timersOk None tt h ->
  timersOk (Some (fst (setTimeout FilterUpdateTask delay h))) tt
    (snd (setTimeout FilterUpdateTask delay h)).
Proof.
  intros [Hnd [Hlt [Hupd [Hpend Htip]]]]. unfold setTimeout. simpl. repeat split; simpl.
  - rewrite map_app. simpl. apply NoDup_app; [assumption | repeat constructor; simpl; tauto |].
    intros x Hx [<- | []]. apply in_map_iff in Hx. destruct Hx as [t [Hid Ht]].
    specialize (Hlt t Ht). lia.
  - intros t Ht. apply in_app_or in Ht. destruct Ht as [Ht | [<- | []]].
    + specialize (Hlt t Ht). lia.
    + simpl. lia.
  - intros t Ht Htask. apply in_app_or in Ht. destruct Ht as [Ht | [<- | []]].
    + specialize (Hupd t Ht Htask). discriminate.
    + reflexivity.
  - intros p Hp. injection Hp as <-. eexists. split; [apply in_or_app; right; now left |].
    split; reflexivity.
  - destruct (Htip q H) as [Hq _]. lia.
  - intros t Ht Hid. apply in_app_or in Ht. destruct Ht as [Ht | [<- | []]].
    + destruct (Htip q H) as [_ Hq]. now apply Hq.
    + simpl in Hid. destruct (Htip q H) as [Hq _]. lia.
Qed.

Lemma timersOk_arm_tooltip (pd : option TimerId) (k v : string) (delay : nat) (h : Host) :
  timersOk pd None h ->
  timersOk pd (Some (fst (setTimeout (TooltipTask k v) delay h)))
    (snd (setTimeout (TooltipTask k v) delay h)).
Proof.
  intros [Hnd [Hlt [Hupd [Hpend Htip]]]]. unfold setTimeout. simpl. repeat split; simpl.
  - rewrite map_app. simpl. apply NoDup_app; [assumption | repeat constructor; simpl; tauto |].
    intros x Hx [<- | []]. apply in_map_iff in Hx. destruct Hx as [t [Hid Ht]].
    specialize (Hlt t Ht). lia.
  - intros t Ht. apply in_app_or in Ht. destruct Ht as [Ht | [<- | []]].
    + specialize (Hlt t Ht). lia.
    + simpl. lia.
  - intros t Ht Htask. apply in_app_or in Ht. destruct Ht as [Ht | [<- | []]].
    + now apply Hupd.
    + discriminate.
  - intros p Hp. destruct (Hpend p Hp) as [t [Ht Hrest]].
    exists t. split; [apply in_or_app; now left | assumption].
  - injection H as <-. lia.
  - injection H as <-. intros t Ht Hid. apply in_app_or in Ht.
    destruct Ht as [Ht | [<- | []]].
    + specialize (Hlt t Ht). lia.
    + discriminate.
Qed.

Lemma timersOk_dispatch (pd tt : option TimerId) (h : Host) :
  timersOk pd tt h -> timersOk pd tt (dispatchFiltersChanged h).
Proof. intros H. exact H. Qed.

Lemma worldOk_scheduleFilterUpdate (w : World) :
  worldOk w -> worldOk (scheduleFilterUpdate w).
Proof.
  unfold worldOk, scheduleFilterUpdate. intros H.
  destruct (pendingFilterUpdate (this w)) as [p |].
  - apply timersOk_clear_pending in H.
    exact (timersOk_arm_update _ 150 _ H).
  - exact (timersOk_arm_update _ 150 _ H).
Qed.

Lemma worldOk_resetFilters (w : World) : worldOk w -> worldOk (resetFilters w).
Proof.
  unfold worldOk, resetFilters. intros H.
  destruct (pendingFilterUpdate (this w)) as [p |] eqn:E; simpl.
  - now apply timersOk_clear_pending.
  - now rewrite E.
Qed.

Lemma worldOk_showTooltip (k v : string) (w : World) :
  worldOk w -> worldOk (showTooltip k v w).
Proof.
  unfold worldOk, showTooltip. intros H.
  destruct (tooltipElement (this w)); [| assumption].
  destruct (tooltipTimeout (this w)) as [q |] eqn:E.
  - assert (H' : timersOk (pendingFilterUpdate (this w)) None (clearTimeout q (host w))).
    { apply timersOk_forget_tooltip with (tt := Some q).
      apply timersOk_clear_other; [assumption |].
      destruct H as [_ [_ [_ [_ Htip]]]]. now apply (Htip q). }
    exact (timersOk_arm_tooltip _ k v _ _ H').
  - exact (timersOk_arm_tooltip _ k v _ _ H).
Qed.

Lemma worldOk_hideTooltip (w : World) : worldOk w -> worldOk (hideTooltip w).
Proof.
  unfold worldOk, hideTooltip. intros H.
  assert (H' : worldOk
                 match tooltipTimeout (this w) with
                 | Some id => {| this := withTooltipTimeout None (this w);
                                 host := clearTimeout id (host w) |}
                 | None => w
                 end).
  { unfold worldOk. destruct (tooltipTimeout (this w)) as [q |] eqn:E; simpl.
    - apply timersOk_forget_tooltip with (tt := Some q).
      apply timersOk_clear_other; [assumption |].
      destruct H as [_ [_ [_ [_ Htip]]]]. now apply (Htip q).
    - now rewrite E. }
  unfold worldOk in H'.
  destruct (tooltipElement (this _)); exact H'.
Qed.

Lemma worldOk_timerFires (w w' : World) :
  worldOk w -> timerFires w w' -> worldOk w'.
Proof.
  intros H Hfire. destruct Hfire as [w t Ht]. unfold worldOk in *.
  destruct (timerTask t) eqn:Etask; simpl.
  - destruct H as [Hnd [Hlt [Hupd [Hpend Htip]]]].
    pose proof (Hupd t Ht Etask) as Hp.
    assert (H : timersOk (Some (timerId t)) (tooltipTimeout (this w)) (host w))
      by (rewrite <- Hp; exact (conj Hnd (conj Hlt (conj Hupd (conj Hpend Htip))))).
    apply timersOk_clear_pending in H.
    unfold filterUpdateCallback. simpl.
    destruct (tooltipElement (this w)); exact H.
  - assert (H' : timersOk (pendingFilterUpdate (this w)) (tooltipTimeout (this w))
                   (clearTimeout (timerId t) (host w))).
    { apply timersOk_clear_other; [assumption |].
      intros t' Ht' Hid. destruct H as [Hnd _].
      rewrite (timer_unique _ t' t Hnd Ht' Ht Hid), Etask. discriminate. }
    unfold tooltipCallback. simpl.
    destruct (tooltipElement (this w)); exact H'.
Qed.

Lemma worldOk_selectAllInGroup (groupKey : string) (w : World) :
  worldOk w -> worldOk (selectAllInGroup groupKey w).
Proof.
  intros H. unfold selectAllInGroup.
  case_group;
    try assumption; apply worldOk_scheduleFilterUpdate; exact H.
Qed.

Lemma worldOk_selectAllChildrenInHierarchy (groupKey path : string) (w : World) :
  worldOk w -> worldOk (selectAllChildrenInHierarchy groupKey path w).
Proof.
  intros H. unfold selectAllChildrenInHierarchy.
  case_group;
    try assumption.
  destruct (findHierarchyNode _ _); [| assumption].
  apply worldOk_scheduleFilterUpdate. exact H.
Qed.

Lemma worldOk_clearAllChildrenInHierarchy (groupKey path : string) (w : World) :
  worldOk w -> worldOk (clearAllChildrenInHierarchy groupKey path w).
Proof.
  intros H. unfold clearAllChildrenInHierarchy.
  case_group;
    try assumption.
  destruct (findHierarchyNode _ _); [| assumption].
  apply worldOk_scheduleFilterUpdate. exact H.
Qed.

Lemma worldOk_searchFilterOptions (toLowerCase : string -> string)
    (allOptions : option (list FilterOption)) (query : string) (w : World) :
  worldOk w -> worldOk (onThis (searchFilterOptions toLowerCase allOptions query) w).
Proof.
  intros H. unfold worldOk, onThis, searchFilterOptions. simpl.
  destruct allOptions as [opts |]; [| exact H].
  destruct (negb (Js.truthy query)); [exact H |].
  destruct (0 <? _)%nat; exact H.
Qed.

Lemma worldOk_navigateFilterMatch (direction : string) (w : World) :
  worldOk w -> worldOk (onThis (navigateFilterMatch direction) w).
Proof.
  intros H. unfold worldOk, onThis, navigateFilterMatch. simpl.
  destruct (_ =? 0)%Z; exact H.
Qed.

Lemma worldOk_initializeTooltips (w : World) :
  worldOk w -> worldOk (onThis initializeTooltips w).
Proof.
  intros H. unfold worldOk, onThis, initializeTooltips. simpl.
  destruct (tooltipElement (this w)); exact H.
Qed.

(** Every reachable state keeps the stored handles and the timer table
    in step. *)
Lemma reachable_worldOk (w : World) : reachable w -> worldOk w.
Proof.
  induction 1.
  - unfold worldOk, timersOk. simpl.
    repeat split; try constructor; try contradiction; discriminate.
  - exact IHreachable.
  - apply worldOk_scheduleFilterUpdate. exact IHreachable.
  - apply worldOk_scheduleFilterUpdate. exact IHreachable.
  - now apply worldOk_resetFilters.
  - exact IHreachable.
  - now apply worldOk_selectAllInGroup.
  - apply worldOk_scheduleFilterUpdate. exact IHreachable.
  - now apply worldOk_selectAllChildrenInHierarchy.
  - now apply worldOk_clearAllChildrenInHierarchy.
  - now apply worldOk_searchFilterOptions.
  - now apply worldOk_navigateFilterMatch.
  - exact IHreachable.
  - now apply worldOk_initializeTooltips.
  - now apply worldOk_showTooltip.
  - now apply worldOk_hideTooltip.
  - now apply (worldOk_timerFires w w').
Qed.

Lemma timersRun_without_update (w1 w2 : World) :
  timersRun w1 w2 ->
  (forall t, In t (timers (host w1)) -> timerTask t <> FilterUpdateTask) ->
  filtersChanged (host w2) = filtersChanged (host w1) /\
  selectedFilters (this w2) = selectedFilters (this w1).
Proof.
  induction 1 as [w | w1 w2 w3 Hfire Hrun IH]; intros Hno; [now split |].
  destruct Hfire as [w t Ht].
  pose proof (Hno t Ht) as Htask.
  destruct (timerTask t) as [| k v] eqn:Etask; [contradiction |].
  assert (Hstep : host (runTask (TooltipTask k v)
                          {| this := this w; host := clearTimeout (timerId t) (host w) |})
                  = clearTimeout (timerId t) (host w)
                  /\ selectedFilters
                       (this (runTask (TooltipTask k v)
                                {| this := this w;
                                   host := clearTimeout (timerId t) (host w) |}))
                     = selectedFilters (this w)).
  { simpl. unfold tooltipCallback. simpl. destruct (tooltipElement (this w)); now split. }
  destruct Hstep as [Hhost Hsel].
  destruct IH as [IH1 IH2].
  - rewrite Hhost. intros t' Ht'. apply In_clearTimeout in Ht'. now apply Hno.
  - rewrite IH1, IH2, Hhost, Hsel. now split.
Qed.

(** ** The finder's index *)

(** In every reachable state the current index is "none" over an empty
    match list or a position of the match list: the range in which
    [navigateFilterMatch] wraps. *)
Lemma reachable_finder_index (w : World) :
  reachable w ->
  let n := Z.of_nat (List.length (filterFinderMatches (this w))) in
  let i := filterFinderCurrentIndex (this w) in
  (n = 0 /\ i = -1)%Z \/ (0 <= i < n)%Z.
Proof.
  induction 1; cbv zeta in *.
  - left. now split.
  - exact IHreachable.
  - exact IHreachable.
  - exact IHreachable.
  - unfold resetFilters. now destruct (pendingFilterUpdate (this w)).
  - exact IHreachable.
  - unfold selectAllInGroup.
    now case_group.
  - exact IHreachable.
  - unfold selectAllChildrenInHierarchy.
    case_group;
      try assumption.
    now destruct (findHierarchyNode _ _).
  - unfold clearAllChildrenInHierarchy.
    case_group;
      try assumption.
    now destruct (findHierarchyNode _ _).
  - unfold onThis, searchFilterOptions. simpl.
    destruct allOptions as [opts |]; [| left; now split].
    destruct (negb (Js.truthy query)); [left; now split |].
    destruct (findMatches toLowerCase (toLowerCase query) opts) as [| m ms] eqn:E.
    + left. now split.
    + right. cbn [Nat.ltb Nat.leb List.length filterFinderMatches filterFinderCurrentIndex
                  withFinder clearFilterSearch]. lia.
  - unfold onThis, navigateFilterMatch. simpl.
    set (n := Z.of_nat (List.length (filterFinderMatches (this w)))) in *.
    set (i := filterFinderCurrentIndex (this w)) in *.
    destruct (Z.eqb_spec n 0) as [Hn | Hn]; [assumption |].
    right. simpl. fold n.
    destruct IHreachable as [[Hz _] | Hi]; [contradiction |].
    destruct (String.eqb direction "next").
    + rewrite Z.rem_mod_nonneg by lia. apply Z.mod_pos_bound. lia.
    + rewrite Z.rem_mod_nonneg by lia. apply Z.mod_pos_bound. lia.
  - left. now split.
  - unfold onThis, initializeTooltips. simpl. now destruct (tooltipElement (this w)).
  - unfold showTooltip. now destruct (tooltipElement (this w)).
  - unfold hideTooltip.
    destruct (tooltipTimeout (this w)); simpl; now destruct (tooltipElement (this w)).
  - destruct H0 as [w t Ht]. destruct (timerTask t); simpl.
    + unfold filterUpdateCallback. simpl. now destruct (tooltipElement (this w)).
    + unfold tooltipCallback. simpl. now destruct (tooltipElement (this w)).
Qed.

(** * Further properties of the module *)

(** ** Toggling twice, resetting, clearing a group *)

Lemma has_toggle (filterKey filterValue other : string) (w : World) :
  StrSet.has other
    (selectedFilters (this (fst (toggleFilterSelection filterKey filterValue w))))
  = if String.eqb other (filterIdOf filterKey filterValue)
    then negb (StrSet.has (filterIdOf filterKey filterValue) (selectedFilters (this w)))
    else StrSet.has other (selectedFilters (this w)).
Proof.
  unfold toggleFilterSelection. cbn [fst]. rewrite selected_scheduleFilterUpdate. cbn.
  destruct (StrSet.has (filterIdOf filterKey filterValue) (selectedFilters (this w))) eqn:E.
  - rewrite has_delete.
    destruct (String.eqb_spec other (filterIdOf filterKey filterValue)); reflexivity.
  - rewrite has_add.
    destruct (String.eqb_spec other (filterIdOf filterKey filterValue)) as [-> |];
      reflexivity.
Qed.

(** X1.  Toggling the same option twice gives back the membership of every
    id, and the records and the groups are untouched. *)
Theorem toggle_twice_restores_membership (filterKey filterValue : string) (w : World) :
  let w2 := fst (toggleFilterSelection filterKey filterValue
                   (fst (toggleFilterSelection filterKey filterValue w))) in
  (forall id, StrSet.has id (selectedFilters (this w2))
              = StrSet.has id (selectedFilters (this w))) /\
  datasets (this w2) = datasets (this w) /\
  filterGroups (this w2) = filterGroups (this w).
Proof.
  intros w2. split; [| split; reflexivity].
  intros id. subst w2. rewrite !has_toggle, String.eqb_refl.
  destruct (String.eqb_spec id (filterIdOf filterKey filterValue)) as [-> |];
    [apply negb_involutive | reflexivity].
Qed.

Lemma filter_all_true {A : Type} (f : A -> bool) (l : list A) :
  (forall x, In x l -> f x = true) -> filter f l = l.
Proof.
  induction l as [| a l IH]; simpl; intros H; [reflexivity |].
  rewrite (H a (or_introl eq_refl)), IH; [reflexivity |].
  intros x Hx. apply H. now right.
Qed.

Lemma selected_resetFilters (w : World) : selectedFilters (this (resetFilters w)) = [].
Proof. unfold resetFilters. now destruct (pendingFilterUpdate (this w)). Qed.

Lemma datasets_resetFilters (w : World) :
  datasets (this (resetFilters w)) = datasets (this w).
Proof. unfold resetFilters. now destruct (pendingFilterUpdate (this w)). Qed.

Lemma applyFilters_no_selection (toLowerCase : string -> string) (fm : FilterManager)
    (searchQuery : string) :
  selectedFilters fm = [] ->
  applyFilters toLowerCase fm searchQuery
  = Some (filter (fun ds => negb (Js.truthy searchQuery)
                            || Js.strIncludes (toLowerCase (name ds))
                                 (toLowerCase searchQuery))
            (datasets fm)).
Proof.
  intros Hsel. unfold applyFilters. rewrite Hsel. simpl. apply f_equal.
  apply filter_ext. intros ds. unfold keepDataset. simpl.
  destruct (Js.truthy searchQuery); simpl; [| reflexivity].
  now destruct (Js.strIncludes _ _).
Qed.

(** X2.  After [resetFilters], [applyFilters('')] returns every record in
    the original order, and [applyFilters(query)] the records whose
    lower-cased name contains the lower-cased query, whatever was selected
    before. *)
Theorem reset_then_applyFilters_returns_all (toLowerCase : string -> string)
    (w : World) (searchQuery : string) :
  applyFilters toLowerCase (this (resetFilters w)) "" = Some (datasets (this w)) /\
  applyFilters toLowerCase (this (resetFilters w)) searchQuery
  = Some (filter (fun ds => negb (Js.truthy searchQuery)
                            || Js.strIncludes (toLowerCase (name ds))
                                 (toLowerCase searchQuery))
            (datasets (this w))).
Proof.
  split.
  - rewrite (applyFilters_no_selection _ _ _ (selected_resetFilters w)).
    rewrite datasets_resetFilters. apply f_equal. now apply filter_all_true.
  - rewrite (applyFilters_no_selection _ _ _ (selected_resetFilters w)).
    now rewrite datasets_resetFilters.
Qed.

Lemma In_fold_delete (ids : list string) (id : string) :
  forall sel,
    In id (fold_left (fun acc x => StrSet.delete x acc) ids sel)
    <-> In id sel /\ ~ In id ids.
Proof.
  induction ids as [| x ids IH]; intros sel; simpl; [tauto |].
  rewrite IH, In_delete. intuition congruence.
Qed.

Lemma In_clearGroup (groupKey id : string) (w : World) :
  In id (selectedFilters (this (clearGroup groupKey w)))
  <-> In id (selectedFilters (this w)) /\ fst (splitFilterId id) <> groupKey.
Proof.
  unfold clearGroup. rewrite selected_scheduleFilterUpdate. cbn.
  rewrite In_fold_delete, filter_In, String.eqb_eq. tauto.
Qed.

Lemma key_of_filterIdOf (filterKey filterValue : string) :
  noColon filterKey = true ->
  fst (splitFilterId (filterIdOf filterKey filterValue)) = filterKey.
Proof. intros H. now rewrite splitFilterId_filterIdOf. Qed.

(** X3.  [clearGroup(groupKey)] removes exactly the selected ids whose
    part before the first [':'] is [groupKey] and keeps the others; for a
    key without [':'] no id [groupKey:value] is left, also when the value
    holds a [':']. *)
Theorem clearGroup_removes_exactly_the_group (groupKey : string) (w : World) :
  (forall id,
     In id (selectedFilters (this (clearGroup groupKey w)))
     <-> In id (selectedFilters (this w)) /\ fst (splitFilterId id) <> groupKey) /\
  (noColon groupKey = true ->
   forall value,
     ~ In (filterIdOf groupKey value) (selectedFilters (this (clearGroup groupKey w)))).
Proof.
  split; [intros id; apply In_clearGroup |].
  intros Hkey value Hin. apply In_clearGroup in Hin. destruct Hin as [_ Hne].
  apply Hne. now apply key_of_filterIdOf.
Qed.

(** ** When [applyFilters] throws, and unknown keys *)

Lemma collectFilter_None (ids : list string) : fold_left collectFilter ids None = None.
Proof. induction ids as [| id ids IH]; simpl; [reflexivity | exact IH]. Qed.

Lemma collectFilters_None_iff (sel : StrSet.t) :
  collectFilters sel = None
  <-> exists id, In id sel /\ Js.isPrototypeKey (fst (splitFilterId id)) = true.
Proof.
  unfold collectFilters. generalize (@nil (string * list (option string))).
  induction sel as [| id sel IH]; intros fs.
  - simpl. split; [discriminate | intros [id [[] _]]].
  - cbn [fold_left]. unfold collectFilter at 2.
    destruct (splitFilterId id) as [key value] eqn:E.
    destruct (Js.isPrototypeKey key) eqn:Ek.
    + rewrite collectFilter_None. split; [| reflexivity].
      intros _. exists id. split; [now left | now rewrite E].
    + rewrite IH. split.
      * intros [id' [Hin Hk]]. exists id'. split; [now right | assumption].
      * intros [id' [[<- | Hin] Hk]].
        -- rewrite E in Hk. simpl in Hk. congruence.
        -- now exists id'.
Qed.

Lemma facetMatch_unknown_key (key : string) (values : list (option string)) (ds : Dataset) :
  ~ In key facetKeys -> facetMatch key values ds = false.
Proof.
  intros Hkey. unfold facetMatch, facetKeys in *. simpl in Hkey.
  destruct (String.eqb_spec key "scene"); [exfalso; apply Hkey; subst; tauto |].
  destruct (String.eqb_spec key "robot"); [exfalso; apply Hkey; subst; tauto |].
  destruct (String.eqb_spec key "end"); [exfalso; apply Hkey; subst; tauto |].
  destruct (String.eqb_spec key "action"); [exfalso; apply Hkey; subst; tauto |].
  destruct (String.eqb_spec key "object"); [exfalso; apply Hkey; subst; tauto |].
  reflexivity.
Qed.

Lemma keys_pushFilter_In (key k : string) (value : option string) (fs : Filters) :
  In k (map fst (pushFilter key value fs)) <-> k = key \/ In k (map fst fs).
Proof.
  rewrite keys_pushFilter. destruct (Js.ownGet key fs) eqn:E.
  - split; [tauto |]. intros [-> | H]; [| assumption].
    clear -E. induction fs as [| [k' vs] fs IH]; simpl in *; [discriminate |].
    destruct (String.eqb_spec k' key); [now left | right; now apply IH].
  - rewrite in_app_iff. simpl. intuition congruence.
Qed.

Lemma collectFilters_keys (sel : StrSet.t) :
  forall fs0 fs,
    fold_left collectFilter sel (Some fs0) = Some fs ->
    forall k, In k (map fst fs)
              <-> In k (map fst fs0) \/ exists id, In id sel /\ fst (splitFilterId id) = k.
Proof.
  induction sel as [| id sel IH]; intros fs0 fs Hfold k.
  - simpl in Hfold. injection Hfold as <-. split; [tauto | intros [H | [id [[] _]]]; exact H].
  - cbn [fold_left] in Hfold. unfold collectFilter at 2 in Hfold.
    destruct (splitFilterId id) as [key value] eqn:E.
    destruct (Js.isPrototypeKey key); [rewrite collectFilter_None in Hfold; discriminate |].
    rewrite (IH _ _ Hfold k), keys_pushFilter_In. split.
    + intros [[-> | H] | [id' [Hin Hk]]].
      * right. exists id. split; [now left | now rewrite E].
      * now left.
      * right. exists id'. split; [now right | assumption].
    + intros [H | [id' [[<- | Hin] Hk]]].
      * left. now right.
      * left. left. rewrite E in Hk. now symmetry.
      * right. now exists id'.
Qed.

(** X5.  A selected id whose part before the first [':'] is none of the
    five facet keys matches no record: whenever [applyFilters] returns, it
    returns the empty list. *)
Theorem unknown_key_filters_out_everything (toLowerCase : string -> string)
    (fm : FilterManager) (searchQuery id : string) (kept : list Dataset) :
  In id (selectedFilters fm) ->
  ~ In (fst (splitFilterId id)) facetKeys ->
  applyFilters toLowerCase fm searchQuery = Some kept ->
  kept = [].
Proof.
  intros Hin Hkey Happly. unfold applyFilters in Happly.
  destruct (collectFilters (selectedFilters fm)) as [fs |] eqn:E; [| discriminate].
  injection Happly as <-.
  assert (Hk : In (fst (splitFilterId id)) (map fst fs)).
  { apply (collectFilters_keys _ _ _ E). right. now exists id. }
  apply in_map_iff in Hk. destruct Hk as [[k vs] [Hfst Hentry]]. cbn [fst] in Hfst. subst k.
  induction (datasets fm) as [| ds l IH]; [reflexivity |].
  simpl. replace (keepDataset toLowerCase searchQuery fs ds) with false; [exact IH |].
  symmetry. unfold keepDataset.
  destruct (Js.truthy searchQuery && _); [reflexivity |].
  apply not_true_is_false. intros Hall. rewrite forallb_forall in Hall.
  specialize (Hall _ Hentry). cbn [fst snd] in Hall.
  now rewrite (facetMatch_unknown_key _ vs ds Hkey) in Hall.
Qed.

Lemma unknown_key_filters_out_everything_witness :
  applyFilters (fun s => s)
    (this (fst (toggleFilterSelection "colour" "red" (initialWorld [recordA; recordB]))))
    "" = Some [].
Proof.
  destruct (applyFilters (fun s => s)
              (this (fst (toggleFilterSelection "colour" "red"
                            (initialWorld [recordA; recordB])))) "")
    as [kept |] eqn:E.
  - f_equal.
    apply (unknown_key_filters_out_everything (fun s => s)
             (this (fst (toggleFilterSelection "colour" "red"
                           (initialWorld [recordA; recordB]))))
             "" "colour:red" kept).
    + left. reflexivity.
    + simpl. intros [H | [H | [H | [H | [H | []]]]]]; discriminate.
    + exact E.
  - vm_compute in E. discriminate.
Defined.

(** ** Selecting and clearing a whole group *)

Lemma nodeFlaggedIds_eq (groupKey value : string) (ch : HierarchyMap) (leaf : bool) :
  nodeFlaggedIds groupKey value (mkNode ch leaf)
  = ((if leaf then [filterIdOf groupKey value] else []) ++ flaggedIds groupKey ch)%list.
Proof. reflexivity. Qed.

Lemma selectAllInNode_flaggedIds (n : HierarchyNode) :
  forall groupKey parentPath value sel,
    selectAllInNode groupKey parentPath value n sel
    = fold_left (fun acc id => selectId id acc) (nodeFlaggedIds groupKey value n) sel.
Proof.
  induction n as [ch leaf IH] using HierarchyNode_forall_ind.
  intros groupKey parentPath value sel.
  rewrite selectAllInNode_eq, nodeFlaggedIds_eq, fold_left_app.
  replace (fold_left (fun acc id => selectId id acc)
             (if leaf then [filterIdOf groupKey value] else []) sel)
    with (if leaf then selectId (filterIdOf groupKey value) sel else sel)
    by (destruct leaf; reflexivity).
  generalize (if leaf then selectId (filterIdOf groupKey value) sel else sel).
  generalize (fullPathOf parentPath value).
  unfold selectAllInHierarchy, flaggedIds.
  induction IH as [| [v n] ch Hn _ IHch]; intros pp acc; [reflexivity |].
  cbn [fold_left flat_map fst snd]. rewrite fold_left_app.
  simpl in Hn. rewrite Hn. apply IHch.
Qed.

Lemma selectAllInHierarchy_flaggedIds (groupKey : string) (m : HierarchyMap)
    (parentPath : string) (sel : StrSet.t) :
  selectAllInHierarchy groupKey m parentPath sel
  = fold_left (fun acc id => selectId id acc) (flaggedIds groupKey m) sel.
Proof.
  unfold selectAllInHierarchy, flaggedIds. revert sel.
  induction m as [| [v n] m IH]; intros sel; [reflexivity |].
  cbn [fold_left flat_map fst snd]. rewrite fold_left_app, selectAllInNode_flaggedIds.
  apply IH.
Qed.

Lemma nodeFlaggedIds_descendant (n : HierarchyNode) :
  forall groupKey value id,
    In id (nodeFlaggedIds groupKey value n) ->
    (isLeaf n = true /\ id = filterIdOf groupKey value) \/
    exists v' n', descendant (children n) v' n' /\ isLeaf n' = true
                  /\ id = filterIdOf groupKey v'.
Proof.
  induction n as [ch leaf IH] using HierarchyNode_forall_ind.
  intros groupKey value id. rewrite nodeFlaggedIds_eq. intros Hin.
  apply in_app_or in Hin. destruct Hin as [Hin | Hin].
  - left. simpl. destruct leaf; [| contradiction].
    destruct Hin as [<- | []]. now split.
  - right. unfold flaggedIds in Hin. apply in_flat_map in Hin.
    destruct Hin as [[v n] [Hvn Hid]]. rewrite Forall_forall in IH.
    destruct (IH _ Hvn groupKey v id Hid) as [[Ht ->] | [v' [n' [Hd [Ht ->]]]]].
    + exists v, n. split; [now apply DescHere | now split].
    + exists v', n'. split; [| now split]. simpl. now apply (DescBelow ch v n).
Qed.

Lemma In_flaggedIds (groupKey : string) (m : HierarchyMap) (id : string) :
  In id (flaggedIds groupKey m) <->
  exists v n, descendant m v n /\ isLeaf n = true /\ id = filterIdOf groupKey v.
Proof.
  split.
  - unfold flaggedIds. intros Hin. apply in_flat_map in Hin.
    destruct Hin as [[v n] [Hvn Hid]].
    destruct (nodeFlaggedIds_descendant n groupKey v id Hid)
      as [[Ht ->] | [v' [n' [Hd [Ht ->]]]]].
    + exists v, n. split; [now apply DescHere | now split].
    + exists v', n'. split; [| now split]. now apply (DescBelow m v n).
  - intros [v [n [Hd [Ht ->]]]]. revert Ht.
    induction Hd as [m v n Hin | m v' n' v n Hin Hdesc IH]; intros Ht;
      unfold flaggedIds; apply in_flat_map.
    + exists (v, n). split; [assumption |]. destruct n as [ch leaf]. simpl in Ht. subst leaf.
      cbn [fst snd]. rewrite nodeFlaggedIds_eq. now left.
    + exists (v', n'). split; [assumption |]. destruct n' as [ch leaf].
      cbn [fst snd]. rewrite nodeFlaggedIds_eq. apply in_or_app. right. now apply IH.
Qed.

Lemma In_fold_selectId_values (groupKey : string) (values : list string) (id : string) :
  forall sel,
    In id (fold_left (fun acc value => selectId (filterIdOf groupKey value) acc) values sel)
    <-> In id sel \/ exists v, In v values /\ id = filterIdOf groupKey v.
Proof.
  induction values as [| v values IH]; intros sel; simpl.
  - split; [tauto | intros [H | [v [[] _]]]; exact H].
  - rewrite IH, In_selectId. split.
    + intros [[-> | H] | [v' [Hin ->]]].
      * right. exists v. split; [now left | reflexivity].
      * now left.
      * right. exists v'. split; [now right | reflexivity].
    + intros [H | [v' [[<- | Hin] ->]]].
      * left. now right.
      * left. now left.
      * right. now exists v'.
Qed.


Lemma selectAllInGroup_ids (groupKey id : string) (w : World) :
  In id (selectedFilters (this (selectAllInGroup groupKey w))) ->
  In id (selectedFilters (this w)) \/ exists v, id = filterIdOf groupKey v.
Proof.
  unfold selectAllInGroup.
  destruct (Js.get (filterGroups (this w)) groupKey) as [[t vs | t tree] | |];
    try (now left).
  - rewrite selected_scheduleFilterUpdate. cbn. rewrite In_fold_selectId_values.
    intros [H | [v [_ ->]]]; [now left | right; now exists v].
  - rewrite selected_scheduleFilterUpdate. cbn.
    rewrite selectAllInHierarchy_flaggedIds, In_fold_selectId, In_flaggedIds.
    intros [H | [v [n [_ [_ ->]]]]]; [now left | right; now exists v].
Qed.

Lemma selectAllInGroup_keeps (groupKey id : string) (w : World) :
  In id (selectedFilters (this w)) ->
  In id (selectedFilters (this (selectAllInGroup groupKey w))).
Proof.
  intros Hin. unfold selectAllInGroup.
  destruct (Js.get (filterGroups (this w)) groupKey) as [[t vs | t tree] | |];
    try assumption.
  - rewrite selected_scheduleFilterUpdate. cbn. apply In_fold_selectId_values. now left.
  - rewrite selected_scheduleFilterUpdate. cbn.
    rewrite selectAllInHierarchy_flaggedIds, In_fold_selectId. now left.
Qed.

(** X7.  For a key without [':'], [clearGroup] undoes [selectAllInGroup]:
    after both, the selected ids are the earlier ones of the other groups,
    whatever the group's values are. *)
Theorem clearGroup_undoes_selectAllInGroup (groupKey : string) (w : World) :
  noColon groupKey = true ->
  forall id,
    In id (selectedFilters (this (clearGroup groupKey (selectAllInGroup groupKey w))))
    <-> In id (selectedFilters (this w)) /\ fst (splitFilterId id) <> groupKey.
Proof.
  intros Hkey id. rewrite In_clearGroup. split.
  - intros [Hin Hne]. split; [| assumption].
    destruct (selectAllInGroup_ids _ _ _ Hin) as [H | [v ->]]; [assumption |].
    exfalso. apply Hne. now apply key_of_filterIdOf.
  - intros [Hin Hne]. split; [now apply selectAllInGroup_keeps | assumption].
Qed.

Lemma clearGroup_undoes_selectAllInGroup_witness :
  In "scene:kitchen"
    (selectedFilters
       (this (clearGroup "robot"
                (selectAllInGroup "robot"
                   (fst (toggleFilterSelection "scene" "kitchen"
                           (initialWorld [recordA; recordB]))))))) /\
  ~ In "robot:arm1"
      (selectedFilters
         (this (clearGroup "robot"
                  (selectAllInGroup "robot"
                     (fst (toggleFilterSelection "scene" "kitchen"
                             (initialWorld [recordA; recordB]))))))).
Proof.
  split.
  - apply (clearGroup_undoes_selectAllInGroup "robot"
             (fst (toggleFilterSelection "scene" "kitchen" (initialWorld [recordA; recordB])))
             eq_refl "scene:kitchen").
    split; [left; reflexivity | intros H; vm_compute in H; discriminate].
  - intros H.
    apply (clearGroup_undoes_selectAllInGroup "robot"
             (fst (toggleFilterSelection "scene" "kitchen" (initialWorld [recordA; recordB])))
             eq_refl "robot:arm1") in H.
    destruct H as [_ H]. apply H. reflexivity.
Defined.

(** ** What [buildFilterGroups] collects *)

Lemma NoDup_add (x : string) (s : StrSet.t) : NoDup s -> NoDup (StrSet.add x s).
Proof.
  intros H. unfold StrSet.add. destruct (StrSet.has x s) eqn:E; [assumption |].
  apply has_false_In in E. apply NoDup_app; [assumption | repeat constructor; simpl; tauto |].
  intros y Hy [<- | []]. contradiction.
Qed.

Lemma In_addAll (xs : list string) (v : string) :
  forall s, In v (addAll xs s) <-> In v s \/ In v xs.
Proof.
  unfold addAll. induction xs as [| x xs IH]; intros s; simpl; [tauto |].
  rewrite IH, In_add. intuition congruence.
Qed.

Lemma NoDup_addAll (xs : list string) : forall s, NoDup s -> NoDup (addAll xs s).
Proof.
  unfold addAll. induction xs as [| x xs IH]; intros s H; simpl; [assumption |].
  apply IH. now apply NoDup_add.
Qed.

Lemma truthy_iff (s : string) : Js.truthy s = true <-> s <> "".
Proof. destruct s; simpl; split; intros H; congruence. Qed.

Lemma collect_scenes (ds : list Dataset) (v : string) :
  forall g,
    (In v (gScene (fold_left collectDataset ds g))
     <-> In v (gScene g) \/ exists d ss, In d ds /\ scenes d = Some ss /\ In v ss) /\
    (NoDup (gScene g) -> NoDup (gScene (fold_left collectDataset ds g))).
Proof.
  induction ds as [| d ds IH]; intros g; simpl.
  - split; [| tauto]. split; [tauto | intros [H | [d [ss [[] _]]]]; exact H].
  - destruct (IH (collectDataset g d)) as [IH1 IH2]. split.
    + rewrite IH1. unfold collectDataset at 1. cbn [gScene].
      destruct (scenes d) as [ss |] eqn:E.
      * rewrite In_addAll. split.
        -- intros [[H | H] | [d' [ss' [Hd Hs]]]];
             [now left | right; exists d, ss; tauto | right; exists d', ss'; tauto].
        -- intros [H | [d' [ss' [[<- | Hd] [Hs Hv]]]]];
             [tauto | left; right; congruence | right; exists d', ss'; tauto].
      * split.
        -- intros [H | [d' [ss' [Hd Hs]]]]; [now left | right; exists d', ss'; tauto].
        -- intros [H | [d' [ss' [[<- | Hd] [Hs Hv]]]]];
             [tauto | congruence | right; exists d', ss'; tauto].
    + intros Hnd. apply IH2. unfold collectDataset. cbn [gScene].
      destruct (scenes d); [now apply NoDup_addAll | assumption].
Qed.

Lemma collect_actions (ds : list Dataset) (v : string) :
  forall g,
    (In v (gAction (fold_left collectDataset ds g))
     <-> In v (gAction g) \/ exists d acts, In d ds /\ actions d = Some acts /\ In v acts) /\
    (NoDup (gAction g) -> NoDup (gAction (fold_left collectDataset ds g))).
Proof.
  induction ds as [| d ds IH]; intros g; simpl.
  - split; [| tauto]. split; [tauto | intros [H | [d [ss [[] _]]]]; exact H].
  - destruct (IH (collectDataset g d)) as [IH1 IH2]. split.
    + rewrite IH1. unfold collectDataset at 1. cbn [gAction].
      destruct (actions d) as [ss |] eqn:E.
      * rewrite In_addAll. split.
        -- intros [[H | H] | [d' [ss' [Hd Hs]]]];
             [now left | right; exists d, ss; tauto | right; exists d', ss'; tauto].
        -- intros [H | [d' [ss' [[<- | Hd] [Hs Hv]]]]];
             [tauto | left; right; congruence | right; exists d', ss'; tauto].
      * split.
        -- intros [H | [d' [ss' [Hd Hs]]]]; [now left | right; exists d', ss'; tauto].
        -- intros [H | [d' [ss' [[<- | Hd] [Hs Hv]]]]];
             [tauto | congruence | right; exists d', ss'; tauto].
    + intros Hnd. apply IH2. unfold collectDataset. cbn [gAction].
      destruct (actions d); [now apply NoDup_addAll | assumption].
Qed.

(** The robot tags a record contributes: a single non-empty tag, or every
    tag of an array. *)
Lemma collect_robots (ds : list Dataset) (v : string) :
  forall g,
    (In v (gRobot (fold_left collectDataset ds g))
     <-> In v (gRobot g) \/
         exists d, In d ds /\
                   ((robot d = RobotOne v /\ v <> "") \/
                    exists rs, robot d = RobotMany rs /\ In v rs)) /\
    (NoDup (gRobot g) -> NoDup (gRobot (fold_left collectDataset ds g))).
Proof.
  induction ds as [| d ds IH]; intros g; simpl.
  - split; [| tauto]. split; [tauto | intros [H | [d [[] _]]]; exact H].
  - destruct (IH (collectDataset g d)) as [IH1 IH2]. split.
    + rewrite IH1. unfold collectDataset at 1. cbn [gRobot].
      assert (Hstep : In v match robot d with
                           | RobotMissing => gRobot g
                           | RobotOne r => if Js.truthy r then StrSet.add r (gRobot g)
                                           else gRobot g
                           | RobotMany rs => addAll rs (gRobot g)
                           end
                      <-> In v (gRobot g) \/
                          ((robot d = RobotOne v /\ v <> "") \/
                           exists rs, robot d = RobotMany rs /\ In v rs)).
      { destruct (robot d) as [| r | rs].
        - split; [tauto |]. intros [H | [[H _] | [rs [H _]]]]; [exact H | |]; discriminate.
        - destruct (Js.truthy r) eqn:Et.
          + rewrite In_add. apply truthy_iff in Et. split.
            * intros [-> | H]; [right; left; now split | now left].
            * intros [H | [[H _] | [rs [H _]]]];
                [now right | injection H as ->; now left | discriminate].
          + split; [tauto |]. intros [H | [[H Hne] | [rs [H _]]]]; [exact H | | discriminate].
            injection H as ->. apply truthy_iff in Hne. congruence.
        - rewrite In_addAll. split.
          + intros [H | H]; [now left | right; right; now exists rs].
          + intros [H | [[H _] | [rs' [H Hin]]]];
              [now left | discriminate | injection H as ->; now right]. }
      rewrite Hstep. split.
      * intros [[H | H] | [d' [Hd H]]];
          [now left | right; exists d; tauto | right; exists d'; tauto].
      * intros [H | [d' [[<- | Hd] H]]]; [tauto | tauto | right; exists d'; tauto].
    + intros Hnd. apply IH2. unfold collectDataset. cbn [gRobot].
      destruct (robot d) as [| r | rs];
        [assumption | destruct (Js.truthy r); [now apply NoDup_add | assumption]
         | now apply NoDup_addAll].
Qed.

Lemma collect_ends (ds : list Dataset) (v : string) :
  forall g,
    (In v (gEnd (fold_left collectDataset ds g))
     <-> In v (gEnd g) \/ exists d, In d ds /\ endEffector d = Some v /\ v <> "") /\
    (NoDup (gEnd g) -> NoDup (gEnd (fold_left collectDataset ds g))).
Proof.
  induction ds as [| d ds IH]; intros g; simpl.
  - split; [| tauto]. split; [tauto | intros [H | [d [[] _]]]; exact H].
  - destruct (IH (collectDataset g d)) as [IH1 IH2]. split.
    + rewrite IH1. unfold collectDataset at 1. cbn [gEnd].
      assert (Hstep : In v match endEffector d with
                           | Some e => if Js.truthy e then StrSet.add e (gEnd g) else gEnd g
                           | None => gEnd g
                           end
                      <-> In v (gEnd g) \/ (endEffector d = Some v /\ v <> "")).
      { destruct (endEffector d) as [e |].
        - destruct (Js.truthy e) eqn:Et.
          + rewrite In_add. apply truthy_iff in Et. split.
            * intros [-> | H]; [right; now split | now left].
            * intros [H | [H _]]; [now right | injection H as ->; now left].
          + split; [tauto |]. intros [H | [H Hne]]; [exact H |].
            injection H as ->. apply truthy_iff in Hne. congruence.
        - split; [tauto |]. intros [H | [H _]]; [exact H | discriminate]. }
      rewrite Hstep. split.
      * intros [[H | H] | [d' [Hd H]]];
          [now left | right; exists d; tauto | right; exists d'; tauto].
      * intros [H | [d' [[<- | Hd] H]]]; [tauto | tauto | right; exists d'; tauto].
    + intros Hnd. apply IH2. unfold collectDataset. cbn [gEnd].
      destruct (endEffector d) as [e |]; [| assumption].
      destruct (Js.truthy e); [now apply NoDup_add | assumption].
Qed.

(** X8.  The flat groups that [buildFilterGroups] builds hold exactly the
    values of the records, each once: the scene and action groups every
    tag of every record; the robot group every tag of an array-valued
    [robot] and every non-empty single [robot]; the end-effector group
    every non-empty [endEffector].  Records without the field contribute
    nothing. *)
Theorem flat_groups_hold_the_record_values (ds : list Dataset) :
  let g := collectGroups ds in
  filterGroups (buildFilterGroups (constructor ds)) = groupsObject g /\
  (forall v, In v (gScene g) <-> exists d ss, In d ds /\ scenes d = Some ss /\ In v ss) /\
  (forall v, In v (gRobot g) <->
             exists d, In d ds /\
                       ((robot d = RobotOne v /\ v <> "") \/
                        exists rs, robot d = RobotMany rs /\ In v rs)) /\
  (forall v, In v (gEnd g) <-> exists d, In d ds /\ endEffector d = Some v /\ v <> "") /\
  (forall v, In v (gAction g) <->
             exists d acts, In d ds /\ actions d = Some acts /\ In v acts) /\
  NoDup (gScene g) /\ NoDup (gRobot g) /\ NoDup (gEnd g) /\ NoDup (gAction g).
Proof.
  intros g. subst g. unfold collectGroups.
  set (g0 := {| gScene := []; gRobot := []; gEnd := []; gAction := []; gObject := [] |}).
  split; [reflexivity |].
  split; [intros v; rewrite (proj1 (collect_scenes ds v g0)); simpl; tauto |].
  split; [intros v; rewrite (proj1 (collect_robots ds v g0)); simpl; tauto |].
  split; [intros v; rewrite (proj1 (collect_ends ds v g0)); simpl; tauto |].
  split; [intros v; rewrite (proj1 (collect_actions ds v g0)); simpl; tauto |].
  split; [apply (proj2 (collect_scenes ds "" g0)); constructor |].
  split; [apply (proj2 (collect_robots ds "" g0)); constructor |].
  split; [apply (proj2 (collect_ends ds "" g0)); constructor |].
  apply (proj2 (collect_actions ds "" g0)); constructor.
Qed.

(** ** The tree only grows *)

Lemma mapGet_app_present (k : string) (m extra : HierarchyMap) (n : HierarchyNode) :
  mapGet k m = Some n -> mapGet k (m ++ extra)%list = Some n.
Proof.
  induction m as [| [k' n'] m IH]; simpl; [discriminate |].
  destruct (String.eqb k' k); [tauto | assumption].
Qed.

Lemma mapGet_mapReplace_other (k k' : string) (n : HierarchyNode) (m : HierarchyMap) :
  k <> k' -> mapGet k' (mapReplace k n m) = mapGet k' m.
Proof.
  intros Hne. induction m as [| [k0 n0] m IH]; simpl; [reflexivity |].
  destruct (String.eqb_spec k0 k) as [-> | Hk]; simpl.
  - destruct (String.eqb_spec k k'); [contradiction | reflexivity].
  - now rewrite IH.
Qed.

Lemma mapReplace_same (k : string) (n : HierarchyNode) (m : HierarchyMap) :
  mapGet k m = Some n -> mapReplace k n m = m.
Proof.
  induction m as [| [k' n'] m IH]; simpl; [reflexivity |].
  destruct (String.eqb k' k); intros H; [congruence | now rewrite IH].
Qed.

(** [addToHierarchy] keeps every node that a path reached before it, with
    the flag the node had. *)
Lemma addToHierarchy_keeps_nodes (levels : list string) :
  forall m segments n,
    walkPath m segments = Some n ->
    exists n', walkPath (addToHierarchy m levels) segments = Some n'
               /\ isLeaf n' = isLeaf n.
Proof.
  induction levels as [| level rest IH]; intros m segments n Hwalk.
  - exists n. now split.
  - destruct segments as [| seg segs]; [discriminate |].
    cbn [walkPath] in Hwalk. cbn [addToHierarchy walkPath].
    destruct (mapGet seg m) as [node0 |] eqn:Eseg; [| discriminate].
    destruct (mapGet level m) as [node |] eqn:Elevel.
    + destruct (String.eqb_spec level seg) as [-> | Hne].
      * rewrite (mapGet_mapReplace seg _ node m Elevel).
        assert (node0 = node) by congruence. subst node0.
        destruct segs as [| seg' segs].
        -- injection Hwalk as <-. eexists. split; reflexivity.
        -- cbn [children]. now apply IH.
      * rewrite (mapGet_mapReplace_other level seg _ m Hne), Eseg.
        exists n. now split.
    + rewrite (mapGet_app_present seg m _ node0 Eseg). exists n. now split.
Qed.

Lemma objects_keep_nodes (objs : list DatasetObject) :
  forall m segments n,
    walkPath m segments = Some n ->
    exists n', walkPath (fold_left (fun acc obj => addToHierarchy acc (hierarchy obj)) objs m)
                 segments = Some n'
               /\ isLeaf n' = isLeaf n.
Proof.
  induction objs as [| obj objs IH]; intros m segments n Hwalk; simpl.
  - exists n. now split.
  - destruct (addToHierarchy_keeps_nodes (hierarchy obj) m segments n Hwalk) as [n1 [H1 L1]].
    destruct (IH _ _ _ H1) as [n2 [H2 L2]]. exists n2. split; [assumption | congruence].
Qed.

Lemma datasets_keep_nodes (ds : list Dataset) :
  forall g segments n,
    walkPath (gObject g) segments = Some n ->
    exists n', walkPath (gObject (fold_left collectDataset ds g)) segments = Some n'
               /\ isLeaf n' = isLeaf n.
Proof.
  induction ds as [| d ds IH]; intros g segments n Hwalk; simpl.
  - exists n. now split.
  - assert (H1 : exists n1, walkPath (gObject (collectDataset g d)) segments = Some n1
                            /\ isLeaf n1 = isLeaf n).
    { unfold collectDataset. cbn [gObject]. destruct (objects d) as [objs |].
      - now apply objects_keep_nodes.
      - exists n. now split. }
    destruct H1 as [n1 [H1 L1]]. destruct (IH _ _ _ H1) as [n2 [H2 L2]].
    exists n2. split; [assumption | congruence].
Qed.

(** X9.  The object path of every record resolves in the tree that
    [buildFilterGroups] builds: walking the tree along the (non-empty)
    hierarchy of any object of any record reaches a node. *)
Theorem built_tree_resolves_every_record_path (ds : list Dataset) (d : Dataset)
    (objs : list DatasetObject) (obj : DatasetObject) :
  In d ds -> objects d = Some objs -> In obj objs -> hierarchy obj <> [] ->
  exists n, walkPath (gObject (collectGroups ds)) (hierarchy obj) = Some n.
Proof.
  intros Hd Hobjs Hobj Hne. unfold collectGroups.
  generalize {| gScene := []; gRobot := []; gEnd := []; gAction := []; gObject := [] |}.
  induction ds as [| d0 ds IH]; intros g; [contradiction |].
  simpl. destruct Hd as [-> | Hd]; [| now apply IH].
  assert (H1 : exists n1, walkPath (gObject (collectDataset g d)) (hierarchy obj) = Some n1).
  { unfold collectDataset. cbn [gObject]. rewrite Hobjs.
    generalize (gObject g). clear -Hobj Hne.
    induction objs as [| o objs IHo]; intros m; [contradiction |].
    simpl. destruct Hobj as [-> | Hobj]; [| now apply IHo].
    destruct (addToHierarchy_final_node (hierarchy obj) m Hne) as [n [Hn _]].
    destruct (objects_keep_nodes objs _ _ _ Hn) as [n' [Hn' _]]. now exists n'. }
  destruct H1 as [n1 H1].
  destruct (datasets_keep_nodes ds _ _ _ H1) as [n2 [H2 _]]. now exists n2.
Qed.

Lemma built_tree_resolves_every_record_path_witness :
  exists n,
    walkPath (gObject (collectGroups [objectRecord ["a"; "b"]; objectRecord ["a"; "c"; "d"]]))
      ["a"; "c"; "d"] = Some n.
Proof.
  apply (built_tree_resolves_every_record_path
           [objectRecord ["a"; "b"]; objectRecord ["a"; "c"; "d"]]
           (objectRecord ["a"; "c"; "d"])
           [ {| hierarchy := ["a"; "c"; "d"] |} ]
           {| hierarchy := ["a"; "c"; "d"] |}).
  - right. left. reflexivity.
  - reflexivity.
  - left. reflexivity.
  - discriminate.
Defined.

Lemma collectGroups_app (ds extra : list Dataset) :
  collectGroups (ds ++ extra) = fold_left collectDataset extra (collectGroups ds).
Proof. unfold collectGroups. apply fold_left_app. Qed.

(** X10.  Loading more records never removes a node of the tree and
    never changes the [isLeaf] flag of a node that exists: a node keeps the
    flag it got when it was created. *)
Theorem more_records_keep_nodes_and_flags (ds extra : list Dataset)
    (segments : list string) (n : HierarchyNode) :
  walkPath (gObject (collectGroups ds)) segments = Some n ->
  exists n', walkPath (gObject (collectGroups (ds ++ extra))) segments = Some n'
             /\ isLeaf n' = isLeaf n.
Proof.
  intros Hwalk. rewrite collectGroups_app. now apply datasets_keep_nodes.
Qed.

Lemma more_records_keep_nodes_and_flags_witness :
  exists n',
    walkPath (gObject (collectGroups ([objectRecord ["a"; "b"]] ++ [objectRecord ["a"]])))
      ["a"] = Some n'
    /\ isLeaf n' = false.
Proof.
  apply (more_records_keep_nodes_and_flags [objectRecord ["a"; "b"]] [objectRecord ["a"]]
           ["a"] (mkNode [("b", mkNode [] true)] false)).
  reflexivity.
Defined.

(** X11.  Threading the same path twice changes nothing the second time:
    a record that repeats a path of an earlier record leaves the tree as it
    is. *)
Theorem addToHierarchy_twice_is_once (levels : list string) :
  forall m, addToHierarchy (addToHierarchy m levels) levels = addToHierarchy m levels.
Proof.
  induction levels as [| level rest IH]; intros m; [reflexivity |].
  cbn [addToHierarchy]. destruct (mapGet level m) as [node |] eqn:E.
  - rewrite (mapGet_mapReplace level _ node m E). cbn [children isLeaf]. rewrite IH.
    apply mapReplace_same. now apply (mapGet_mapReplace level _ node m).
  - rewrite (mapGet_app_absent level _ m E). cbn [children isLeaf]. rewrite IH.
    apply mapReplace_same. now apply mapGet_app_absent.
Qed.

(** ** One pending update, one pending tooltip *)

Lemma filter_nil_iff {A : Type} (f : A -> bool) (l : list A) :
  filter f l = [] <-> forall x, In x l -> f x = false.
Proof.
  induction l as [| a l IH]; simpl.
  - split; [intros _ x [] | reflexivity].
  - destruct (f a) eqn:E.
    + split; [discriminate |]. intros H. specialize (H a (or_introl eq_refl)). congruence.
    + rewrite IH. split.
      * intros H x [<- | Hx]; [assumption | now apply H].
      * intros H x Hx. apply H. now right.
Qed.

Lemma filter_filter_same {A : Type} (g h : A -> bool) (l : list A) :
  (forall x, In x l -> g x = true -> h x = true) ->
  filter g (filter h l) = filter g l.
Proof.
  induction l as [| a l IH]; simpl; intros H; [reflexivity |].
  assert (IH' : filter g (filter h l) = filter g l)
    by (apply IH; intros x Hx; apply H; now right).
  destruct (h a) eqn:Eh; simpl.
  - now rewrite IH'.
  - destruct (g a) eqn:Eg; [| assumption].
    specialize (H a (or_introl eq_refl) Eg). congruence.
Qed.

Lemma isUpdateTimer_task (t : Timer) :
  isUpdateTimer t = true <-> timerTask t = FilterUpdateTask.
Proof.
  unfold isUpdateTimer. destruct (timerTask t); split; intros H; congruence.
Qed.

Lemma isUpdateTimer_false (t : Timer) :
  isUpdateTimer t = false <-> timerTask t <> FilterUpdateTask.
Proof.
  unfold isUpdateTimer. destruct (timerTask t); split; intros H; congruence.
Qed.











(** ** The tooltip's timeout *)

Lemma tooltipOk_subset (w w' : World) :
  (forall t, In t (timers (host w')) -> isUpdateTimer t = false -> In t (timers (host w))) ->
  tooltipTimeout (this w') = tooltipTimeout (this w) ->
  tooltipOk w -> tooltipOk w'.
Proof.
  intros Hsub Heq Hok t Ht Hu. rewrite Heq. apply Hok; [now apply Hsub | assumption].
Qed.

Lemma tooltipOk_scheduleFilterUpdate (w : World) :
  tooltipOk w -> tooltipOk (scheduleFilterUpdate w).
Proof.
  apply tooltipOk_subset; [| reflexivity].
  intros t Ht Hu. unfold scheduleFilterUpdate in Ht.
  destruct (pendingFilterUpdate (this w)) as [p |]; simpl in Ht;
    apply in_app_or in Ht; destruct Ht as [Ht | [<- | []]]; try discriminate.
  - apply filter_In in Ht. tauto.
  - assumption.
Qed.

Lemma tooltipOk_showTooltip (k v : string) (w : World) :
  tooltipOk w -> tooltipOk (showTooltip k v w).
Proof.
  intros Hok. unfold showTooltip. destruct (tooltipElement (this w)) as [tip |]; [| assumption].
  intros t Ht Hu. cbn [this tooltipTimeout withTooltipTimeout].
  assert (Hcases : (In t (timers (host w))
                    /\ forall q, tooltipTimeout (this w) = Some q -> timerId t <> q)
                   \/ timerId t = fst (setTimeout (TooltipTask k v)
                                         (tooltipDelay (host w))
                                         match tooltipTimeout (this w) with
                                         | Some id => clearTimeout id (host w)
                                         | None => host w
                                         end)).
  { destruct (tooltipTimeout (this w)) as [q |]; simpl in Ht;
      apply in_app_or in Ht; destruct Ht as [Ht | [<- | []]];
      try (right; reflexivity).
    - left. apply filter_In in Ht. destruct Ht as [Ht Hq]. split; [assumption |].
      intros q' Hq'. injection Hq' as <-. now apply negb_true_iff, Pos.eqb_neq in Hq.
    - left. split; [assumption | discriminate]. }
  destruct Hcases as [[Hin Hne] | Hid].
  - exfalso. specialize (Hok t Hin Hu). now apply (Hne _ Hok).
  - destruct (tooltipTimeout (this w)); simpl in *; now rewrite Hid.
Qed.

Lemma tooltipOk_hideTooltip (w : World) : tooltipOk w -> tooltipOk (hideTooltip w).
Proof.
  intros Hok t Ht Hu. exfalso. unfold hideTooltip in Ht.
  destruct (tooltipTimeout (this w)) as [q |] eqn:E.
  - assert (Hin : In t (timers (clearTimeout q (host w)))).
    { cbn [this] in Ht. destruct (tooltipElement (withTooltipTimeout None (this w)));
        exact Ht. }
    apply In_clearTimeout in Hin. destruct Hin as [Hin Hne].
    specialize (Hok t Hin Hu). congruence.
  - assert (Hin : In t (timers (host w))) by (destruct (tooltipElement (this w)); exact Ht).
    specialize (Hok t Hin Hu). congruence.
Qed.

Lemma tooltipOk_timerFires (w w' : World) : tooltipOk w -> timerFires w w' -> tooltipOk w'.
Proof.
  intros Hok Hfire. destruct Hfire as [w t0 Ht0]. revert Hok. apply tooltipOk_subset.
  - intros t Ht _. destruct (timerTask t0); simpl in Ht.
    + unfold filterUpdateCallback in Ht. simpl in Ht.
      apply filter_In in Ht. tauto.
    + unfold tooltipCallback in Ht. simpl in Ht.
      destruct (tooltipElement (this w)); simpl in Ht; apply filter_In in Ht; tauto.
  - destruct (timerTask t0); simpl.
    + unfold filterUpdateCallback. simpl. now destruct (tooltipElement (this w)).
    + unfold tooltipCallback. simpl. now destruct (tooltipElement (this w)).
Qed.

(** In every reachable state an armed tooltip timeout is the one whose
    handle [tooltipTimeout] holds. *)
Lemma reachable_tooltipOk (w : World) : reachable w -> tooltipOk w.
Proof.
  induction 1.
  - intros t [].
  - exact IHreachable.
  - now apply tooltipOk_scheduleFilterUpdate.
  - now apply tooltipOk_scheduleFilterUpdate.
  - revert IHreachable. apply tooltipOk_subset.
    + intros t Ht _. unfold resetFilters in Ht.
      destruct (pendingFilterUpdate (this w)); simpl in Ht; [| assumption].
      apply filter_In in Ht. tauto.
    + unfold resetFilters. now destruct (pendingFilterUpdate (this w)).
  - exact IHreachable.
  - unfold selectAllInGroup. case_group; try assumption;
      now apply tooltipOk_scheduleFilterUpdate.
  - now apply tooltipOk_scheduleFilterUpdate.
  - unfold selectAllChildrenInHierarchy. case_group; try assumption.
    destruct (findHierarchyNode _ _); [| assumption].
    now apply tooltipOk_scheduleFilterUpdate.
  - unfold clearAllChildrenInHierarchy. case_group; try assumption.
    destruct (findHierarchyNode _ _); [| assumption].
    now apply tooltipOk_scheduleFilterUpdate.
  - revert IHreachable. apply tooltipOk_subset; [tauto |].
    unfold onThis, searchFilterOptions. simpl.
    destruct allOptions; [| reflexivity].
    destruct (negb (Js.truthy query)); [reflexivity |].
    now destruct (0 <? _)%nat.
  - revert IHreachable. apply tooltipOk_subset; [tauto |].
    unfold onThis, navigateFilterMatch. simpl. now destruct (_ =? 0)%Z.
  - exact IHreachable.
  - revert IHreachable. apply tooltipOk_subset; [tauto |].
    unfold onThis, initializeTooltips. simpl. now destruct (tooltipElement (this w)).
  - now apply tooltipOk_showTooltip.
  - now apply tooltipOk_hideTooltip.
  - now apply (tooltipOk_timerFires w w').
Qed.

Lemma tooltipHidden_hideTooltip (w : World) : tooltipHidden (this (hideTooltip w)) = true.
Proof.
  unfold hideTooltip, tooltipHidden.
  destruct (tooltipTimeout (this w)); simpl;
    destruct (tooltipElement (this w)) eqn:E; simpl; rewrite ?E; reflexivity.
Qed.

Lemma timersRun_without_tooltip (w1 w2 : World) :
  timersRun w1 w2 ->
  pendingTooltips (host w1) = [] ->
  tooltipElement (this w2) = tooltipElement (this w1) /\ pendingTooltips (host w2) = [].
Proof.
  induction 1 as [w | w1 w2 w3 Hfire Hrun IH]; intros Hno; [now split |].
  destruct Hfire as [w t Ht].
  assert (Hu : isUpdateTimer t = true).
  { unfold pendingTooltips in Hno. rewrite filter_nil_iff in Hno.
    specialize (Hno t Ht). now apply negb_false_iff in Hno. }
  apply isUpdateTimer_task in Hu. rewrite Hu in *.
  destruct IH as [IH1 IH2].
  - cbn [runTask]. unfold filterUpdateCallback. cbn [host].
    unfold pendingTooltips in *. cbn [timers dispatchFiltersChanged clearTimeout].
    rewrite filter_nil_iff in *. intros x Hx. apply filter_In in Hx. now apply Hno.
  - split; [| assumption]. rewrite IH1. cbn [runTask]. unfold filterUpdateCallback.
    cbn [this]. destruct (tooltipElement (this w)) eqn:E; simpl; rewrite ?E; reflexivity.
Qed.

(** ** Which calls cancel which timeout *)

Lemma pendingTooltips_clear_update (p : TimerId) (tt : option TimerId) (h : Host) :
  timersOk (Some p) tt h -> pendingTooltips (clearTimeout p h) = pendingTooltips h.
Proof.
  intros [Hnd [_ [_ [Hpend _]]]]. unfold pendingTooltips, clearTimeout. cbn [timers].
  apply filter_filter_same. intros x Hx Hxu.
  apply negb_true_iff, Pos.eqb_neq. intros Hid.
  destruct (Hpend p eq_refl) as [t [Ht [Hidt Htask]]].
  assert (Heq : x = t) by (apply (timer_unique _ x t Hnd Hx Ht); congruence).
  subst x. apply isUpdateTimer_task in Htask. rewrite Htask in Hxu. discriminate.
Qed.

Lemma tooltip_scheduleFilterUpdate (w : World) :
  worldOk w ->
  tooltipTimeout (this (scheduleFilterUpdate w)) = tooltipTimeout (this w) /\
  pendingTooltips (host (scheduleFilterUpdate w)) = pendingTooltips (host w).
Proof.
  intros Hok. unfold worldOk in Hok. unfold scheduleFilterUpdate.
  destruct (pendingFilterUpdate (this w)) as [p |]; cbn [setTimeout this host];
    (split; [reflexivity |]); unfold pendingTooltips at 1; cbn [timers];
    rewrite filter_app; cbn [filter isUpdateTimer timerTask negb]; rewrite app_nil_r.
  - exact (pendingTooltips_clear_update p _ _ Hok).
  - reflexivity.
Qed.

Lemma tooltip_resetFilters (w : World) :
  worldOk w ->
  tooltipTimeout (this (resetFilters w)) = tooltipTimeout (this w) /\
  pendingTooltips (host (resetFilters w)) = pendingTooltips (host w).
Proof.
  intros Hok. unfold worldOk in Hok. unfold resetFilters.
  destruct (pendingFilterUpdate (this w)) as [p |]; cbn; (split; [reflexivity |]).
  - exact (pendingTooltips_clear_update p _ _ Hok).
  - reflexivity.
Qed.

Ltac by_schedule Hok :=
  match goal with
  | |- context [scheduleFilterUpdate ?w1] => exact (tooltip_scheduleFilterUpdate w1 Hok)
  end.

(** A call other than [showTooltip] and [hideTooltip] leaves the tooltip's
    handle and the armed tooltip timeouts as they are. *)
Lemma tooltip_other_calls (c : Call) (w : World) :
  worldOk w -> clearsTooltipTimeout c = false ->
  tooltipTimeout (this (perform c w)) = tooltipTimeout (this w) /\
  pendingTooltips (host (perform c w)) = pendingTooltips (host w).
Proof.
  intros Hok Hc.
  destruct c as [| k v | filterId | | groupKey | groupKey | groupKey p | groupKey p
                 | toLowerCase allOptions query | direction | | | k v |];
    try discriminate; cbn [perform].
  - split; reflexivity.
  - unfold toggleFilterSelection. cbn [fst].
    by_schedule Hok.
  - unfold removeFilterTagById. by_schedule Hok.
  - now apply tooltip_resetFilters.
  - unfold selectAllInGroup. case_group; try (split; reflexivity).
    + by_schedule Hok.
    + by_schedule Hok.
    + by_schedule Hok.
  - unfold clearGroup. by_schedule Hok.
  - unfold selectAllChildrenInHierarchy. case_group; try (split; reflexivity).
    destruct (findHierarchyNode _ _); [| split; reflexivity].
    by_schedule Hok.
  - unfold clearAllChildrenInHierarchy. case_group; try (split; reflexivity).
    destruct (findHierarchyNode _ _); [| split; reflexivity].
    by_schedule Hok.
  - split; [| reflexivity]. unfold onThis, searchFilterOptions. simpl.
    destruct allOptions; [| reflexivity].
    destruct (negb (Js.truthy query)); [reflexivity |].
    now destruct (0 <? _)%nat.
  - split; [| reflexivity]. unfold onThis, navigateFilterMatch. simpl.
    now destruct (_ =? 0)%Z.
  - split; reflexivity.
  - split; [| reflexivity]. unfold onThis, initializeTooltips. simpl.
    now destruct (tooltipElement (this w)).
Qed.

Lemma pendingTooltips_hideTooltip (w : World) :
  tooltipOk w -> pendingTooltips (host (hideTooltip w)) = [].
Proof.
  intros Hok. apply filter_nil_iff. intros t Ht. apply negb_false_iff.
  destruct (isUpdateTimer t) eqn:Eu; [reflexivity |].
  pose proof (tooltipOk_hideTooltip w Hok t Ht Eu) as Hq.
  unfold hideTooltip in Hq.
  destruct (tooltipTimeout (this w)) eqn:E; cbn [this] in Hq.
  - destruct (tooltipElement (withTooltipTimeout None (this w))); discriminate.
  - destruct (tooltipElement (this w)); simpl in Hq; congruence.
Qed.

(** With a tooltip element, [showTooltip] cancels the tooltip timeout that
    was armed. *)
Lemma showTooltip_drops_old_tooltip (k v : string) (w : World) (t : Timer) :
  worldOk w -> tooltipOk w -> tooltipElement (this w) <> None ->
  In t (pendingTooltips (host w)) -> ~ In t (timers (host (showTooltip k v w))).
Proof.
  intros [_ [Hlt _]] Htok Hel Ht Hin.
  apply filter_In in Ht. destruct Ht as [Ht Hu]. apply negb_true_iff in Hu.
  pose proof (Htok t Ht Hu) as Hq. pose proof (Hlt t Ht) as Hbelow.
  unfold showTooltip in Hin.
  destruct (tooltipElement (this w)); [| contradiction].
  rewrite Hq in Hin. cbn [setTimeout host timers] in Hin.
  apply in_app_or in Hin. destruct Hin as [Hin | [Heq | []]].
  - apply In_clearTimeout in Hin. destruct Hin as [_ Hne]. now apply Hne.
  - rewrite <- Heq in Hbelow. cbn [timerId clearTimeout nextTimerId] in Hbelow. lia.
Qed.

(** A filter update that fires leaves the armed tooltip timeouts alone. *)
Lemma tooltip_update_fires (w : World) (t : Timer) :
  worldOk w -> In t (timers (host w)) -> timerTask t = FilterUpdateTask ->
  pendingTooltips
    (host (runTask (timerTask t)
             {| this := this w; host := clearTimeout (timerId t) (host w) |}))
  = pendingTooltips (host w).
Proof.
  intros Hok Ht Htask. rewrite Htask. cbn [runTask]. unfold filterUpdateCallback.
  cbn [host this].
  change (pendingTooltips (dispatchFiltersChanged (clearTimeout (timerId t) (host w))))
    with (pendingTooltips (clearTimeout (timerId t) (host w))).
  apply (pendingTooltips_clear_update _ (tooltipTimeout (this w))).
  unfold worldOk in Hok.
  assert (Hp : pendingFilterUpdate (this w) = Some (timerId t))
    by (destruct Hok as [_ [_ [Hupd _]]]; now apply Hupd).
  rewrite Hp in Hok. exact Hok.
Qed.

(** C8, as the code has it.  In every reachable state, [resetFilters]
    empties the selection and cancels the pending filter update on the
    spot: no filter-update timeout is armed afterwards, so however the
    armed timeouts then fire, no [filtersChanged] event is dispatched by
    them and the selection stays empty.  The tooltip's timeout is not
    touched: its handle stays in [tooltipTimeout] and every armed timeout
    other than the filter update stays armed.  The same holds of every
    call into the manager other than [showTooltip] and [hideTooltip], and
    of a filter update that fires; those two calls are the ones that
    cancel it: after [hideTooltip] no tooltip timeout is armed, and
    [showTooltip], when there is a tooltip element, drops the one that was
    armed. *)
Theorem resetFilters_cancels_pending_update (w : World) :
  reachable w ->
  let w' := resetFilters w in
  selectedFilters (this w') = [] /\
  pendingFilterUpdate (this w') = None /\
  (forall t, In t (timers (host w')) -> timerTask t <> FilterUpdateTask) /\
  (forall w'', timersRun w' w'' ->
     filtersChanged (host w'') = filtersChanged (host w) /\
     selectedFilters (this w'') = []) /\
  tooltipTimeout (this w') = tooltipTimeout (this w) /\
  (forall t, In t (timers (host w)) -> timerTask t <> FilterUpdateTask ->
             In t (timers (host w'))) /\
  (forall c, clearsTooltipTimeout c = false ->
             tooltipTimeout (this (perform c w)) = tooltipTimeout (this w) /\
             pendingTooltips (host (perform c w)) = pendingTooltips (host w)) /\
  (forall t, In t (timers (host w)) -> timerTask t = FilterUpdateTask ->
             pendingTooltips
               (host (runTask (timerTask t)
                        {| this := this w; host := clearTimeout (timerId t) (host w) |}))
             = pendingTooltips (host w)) /\
  pendingTooltips (host (hideTooltip w)) = [] /\
  (forall k v t, tooltipElement (this w) <> None -> In t (pendingTooltips (host w)) ->
                 ~ In t (timers (host (showTooltip k v w)))).
Proof.
  intros Hreach w'. pose proof (reachable_worldOk w Hreach) as Hok.
  destruct Hok as [Hnd [Hlt [Hupd [Hpend Htip]]]].
  assert (Hsel : selectedFilters (this w') = []).
  { subst w'. unfold resetFilters. now destruct (pendingFilterUpdate (this w)). }
  assert (Hnone : forall t, In t (timers (host w')) -> timerTask t <> FilterUpdateTask).
  { subst w'. unfold resetFilters. intros t Ht Htask.
    destruct (pendingFilterUpdate (this w)) as [p |] eqn:E; simpl in Ht.
    - apply In_clearTimeout in Ht. destruct Ht as [Ht Hne].
      specialize (Hupd t Ht Htask). congruence.
    - specialize (Hupd t Ht Htask). discriminate. }
  assert (Hhost : filtersChanged (host w') = filtersChanged (host w)).
  { subst w'. unfold resetFilters. now destruct (pendingFilterUpdate (this w)). }
  split; [exact Hsel | split; [| split; [exact Hnone | split; [| split; [| split; [| split; [| split; [| split]]]]]]]].
  - subst w'. unfold resetFilters. destruct (pendingFilterUpdate (this w)) eqn:E; simpl;
      [reflexivity | exact E].
  - intros w'' Hrun. destruct (timersRun_without_update w' w'' Hrun Hnone) as [H1 H2].
    rewrite H1, H2. now split.
  - subst w'. unfold resetFilters. now destruct (pendingFilterUpdate (this w)).
  - intros t Ht Htask. subst w'. unfold resetFilters.
    destruct (pendingFilterUpdate (this w)) as [p |] eqn:E; simpl; [| assumption].
    apply In_clearTimeout. split; [assumption |]. intros Hid.
    destruct (Hpend p eq_refl) as [t' [Ht' [Hid' Htask']]].
    assert (Heq : t = t') by (apply (timer_unique _ t t' Hnd Ht Ht'); congruence).
    subst t'. contradiction.
  - intros c Hc. apply tooltip_other_calls; [exact (reachable_worldOk w Hreach) | exact Hc].
  - intros t. apply tooltip_update_fires. exact (reachable_worldOk w Hreach).
  - apply pendingTooltips_hideTooltip. now apply reachable_tooltipOk.
  - intros k v t. apply showTooltip_drops_old_tooltip;
      [exact (reachable_worldOk w Hreach) | now apply reachable_tooltipOk].
Qed.


Lemma resetFilters_cancels_pending_update_witness :
  pendingFilterUpdate (this (resetFilters hoverThenToggle)) = None /\
  forall t, In t (timers (host (resetFilters hoverThenToggle))) ->
            timerTask t <> FilterUpdateTask.
Proof.
  assert (Hreach : reachable hoverThenToggle).
  { unfold hoverThenToggle.
    apply ReachToggle, ReachShowTooltip, ReachInitTooltips.
    apply (ReachBuild {| this := constructor [recordA; recordB]; host := initialHost |}).
    apply (ReachNew [recordA; recordB] 300). }
  destruct (resetFilters_cancels_pending_update hoverThenToggle Hreach)
    as [_ [Hpending [Hnone _]]].
  split; [exact Hpending | exact Hnone].
Defined.

(** Against the "every pending timer" of C8: after a hover has armed the
    tooltip's timeout and a toggle the filter update, [resetFilters]
    cancels the latter only; the tooltip's timeout is still armed, and
    when it fires the tooltip is shown. *)
Lemma resetFilters_leaves_tooltip_timer :
  let w := resetFilters hoverThenToggle in
  timers (host hoverThenToggle)
    = [ mkTimer 1%positive 300 (TooltipTask "scene" "kitchen"); mkTimer 2%positive 150 FilterUpdateTask ] /\
  timers (host w) = [ mkTimer 1%positive 300 (TooltipTask "scene" "kitchen") ] /\
  tooltipTimeout (this w) = Some 1%positive /\
  exists w', timerFires w w' /\
             tooltipElement (this w')
             = Some {| tipContent := Some ("scene:kitchen", 2); tipShown := true |}.
Proof.
  split; [reflexivity | split; [reflexivity | split; [reflexivity |]]].
  eexists. split.
  - apply (TimerFires (resetFilters hoverThenToggle)
             (mkTimer 1%positive 300 (TooltipTask "scene" "kitchen"))).
    left. reflexivity.
  - reflexivity.
Qed.

(** X13.  In every reachable state [hideTooltip] cancels the pending
    tooltip: afterwards no tooltip timeout is armed and the tooltip is
    hidden, and it stays hidden however the armed timeouts fire.  A pending
    filter update is left armed. *)
Theorem hideTooltip_cancels_the_tooltip (w : World) :
  reachable w ->
  let w' := hideTooltip w in
  pendingTooltips (host w') = [] /\
  tooltipHidden (this w') = true /\
  pendingUpdates (host w') = pendingUpdates (host w) /\
  forall w'', timersRun w' w'' -> tooltipHidden (this w'') = true.
Proof.
  intros Hreach w'.
  assert (Hno : pendingTooltips (host w') = []).
  { apply filter_nil_iff. intros t Ht. apply negb_false_iff.
    destruct (isUpdateTimer t) eqn:Eu; [reflexivity |].
    pose proof (tooltipOk_hideTooltip w (reachable_tooltipOk w Hreach) t Ht Eu) as Hq.
    subst w'. unfold hideTooltip in Hq.
    destruct (tooltipTimeout (this w)) eqn:E; cbn [this] in Hq.
    - destruct (tooltipElement (withTooltipTimeout None (this w))); discriminate.
    - destruct (tooltipElement (this w)); simpl in Hq; congruence. }
  split; [exact Hno | split; [apply tooltipHidden_hideTooltip | split]].
  - subst w'. unfold hideTooltip.
    pose proof (reachable_worldOk w Hreach) as [Hnd [_ [_ [_ Htip]]]].
    destruct (tooltipTimeout (this w)) as [q |] eqn:E.
    + assert (Hh : host (match tooltipElement
                                 (this {| this := withTooltipTimeout None (this w);
                                          host := clearTimeout q (host w) |}) with
                         | Some t =>
                             onThis (withTooltipElement
                                       (Some {| tipContent := tipContent t;
                                                tipShown := false |}))
                               {| this := withTooltipTimeout None (this w);
                                  host := clearTimeout q (host w) |}
                         | None => {| this := withTooltipTimeout None (this w);
                                      host := clearTimeout q (host w) |}
                         end) = clearTimeout q (host w)).
      { cbn [this]. now destruct (tooltipElement (withTooltipTimeout None (this w))). }
      rewrite Hh. unfold pendingUpdates, clearTimeout. cbn [timers].
      apply filter_filter_same. intros x Hx Hxu.
      apply negb_true_iff, Pos.eqb_neq. intros Hid.
      destruct (Htip q eq_refl) as [_ Hq]. apply (Hq x Hx Hid).
      now apply isUpdateTimer_task.
    + now destruct (tooltipElement (this w)).
  - intros w'' Hrun. destruct (timersRun_without_tooltip w' w'' Hrun Hno) as [He _].
    unfold tooltipHidden. rewrite He. apply tooltipHidden_hideTooltip.
Qed.

Lemma hideTooltip_cancels_the_tooltip_witness :
  pendingTooltips (host (hideTooltip hoverThenToggle)) = [] /\
  pendingUpdates (host (hideTooltip hoverThenToggle)) = pendingUpdates (host hoverThenToggle).
Proof.
  assert (Hreach : reachable hoverThenToggle).
  { unfold hoverThenToggle.
    apply ReachToggle, ReachShowTooltip, ReachInitTooltips.
    apply (ReachBuild {| this := constructor [recordA; recordB]; host := initialHost |}).
    apply (ReachNew [recordA; recordB] 300). }
  destruct (hideTooltip_cancels_the_tooltip hoverThenToggle Hreach) as [H1 [_ [H2 _]]].
  split; assumption.
Defined.

(** X14.  In every reachable state, hovering an option while the tooltip
    element exists leaves exactly one tooltip timeout armed, the one for
    the option hovered last: [showTooltip] cancels the tooltip timeout
    armed before.  A pending filter update is not touched.  Without a
    tooltip element [showTooltip] does nothing. *)
Theorem showTooltip_replaces_the_pending_tooltip (k v : string) (w : World) :
  reachable w ->
  let w' := showTooltip k v w in
  match tooltipElement (this w) with
  | None => w' = w
  | Some _ =>
      exists id,
        tooltipTimeout (this w') = Some id /\
        pendingTooltips (host w') = [mkTimer id (tooltipDelay (host w)) (TooltipTask k v)] /\
        pendingUpdates (host w') = pendingUpdates (host w)
  end.
Proof.
  intros Hreach w'. subst w'. unfold showTooltip.
  pose proof (reachable_tooltipOk w Hreach) as Htok.
  pose proof (reachable_worldOk w Hreach) as [_ [_ [_ [_ Htip]]]].
  destruct (tooltipElement (this w)) as [tip |]; [| reflexivity].
  destruct (tooltipTimeout (this w)) as [q |] eqn:E.
  - exists (nextTimerId (host w)). split; [reflexivity |].
    unfold pendingTooltips, pendingUpdates. cbn [host setTimeout clearTimeout timers
      nextTimerId tooltipDelay snd fst].
    rewrite !filter_app. cbn [filter isUpdateTimer timerTask negb app]. split.
    + replace (filter (fun t => negb (isUpdateTimer t))
                 (filter (fun t => negb (timerId t =? q)%positive) (timers (host w))))
        with (@nil Timer); [reflexivity |].
      symmetry. apply filter_nil_iff. intros x Hx. apply filter_In in Hx.
      destruct Hx as [Hx Hq]. apply negb_false_iff.
      destruct (isUpdateTimer x) eqn:Eu; [reflexivity |].
      specialize (Htok x Hx Eu). apply negb_true_iff, Pos.eqb_neq in Hq. congruence.
    + rewrite app_nil_r. apply filter_filter_same. intros x Hx Hxu.
      apply negb_true_iff, Pos.eqb_neq. intros Hid.
      destruct (Htip q eq_refl) as [_ Hq]. apply (Hq x Hx Hid).
      now apply isUpdateTimer_task.
  - exists (nextTimerId (host w)). split; [reflexivity |].
    unfold pendingTooltips, pendingUpdates. cbn [host setTimeout timers
      nextTimerId tooltipDelay snd fst].
    rewrite !filter_app. cbn [filter isUpdateTimer timerTask negb app]. split.
    + replace (filter (fun t => negb (isUpdateTimer t)) (timers (host w)))
        with (@nil Timer); [reflexivity |].
      symmetry. apply filter_nil_iff. intros x Hx. apply negb_false_iff.
      destruct (isUpdateTimer x) eqn:Eu; [reflexivity |].
      specialize (Htok x Hx Eu). congruence.
    + now rewrite app_nil_r.
Qed.

Lemma showTooltip_replaces_the_pending_tooltip_witness :
  exists id,
    tooltipTimeout (this (showTooltip "robot" "arm1" hoverThenToggle)) = Some id /\
    pendingTooltips (host (showTooltip "robot" "arm1" hoverThenToggle))
      = [mkTimer id 300 (TooltipTask "robot" "arm1")] /\
    pendingUpdates (host (showTooltip "robot" "arm1" hoverThenToggle))
      = pendingUpdates (host hoverThenToggle).
Proof.
  apply (showTooltip_replaces_the_pending_tooltip "robot" "arm1" hoverThenToggle).
  unfold hoverThenToggle.
  apply ReachToggle, ReachShowTooltip, ReachInitTooltips.
  apply (ReachBuild {| this := constructor [recordA; recordB]; host := initialHost |}).
  apply (ReachNew [recordA; recordB] 300).
Defined.

(** ** The reset button *)

Lemma resetFilters_no_update_timer (w : World) :
  worldOk w ->
  forall t, In t (timers (host (resetFilters w))) -> timerTask t <> FilterUpdateTask.
Proof.
  intros [_ [_ [Hupd _]]] t Ht Htask. unfold resetFilters in Ht.
  destruct (pendingFilterUpdate (this w)) as [p |] eqn:E; simpl in Ht.
  - apply In_clearTimeout in Ht. destruct Ht as [Ht Hne].
    specialize (Hupd t Ht Htask). congruence.
  - specialize (Hupd t Ht Htask). discriminate.
Qed.

Lemma filtersChanged_resetFilters (w : World) :
  filtersChanged (host (resetFilters w)) = filtersChanged (host w).
Proof. unfold resetFilters. now destruct (pendingFilterUpdate (this w)). Qed.

Lemma timerFires_without_update (w w' : World) :
  timerFires w w' ->
  (forall t, In t (timers (host w)) -> timerTask t <> FilterUpdateTask) ->
  filtersChanged (host w') = filtersChanged (host w) /\
  (forall t, In t (timers (host w')) -> timerTask t <> FilterUpdateTask).
Proof.
  intros Hfire Hno. destruct Hfire as [w t Ht].
  pose proof (Hno t Ht) as Htask.
  destruct (timerTask t) as [| k v] eqn:Etask; [contradiction |].
  assert (Hhost : host (runTask (TooltipTask k v)
                          {| this := this w; host := clearTimeout (timerId t) (host w) |})
                  = clearTimeout (timerId t) (host w)).
  { simpl. unfold tooltipCallback. simpl. now destruct (tooltipElement (this w)). }
  rewrite Hhost. split; [reflexivity |].
  intros t' Ht'. apply In_clearTimeout in Ht'. now apply Hno.
Qed.

(** With no filter update armed, the events dispatched so far and the
    notifications of the search box still to come add up to a constant. *)
Lemma pageTimersRun_without_update (p p' : Page) :
  pageTimersRun p p' ->
  (forall t, In t (timers (host (world p))) -> timerTask t <> FilterUpdateTask) ->
  (filtersChanged (host (world p')) + searchNotifications p')%nat
  = (filtersChanged (host (world p)) + searchNotifications p)%nat.
Proof.
  induction 1 as [p | p1 p2 p3 Hfire Hrun IH]; intros Hno; [reflexivity |].
  destruct Hfire as [p w' Hfire | p n Hn].
  - destruct (timerFires_without_update _ _ Hfire Hno) as [Hsame Hno'].
    rewrite (IH Hno'). cbn [world searchNotifications]. now rewrite Hsame.
  - rewrite (IH Hno). cbn [world searchNotifications host dispatchFiltersChanged filtersChanged].
    rewrite Hn. lia.
Qed.

(** X15.  A click on the reset button throws, before anything has
    changed, exactly when the page has no search box.  Otherwise, in any
    reachable state, it empties the search box and the selection, so that
    [applyFilters] on the new box value returns every record, and it
    dispatches [filtersChanged] once, at once.  The click cancels the
    manager's pending update, so none of the manager's own timeouts
    dispatches another event; it does not cancel the notifications that
    typing in the search box has armed, each of which still dispatches its
    event: however the timeouts of the page then fire, the events
    dispatched and the notifications still to come add up to one more than
    before the click. *)
Theorem reset_click_adds_one_event (toLowerCase : string -> string) (p : Page) :
  reachable (world p) ->
  match resetButtonClick p with
  | None => searchBox p = None
  | Some p' =>
      searchBox p <> None /\
      searchBox p' = Some "" /\
      searchNotifications p' = searchNotifications p /\
      selectedFilters (this (world p')) = [] /\
      applyFilters toLowerCase (this (world p')) (searchBoxValue (searchBox p'))
      = Some (datasets (this (world p))) /\
      filtersChanged (host (world p')) = S (filtersChanged (host (world p))) /\
      (forall w'', timersRun (world p') w'' ->
                   filtersChanged (host w'') = S (filtersChanged (host (world p)))) /\
      (forall p'', pageTimersRun p' p'' ->
                   (filtersChanged (host (world p'')) + searchNotifications p'')%nat
                   = (S (filtersChanged (host (world p))) + searchNotifications p)%nat)
  end.
Proof.
  intros Hreach. unfold resetButtonClick.
  destruct (searchBox p) as [box |]; [| reflexivity].
  cbn [world searchBox searchNotifications this host].
  assert (Hno : forall t, In t (timers (host (resetFilters (world p)))) ->
                          timerTask t <> FilterUpdateTask)
    by (apply resetFilters_no_update_timer; now apply reachable_worldOk).
  split; [discriminate | split; [reflexivity | split; [reflexivity |]]].
  split; [apply selected_resetFilters | split; [| split; [| split]]].
  - cbn [searchBoxValue Js.truthy].
    rewrite (applyFilters_no_selection _ _ _ (selected_resetFilters (world p))).
    rewrite datasets_resetFilters. apply f_equal. now apply filter_all_true.
  - cbn [dispatchFiltersChanged filtersChanged]. now rewrite filtersChanged_resetFilters.
  - intros w'' Hrun.
    destruct (timersRun_without_update _ _ Hrun) as [H1 _].
    + cbn [host dispatchFiltersChanged timers]. exact Hno.
    + rewrite H1. cbn [host dispatchFiltersChanged filtersChanged].
      now rewrite filtersChanged_resetFilters.
  - intros p'' Hrun.
    rewrite (pageTimersRun_without_update _ _ Hrun).
    + cbn [world searchNotifications host dispatchFiltersChanged filtersChanged].
      now rewrite filtersChanged_resetFilters.
    + cbn [world host dispatchFiltersChanged timers]. exact Hno.
Qed.

Lemma reset_click_adds_one_event_witness :
  let clicked :=
    {| world := {| this := this (resetFilters hoverThenToggle);
                   host := dispatchFiltersChanged (host (resetFilters hoverThenToggle)) |};
       searchBox := Some "";
       searchNotifications := 1 |} in
  filtersChanged (host (world clicked)) = 1 /\
  forall p'', pageTimersRun clicked p'' ->
              (filtersChanged (host (world p'')) + searchNotifications p'')%nat = 2.
Proof.
  assert (Hreach : reachable hoverThenToggle).
  { unfold hoverThenToggle.
    apply ReachToggle, ReachShowTooltip, ReachInitTooltips.
    apply (ReachBuild {| this := constructor [recordA; recordB]; host := initialHost |}).
    apply (ReachNew [recordA; recordB] 300). }
  pose proof (reset_click_adds_one_event (fun s => s)
                {| world := hoverThenToggle; searchBox := Some "arm";
                   searchNotifications := 1 |} Hreach) as H.
  cbv beta iota delta [resetButtonClick searchBox] in H.
  destruct H as [_ [_ [_ [_ [_ [H1 [_ H2]]]]]]].
  split; [exact H1 | exact H2].
Defined.

(** ** The count cache *)














(** ** Counts against the filtered list *)

Lemma calculateAffectedCount_length (fm : FilterManager) (k v : string) :
  calculateAffectedCount fm k v = List.length (filter (affectedMatch k v) (datasets fm)).
Proof.
  unfold calculateAffectedCount.
  assert (H : forall l acc,
             fold_left (fun count ds => if affectedMatch k v ds then S count else count) l acc
             = (acc + List.length (filter (affectedMatch k v) l))%nat).
  { induction l as [| d l IH]; intros acc; simpl; [lia |].
    rewrite IH. destruct (affectedMatch k v d); simpl; lia. }
  now rewrite H.
Qed.

(** X17.  The count of an option is the number of records shown when that
    option alone is selected: for a key and a value without [':'] (the key
    naming no member of [Object.prototype]), [applyFilters('')] under the
    selection of the single id [key:value] returns the records that
    [calculateAffectedCount] counts, in their order. *)
Theorem count_is_the_size_of_the_single_filter_result (toLowerCase : string -> string)
    (fm : FilterManager) (k v : string) :
  noColon k = true -> Js.isPrototypeKey k = false -> noColon v = true ->
  selectedFilters fm = [filterIdOf k v] ->
  exists kept,
    applyFilters toLowerCase fm "" = Some kept /\
    kept = filter (affectedMatch k v) (datasets fm) /\
    List.length kept = calculateAffectedCount fm k v.
Proof.
  intros Hk Hproto Hv Hsel. exists (filter (affectedMatch k v) (datasets fm)).
  split; [| split; [reflexivity | symmetry; apply calculateAffectedCount_length]].
  unfold applyFilters, collectFilters. rewrite Hsel.
  change (fold_left collectFilter [filterIdOf k v] (Some []))
    with (collectFilter (Some []) (filterIdOf k v)).
  unfold collectFilter. rewrite (splitFilterId_filterIdOf k v Hk), Hproto.
  apply beforeColon_id in Hv. rewrite Hv. unfold pushFilter.
  apply f_equal. apply filter_ext. intros ds. unfold keepDataset. simpl.
  rewrite andb_true_r. apply facetMatch_single.
Qed.

Lemma count_is_the_size_of_the_single_filter_result_witness :
  exists kept,
    applyFilters (fun s => s)
      (this (fst (toggleFilterSelection "robot" "arm1" (initialWorld [recordA; recordB]))))
      "" = Some kept /\
    kept = filter (affectedMatch "robot" "arm1") [recordA; recordB] /\
    List.length kept
    = calculateAffectedCount
        (this (fst (toggleFilterSelection "robot" "arm1" (initialWorld [recordA; recordB]))))
        "robot" "arm1".
Proof.
  apply (count_is_the_size_of_the_single_filter_result (fun s => s)
           (this (fst (toggleFilterSelection "robot" "arm1"
                         (initialWorld [recordA; recordB]))))
           "robot" "arm1"); reflexivity.
Defined.

(** ** Adding a value to a selection *)

Lemma plainId_filterIdOf (k v : string) :
  In k facetKeys -> noColon v = true -> plainId (filterIdOf k v).
Proof. intros Hk Hv. now exists k, v. Qed.

Lemma selected_toggle_on (k v : string) (w : World) :
  ~ In (filterIdOf k v) (selectedFilters (this w)) ->
  selectedFilters (this (fst (toggleFilterSelection k v w)))
  = (selectedFilters (this w) ++ [filterIdOf k v])%list.
Proof.
  intros Hnot. apply has_false_In in Hnot.
  unfold toggleFilterSelection. cbn [fst]. rewrite selected_scheduleFilterUpdate. cbn.
  rewrite Hnot. unfold StrSet.add. now rewrite Hnot.
Qed.

(** X18.  On a selection of ids built from facet keys and values without
    [':'], toggling on one more such value widens the result when its key
    already has a selected value (every record kept before is still kept)
    and narrows it when the key had none (every record kept after was kept
    before). *)
Theorem one_more_value_widens_or_narrows (toLowerCase : string -> string)
    (w : World) (k v searchQuery : string) :
  Forall plainId (selectedFilters (this w)) ->
  In k facetKeys -> noColon v = true ->
  ~ In (filterIdOf k v) (selectedFilters (this w)) ->
  let w' := fst (toggleFilterSelection k v w) in
  exists before after,
    applyFilters toLowerCase (this w) searchQuery = Some before /\
    applyFilters toLowerCase (this w') searchQuery = Some after /\
    ((exists v0, In (filterIdOf k v0) (selectedFilters (this w))) ->
     forall ds, In ds before -> In ds after) /\
    ((~ exists v0, In (filterIdOf k v0) (selectedFilters (this w))) ->
     forall ds, In ds after -> In ds before).
Proof.
  intros Hplain Hk Hv Hnot w'.
  assert (Hsel' : selectedFilters (this w')
                  = (selectedFilters (this w) ++ [filterIdOf k v])%list)
    by (subst w'; now apply selected_toggle_on).
  assert (Hplain' : Forall plainId (selectedFilters (this w'))).
  { rewrite Hsel'. apply Forall_app. split; [assumption |].
    constructor; [now apply plainId_filterIdOf | constructor]. }
  assert (Hds : datasets (this w') = datasets (this w)) by reflexivity.
  destruct (applyFilters_plain_selection toLowerCase (this w) searchQuery Hplain)
    as [fs [Hb Hkeep]].
  destruct (applyFilters_plain_selection toLowerCase (this w') searchQuery Hplain')
    as [fs' [Ha Hkeep']].
  eexists. eexists. split; [exact Hb | split; [exact Ha | split]].
  - intros [v0 Hv0] ds Hin. apply filter_In in Hin. destruct Hin as [Hin Hpass].
    apply filter_In. rewrite Hds. split; [assumption |].
    apply Hkeep in Hpass. destruct Hpass as [Htext Hall]. apply Hkeep'.
    split; [assumption |]. intros key Hkey [v1 Hv1]. rewrite Hsel' in Hv1.
    assert (Hsome : exists v2, In (filterIdOf key v2) (selectedFilters (this w))).
    { apply in_app_or in Hv1. destruct Hv1 as [Hv1 | [Heq | []]]; [now exists v1 |].
      apply filterIdOf_inj in Heq; try now apply facetKeys_noColon.
      destruct Heq as [-> _]. now exists v0. }
    destruct (Hall key Hkey Hsome) as [v2 [Hv2 Hm]]. exists v2.
    split; [| assumption]. rewrite Hsel'. apply in_or_app. now left.
  - intros Hnone ds Hin. apply filter_In in Hin. destruct Hin as [Hin Hpass].
    apply filter_In. rewrite Hds in Hin. split; [assumption |].
    apply Hkeep' in Hpass. destruct Hpass as [Htext Hall]. apply Hkeep.
    split; [assumption |]. intros key Hkey [v1 Hv1].
    destruct (Hall key Hkey) as [v2 [Hv2 Hm]].
    { exists v1. rewrite Hsel'. apply in_or_app. now left. }
    exists v2. split; [| assumption].
    rewrite Hsel' in Hv2. apply in_app_or in Hv2. destruct Hv2 as [Hv2 | [Heq | []]];
      [assumption |].
    apply filterIdOf_inj in Heq; try now apply facetKeys_noColon.
    destruct Heq as [-> _]. exfalso. apply Hnone. now exists v1.
Qed.

Lemma one_more_value_widens_or_narrows_witness :
  exists before after,
    applyFilters (fun s => s)
      (this (fst (toggleFilterSelection "robot" "arm1" (initialWorld [recordA; recordB]))))
      "" = Some before /\
    applyFilters (fun s => s)
      (this (fst (toggleFilterSelection "robot" "arm2"
                    (fst (toggleFilterSelection "robot" "arm1"
                            (initialWorld [recordA; recordB])))))) "" = Some after /\
    forall ds, In ds before -> In ds after.
Proof.
  destruct (one_more_value_widens_or_narrows (fun s => s)
              (fst (toggleFilterSelection "robot" "arm1" (initialWorld [recordA; recordB])))
              "robot" "arm2" "")
    as [before [after [Hb [Ha [Hwide _]]]]].
  - constructor; [| constructor]. exists "robot", "arm1".
    split; [reflexivity | split; [simpl; tauto | reflexivity]].
  - simpl. tauto.
  - reflexivity.
  - simpl. intros [H | []]. discriminate.
  - exists before, after. split; [exact Hb | split; [exact Ha |]].
    apply Hwide. exists "arm1". simpl. now left.
Defined.

(** ** Stepping through the matches *)

Lemma navigate_next_in_range (fm : FilterManager) :
  let n := Z.of_nat (List.length (filterFinderMatches fm)) in
  (0 <= filterFinderCurrentIndex fm < n)%Z ->
  navigateFilterMatch "next" fm
  = withFinder (filterFinderMatches fm) ((filterFinderCurrentIndex fm + 1) mod n)%Z fm.
Proof.
  intros n Hi. unfold navigateFilterMatch. fold n.
  assert (Hn : (n =? 0)%Z = false) by (apply Z.eqb_neq; lia).
  rewrite Hn. simpl. now rewrite Z.rem_mod_nonneg by lia.
Qed.

Lemma navigate_other_in_range (direction : string) (fm : FilterManager) :
  let n := Z.of_nat (List.length (filterFinderMatches fm)) in
  direction <> "next" ->
  (0 <= filterFinderCurrentIndex fm < n)%Z ->
  navigateFilterMatch direction fm
  = withFinder (filterFinderMatches fm) ((filterFinderCurrentIndex fm - 1 + n) mod n)%Z fm.
Proof.
  intros n Hd Hi. unfold navigateFilterMatch. fold n.
  assert (Hn : (n =? 0)%Z = false) by (apply Z.eqb_neq; lia).
  rewrite Hn. apply String.eqb_neq in Hd. rewrite Hd.
  now rewrite Z.rem_mod_nonneg by lia.
Qed.

Lemma navigateTimes_next_index (k : nat) :
  forall fm,
    let n := Z.of_nat (List.length (filterFinderMatches fm)) in
    (0 <= filterFinderCurrentIndex fm < n)%Z ->
    filterFinderMatches (navigateTimes "next" k fm) = filterFinderMatches fm /\
    filterFinderCurrentIndex (navigateTimes "next" k fm)
    = ((filterFinderCurrentIndex fm + Z.of_nat k) mod n)%Z.
Proof.
  induction k as [| k IH]; intros fm n Hi.
  - cbn [navigateTimes]. split; [reflexivity |].
    rewrite Z.add_0_r. symmetry. now apply Z.mod_small.
  - cbn [navigateTimes]. rewrite (navigate_next_in_range fm Hi). fold n.
    set (fm1 := withFinder (filterFinderMatches fm)
                  ((filterFinderCurrentIndex fm + 1) mod n)%Z fm).
    assert (Hi1 : (0 <= filterFinderCurrentIndex fm1
                   < Z.of_nat (List.length (filterFinderMatches fm1)))%Z).
    { subst fm1. cbn [filterFinderCurrentIndex filterFinderMatches withFinder].
      fold n. apply Z.mod_pos_bound. lia. }
    destruct (IH fm1 Hi1) as [Hm Hidx]. split; [exact Hm |].
    rewrite Hidx. subst fm1. cbn [filterFinderCurrentIndex filterFinderMatches withFinder].
    fold n. rewrite Zplus_mod_idemp_l. f_equal. lia.
Qed.

(** X19.  With the index on one of [n > 0] matches, [prev] undoes [next]
    and [next] undoes [prev]; [k] calls of [next] move the index to
    [(i + k) mod n], so [n] of them come back to where they started; any
    direction other than ['next'] steps backwards. *)
Theorem navigation_steps_compose (fm : FilterManager) :
  let n := Z.of_nat (List.length (filterFinderMatches fm)) in
  let i := filterFinderCurrentIndex fm in
  (0 <= i < n)%Z ->
  filterFinderCurrentIndex (navigateFilterMatch "prev" (navigateFilterMatch "next" fm)) = i /\
  filterFinderCurrentIndex (navigateFilterMatch "next" (navigateFilterMatch "prev" fm)) = i /\
  (forall k, filterFinderCurrentIndex (navigateTimes "next" k fm)
             = ((i + Z.of_nat k) mod n)%Z) /\
  filterFinderCurrentIndex (navigateTimes "next" (List.length (filterFinderMatches fm)) fm)
    = i /\
  (forall direction, direction <> "next" ->
                     navigateFilterMatch direction fm = navigateFilterMatch "prev" fm).
Proof.
  intros n i Hi. split; [| split; [| split; [| split]]].
  - rewrite (navigate_next_in_range fm Hi). fold n i.
    rewrite navigate_other_in_range; [| discriminate |];
      cbn [filterFinderCurrentIndex filterFinderMatches withFinder]; fold n.
    + destruct (Z.eq_dec (i + 1) n) as [Heq | Hne].
      * rewrite Heq, Z_mod_same_full. replace (0 - 1 + n)%Z with i by lia.
        now apply Z.mod_small.
      * rewrite (Z.mod_small (i + 1) n) by lia.
        replace (i + 1 - 1 + n)%Z with (i + 1 * n)%Z by lia.
        rewrite Z_mod_plus_full. now apply Z.mod_small.
    + apply Z.mod_pos_bound. lia.
  - rewrite (navigate_other_in_range "prev" fm ltac:(discriminate) Hi). fold n i.
    rewrite navigate_next_in_range;
      cbn [filterFinderCurrentIndex filterFinderMatches withFinder]; fold n.
    + destruct (Z.eq_dec i 0) as [Heq | Hne].
      * rewrite Heq. replace (0 - 1 + n)%Z with (n - 1)%Z by lia.
        rewrite (Z.mod_small (n - 1) n) by lia.
        replace (n - 1 + 1)%Z with n by lia. apply Z_mod_same_full.
      * replace (i - 1 + n)%Z with (i - 1 + 1 * n)%Z by lia.
        rewrite Z_mod_plus_full, (Z.mod_small (i - 1) n) by lia.
        replace (i - 1 + 1)%Z with i by lia. now apply Z.mod_small.
    + apply Z.mod_pos_bound. lia.
  - intros k. apply (navigateTimes_next_index k fm Hi).
  - rewrite (proj2 (navigateTimes_next_index _ fm Hi)). fold n i.
    replace (i + n)%Z with (i + 1 * n)%Z by lia.
    rewrite Z_mod_plus_full. now apply Z.mod_small.
  - intros direction Hd.
    rewrite (navigate_other_in_range direction fm Hd Hi).
    now rewrite (navigate_other_in_range "prev" fm ltac:(discriminate) Hi).
Qed.

Lemma navigation_steps_compose_witness :
  filterFinderCurrentIndex
    (navigateFilterMatch "prev" (navigateFilterMatch "next" threeMatches)) = 0%Z /\
  filterFinderCurrentIndex (navigateTimes "next" 3 threeMatches) = 0%Z.
Proof.
  destruct (navigation_steps_compose threeMatches) as [H1 [_ [_ [H2 _]]]].
  - simpl. lia.
  - split; [exact H1 | exact H2].
Defined.

(** ** Selecting the filtered records *)

Lemma In_fold_add_paths (l : list Dataset) (p : string) :
  forall sel,
    In p (fold_left (fun acc ds => StrSet.add (path ds) acc) l sel)
    <-> In p sel \/ exists ds, In ds l /\ path ds = p.
Proof.
  induction l as [| d l IH]; intros sel; simpl.
  - split; [tauto | intros [H | [ds [[] _]]]; exact H].
  - rewrite IH, In_add. split.
    + intros [[-> | H] | [ds [Hin Hp]]];
        [right; exists d; tauto | now left | right; exists ds; tauto].
    + intros [H | [ds [[<- | Hin] Hp]]];
        [tauto | left; left; now symmetry | right; exists ds; tauto].
Qed.

Lemma In_fold_delete_paths (l : list Dataset) (p : string) :
  forall sel,
    In p (fold_left (fun acc ds => StrSet.delete (path ds) acc) l sel)
    <-> In p sel /\ ~ exists ds, In ds l /\ path ds = p.
Proof.
  induction l as [| d l IH]; intros sel; simpl.
  - split; [intros H; split; [exact H | intros [ds [[] _]]] | tauto].
  - rewrite IH, In_delete. split.
    + intros [[Hne Hin] Hno]. split; [assumption |].
      intros [ds [[<- | Hd] Hp]]; [now apply Hne | apply Hno; now exists ds].
    + intros [Hin Hno]. split; [split; [| assumption] |].
      * intros Heq. apply Hno. exists d. split; [now left | now symmetry].
      * intros [ds [Hd Hp]]. apply Hno. exists ds. split; [now right | assumption].
Qed.

(** X20.  [selectAllFiltered] adds to the selected paths exactly the paths
    of the records that [applyFilters] returns for the search box, and
    [deselectAllFiltered] removes exactly those; deselecting right after
    selecting leaves the earlier paths that are not among the filtered
    ones.  Both throw when [applyFilters] throws. *)
Theorem filtered_records_are_selected_and_deselected (toLowerCase : string -> string)
    (fm : FilterManager) (box : option string) (selectedDatasets : StrSet.t) :
  match applyFilters toLowerCase fm (searchBoxValue box) with
  | None =>
      selectAllFiltered toLowerCase fm box selectedDatasets = None /\
      deselectAllFiltered toLowerCase fm box selectedDatasets = None
  | Some filtered =>
      exists s1 s2 s3,
        selectAllFiltered toLowerCase fm box selectedDatasets = Some s1 /\
        deselectAllFiltered toLowerCase fm box selectedDatasets = Some s2 /\
        deselectAllFiltered toLowerCase fm box s1 = Some s3 /\
        (forall p, In p s1 <->
                   In p selectedDatasets \/ exists ds, In ds filtered /\ path ds = p) /\
        (forall p, In p s2 <->
                   In p selectedDatasets /\ ~ exists ds, In ds filtered /\ path ds = p) /\
        (forall p, In p s3 <-> In p s2)
  end.
Proof.
  unfold selectAllFiltered, deselectAllFiltered.
  destruct (applyFilters toLowerCase fm (searchBoxValue box)) as [filtered |];
    [| split; reflexivity].
  eexists. eexists. eexists.
  split; [reflexivity | split; [reflexivity | split; [reflexivity | split; [| split]]]].
  - intros p. apply In_fold_add_paths.
  - intros p. apply In_fold_delete_paths.
  - intros p. rewrite !In_fold_delete_paths, In_fold_add_paths. tauto.
Qed.

(** X21.  [toggleSelection(path)] flips the membership of that path and of
    no other, so that two calls restore the selected paths. *)
Theorem toggleSelection_flips_one_path (p : string) (selectedDatasets : StrSet.t) :
  (forall q, StrSet.has q (toggleSelection p selectedDatasets)
             = if String.eqb q p then negb (StrSet.has p selectedDatasets)
               else StrSet.has q selectedDatasets) /\
  (forall q, StrSet.has q (toggleSelection p (toggleSelection p selectedDatasets))
             = StrSet.has q selectedDatasets).
Proof.
  assert (H : forall s q, StrSet.has q (toggleSelection p s)
                          = if String.eqb q p then negb (StrSet.has p s)
                            else StrSet.has q s).
  { intros s q. unfold toggleSelection. destruct (StrSet.has p s) eqn:E.
    - rewrite has_delete. destruct (String.eqb_spec q p); reflexivity.
    - rewrite has_add. destruct (String.eqb_spec q p) as [-> |]; reflexivity. }
  split; [apply H |]. intros q. rewrite !H, String.eqb_refl.
  destruct (String.eqb_spec q p) as [-> |]; [apply negb_involutive | reflexivity].
Qed.

(** ** Paths with distinct segments *)

Lemma indexOf_absent (x : string) (arr : list string) :
  ~ In x arr -> Js.indexOf x arr = (-1)%Z.
Proof.
  induction arr as [| y arr IH]; simpl; intros H; [reflexivity |].
  destruct (String.eqb_spec y x) as [-> | Hne]; [exfalso; apply H; now left |].
  rewrite IH by tauto. reflexivity.
Qed.

Lemma indexOf_app_first (x : string) (pre rest : list string) :
  ~ In x pre -> Js.indexOf x (pre ++ x :: rest) = Z.of_nat (List.length pre).
Proof.
  induction pre as [| y pre IH]; intros H.
  - simpl. now rewrite String.eqb_refl.
  - cbn [app Js.indexOf List.length].
    destruct (String.eqb_spec y x) as [-> | Hne]; [exfalso; apply H; now left |].
    rewrite IH by (intros Hin; apply H; now right).
    destruct (Z.ltb_spec (Z.of_nat (List.length pre)) 0); lia.
Qed.

Lemma indexOf_last_NoDup (parts : list string) :
  parts <> [] -> NoDup parts ->
  Js.indexOf (last parts "") parts = (Z.of_nat (List.length parts) - 1)%Z.
Proof.
  intros Hne Hnd. destruct (exists_last Hne) as [pre [x ->]].
  rewrite last_last. apply NoDup_remove_2 in Hnd. rewrite app_nil_r in Hnd.
  rewrite indexOf_app_first by assumption. rewrite length_app. simpl. lia.
Qed.

(** X22.  [findHierarchyNode] never returns a node other than the one the
    path leads to; on a path whose segments are pairwise distinct it
    returns that node whenever every segment is present, and [null]
    otherwise. *)
Theorem findHierarchyNode_resolves_distinct_segments (m : HierarchyMap) (path : string) :
  let parts := Js.split ">" path in
  (forall n, findHierarchyNode m path = Some n -> walkPath m parts = Some n) /\
  (NoDup parts -> findHierarchyNode m path = walkPath m parts).
Proof.
  intros parts. pose proof (findHierarchyNode_walkPath m path) as H. fold parts in H.
  cbv zeta in H. split.
  - intros n Hn. rewrite H in Hn. now destruct (_ =? _)%Z.
  - intros Hnd. rewrite H.
    rewrite (indexOf_last_NoDup parts (split_nonempty ">" path) Hnd), Z.eqb_refl.
    reflexivity.
Qed.

(** ** Searching the options *)

Lemma In_findMatches (toLowerCase : string -> string) (queryLower : string)
    (opts : list FilterOption) (m : FilterMatch) :
  In m (findMatches toLowerCase queryLower opts)
  <-> exists o, In o opts /\ optLabel o = Some (text m) /\ optElement o = element m
                /\ Js.strIncludes (toLowerCase (text m)) queryLower = true.
Proof.
  unfold findMatches. rewrite in_flat_map. split.
  - intros [o [Ho Hm]]. exists o. split; [assumption |].
    destruct (optLabel o) as [label |]; [| contradiction].
    destruct (Js.strIncludes (toLowerCase label) queryLower) eqn:E; [| contradiction].
    destruct Hm as [<- | []]. simpl. now repeat split.
  - intros [o [Ho [Hl [He Hinc]]]]. exists o. split; [assumption |].
    rewrite Hl, Hinc. left. destruct m. simpl in *. now subst.
Qed.

(** X23.  [searchFilterOptions] starts from scratch whatever was found
    before.  With an empty query, or without the options container, it
    leaves the finder idle (no match, index -1).  Otherwise the matches
    are exactly the options whose label, lower-cased, contains the
    lower-cased query; the index is 0 when there is one and -1 when there
    is none, in which case [navigateFilterMatch] changes nothing. *)
Theorem search_builds_the_match_list (toLowerCase : string -> string)
    (allOptions : option (list FilterOption)) (query : string) (fm : FilterManager) :
  let fm' := searchFilterOptions toLowerCase allOptions query fm in
  match allOptions with
  | None => fm' = clearFilterSearch fm
  | Some opts =>
      if Js.truthy query then
        (forall m, In m (filterFinderMatches fm') <->
                   exists o, In o opts /\ optLabel o = Some (text m)
                             /\ optElement o = element m
                             /\ Js.strIncludes (toLowerCase (text m)) (toLowerCase query)
                                = true) /\
        (filterFinderMatches fm' <> [] -> filterFinderCurrentIndex fm' = 0%Z) /\
        (filterFinderMatches fm' = [] ->
         filterFinderCurrentIndex fm' = (-1)%Z /\
         forall direction, navigateFilterMatch direction fm' = fm')
      else fm' = clearFilterSearch fm
  end.
Proof.
  intros fm'. subst fm'. unfold searchFilterOptions.
  destruct allOptions as [opts |]; [| reflexivity].
  destruct (Js.truthy query); cbn [negb]; [| reflexivity].
  destruct (findMatches toLowerCase (toLowerCase query) opts) as [| m0 ms] eqn:E.
  - cbn [List.length Nat.ltb Nat.leb]. split; [| split].
    + intros m. rewrite <- In_findMatches, E. reflexivity.
    + intros H. now contradiction H.
    + intros _. split; [reflexivity |]. intros direction. now apply navigate_empty.
  - cbn [List.length Nat.ltb Nat.leb]. split; [| split].
    + intros m. rewrite <- In_findMatches, E. reflexivity.
    + reflexivity.
    + discriminate.
Qed.

(** ** Removing a tag, clearing under a path *)

(** X24.  [removeFilterTagById(filterId)] removes that id, exactly as it
    is written, and no other; after an option was toggled on, removing its
    tag restores the membership of every id. *)
Theorem removeFilterTagById_removes_one_id (filterId : string) (w : World) :
  (forall id, In id (selectedFilters (this (removeFilterTagById filterId w)))
              <-> id <> filterId /\ In id (selectedFilters (this w))) /\
  (forall k v id,
     StrSet.has (filterIdOf k v) (selectedFilters (this w)) = false ->
     StrSet.has id
       (selectedFilters
          (this (removeFilterTagById (filterIdOf k v) (fst (toggleFilterSelection k v w)))))
     = StrSet.has id (selectedFilters (this w))).
Proof.
  split.
  - intros id. unfold removeFilterTagById. rewrite selected_scheduleFilterUpdate. cbn.
    apply In_delete.
  - intros k v id Hnot. unfold removeFilterTagById.
    rewrite selected_scheduleFilterUpdate. cbn [this onThis selectedFilters withSelectedFilters].
    rewrite has_delete, has_toggle.
    destruct (String.eqb_spec id (filterIdOf k v)) as [-> |]; simpl; [now rewrite Hnot |].
    reflexivity.
Qed.

Lemma filterGroups_selectAllChildrenInHierarchy (groupKey path0 : string) (w : World) :
  filterGroups (this (selectAllChildrenInHierarchy groupKey path0 w)) = filterGroups (this w).
Proof.
  unfold selectAllChildrenInHierarchy. case_group; try reflexivity.
  now destruct (findHierarchyNode _ _).
Qed.

(** X25.  Clearing under a path right after selecting under it leaves
    what clearing alone leaves: every id that [selectAllChildrenInHierarchy]
    added is removed again by [clearAllChildrenInHierarchy], on any tree
    and for any path. *)
Theorem clearUnder_undoes_selectUnder (groupKey path0 : string) (w : World) :
  forall id,
    In id (selectedFilters
             (this (clearAllChildrenInHierarchy groupKey path0
                      (selectAllChildrenInHierarchy groupKey path0 w))))
    <-> In id (selectedFilters (this (clearAllChildrenInHierarchy groupKey path0 w))).
Proof.
  intros id. unfold clearAllChildrenInHierarchy at 1.
  rewrite filterGroups_selectAllChildrenInHierarchy.
  unfold clearAllChildrenInHierarchy, selectAllChildrenInHierarchy.
  destruct (Js.get (filterGroups (this w)) groupKey) as [[t vs | t tree] | |];
    try reflexivity.
  destruct (findHierarchyNode tree path0) as [node |]; [| reflexivity].
  rewrite !selected_scheduleFilterUpdate.
  cbn [this onThis selectedFilters withSelectedFilters].
  rewrite !clearLeafNodesRecursive_leafIds, selectLeafNodesRecursive_leafIds.
  rewrite !In_fold_clearId, In_fold_selectId. tauto.
Qed.

(** ** Throwing tests and the order of the selection *)

Lemma existsb_ext {A : Type} (f g : A -> bool) (l : list A) :
  (forall x, f x = g x) -> existsb f l = existsb g l.
Proof.
  intros H. induction l as [| a l IH]; simpl; [reflexivity |]. now rewrite H, IH.
Qed.

Lemma collectFilters_Some_pushAll (sel : StrSet.t) (fs : Filters) :
  collectFilters sel = Some fs -> fs = pushAll (map splitFilterId sel) [].
Proof.
  intros H. assert (Hsome : collectFilters sel = Some (pushAll (map splitFilterId sel) [])).
  { apply collectFilters_pushAll. intros id Hin.
    destruct (Js.isPrototypeKey (fst (splitFilterId id))) eqn:E; [| reflexivity].
    assert (Hnone : collectFilters sel = None)
      by (apply collectFilters_None_iff; now exists id).
    congruence. }
  congruence.
Qed.

Lemma In_pushAll_nil (pairs : list (string * option string)) (k : string)
    (vs : list (option string)) :
  In (k, vs) (pushAll pairs []) <-> vs <> [] /\ vs = valuesFor k pairs.
Proof.
  destruct (pushAll_spec pairs [] (NoDup_nil _)) as [Hnd Hget].
  rewrite (In_ownGet k vs _ Hnd), Hget. simpl.
  destruct (valuesFor k pairs) as [| x xs].
  - split; [discriminate | intros [H1 H2]; congruence].
  - split; [intros H; injection H as <-; split; [discriminate | reflexivity]
           | intros [_ ->]; reflexivity].
Qed.

Lemma Raw_someObject_same_values (vs vs' : list (option string))
    (objs : list Raw.DatasetObject) :
  (forall x, Js.includes vs x = Js.includes vs' x) ->
  Raw.someObject vs objs = Raw.someObject vs' objs.
Proof.
  intros Hinc. induction objs as [| obj objs IH]; simpl; [reflexivity |].
  destruct (Raw.hierarchy obj) as [segments |]; [| reflexivity].
  rewrite (existsb_ext (fun h => Js.includes vs (Some h))
             (fun h => Js.includes vs' (Some h)) segments (fun h => Hinc (Some h))).
  now rewrite IH.
Qed.

Lemma Raw_facetMatch_same_values (key : string) (vs vs' : list (option string))
    (ds : Raw.Dataset) :
  (forall x, In x vs <-> In x vs') -> Raw.facetMatch key vs ds = Raw.facetMatch key vs' ds.
Proof.
  intros Hsame.
  assert (Hinc : forall x, Js.includes vs x = Js.includes vs' x).
  { intros x. apply eq_true_iff_eq. now rewrite !includes_In. }
  unfold Raw.facetMatch.
  destruct (String.eqb key "scene").
  { destruct (Raw.scenes ds); [| reflexivity]. apply f_equal, existsb_ext.
    intros; apply Hinc. }
  destruct (String.eqb key "robot"); [apply f_equal, existsb_ext; intros; apply Hinc |].
  destruct (String.eqb key "end"); [apply f_equal, Hinc |].
  destruct (String.eqb key "action").
  { destruct (Raw.actions ds); [| reflexivity]. apply f_equal, existsb_ext.
    intros; apply Hinc. }
  destruct (String.eqb key "object"); [| reflexivity].
  destruct (Raw.objects ds); [| reflexivity].
  now apply Raw_someObject_same_values.
Qed.

Lemma Raw_someObject_None (vs : list (option string)) (objs : list Raw.DatasetObject) :
  Raw.someObject vs objs = None -> exists obj, In obj objs /\ Raw.hierarchy obj = None.
Proof.
  induction objs as [| obj objs IH]; simpl; [discriminate |].
  destruct (Raw.hierarchy obj) as [segments |] eqn:E.
  - destruct (existsb _ segments); [discriminate |].
    intros H. destruct (IH H) as [obj' [Hin Hnone]]. exists obj'. split; [now right | assumption].
  - intros _. exists obj. split; [now left | assumption].
Qed.

(** A facet test throws only in the [object] branch, on a record one of
    whose object entries has no [hierarchy]. *)
Lemma Raw_facetMatch_None (key : string) (vs : list (option string)) (ds : Raw.Dataset) :
  Raw.facetMatch key vs ds = None ->
  key = "object" /\
  exists objs obj, Raw.objects ds = Some objs /\ In obj objs /\ Raw.hierarchy obj = None.
Proof.
  unfold Raw.facetMatch.
  destruct (String.eqb key "scene"); [discriminate |].
  destruct (String.eqb key "robot"); [discriminate |].
  destruct (String.eqb key "end"); [discriminate |].
  destruct (String.eqb key "action"); [discriminate |].
  destruct (String.eqb_spec key "object") as [-> |]; [| discriminate].
  destruct (Raw.objects ds) as [objs |]; [| discriminate].
  intros H. split; [reflexivity |].
  destruct (Raw_someObject_None _ _ H) as [obj [Hin Hnone]]. now exists objs, obj.
Qed.

Lemma Raw_matchEntries_true (es : Filters) (ds : Raw.Dataset) :
  Raw.matchEntries es ds = Some true
  <-> forall kv, In kv es -> Raw.facetMatch (fst kv) (snd kv) ds = Some true.
Proof.
  induction es as [| [k vs] es IH]; simpl.
  - split; [intros _ kv [] | reflexivity].
  - destruct (Raw.facetMatch k vs ds) as [[|] |] eqn:E.
    + rewrite IH. split.
      * intros H kv [<- | Hin]; [exact E | now apply H].
      * intros H kv Hin. apply H. now right.
    + split; [discriminate |]. intros H.
      specialize (H (k, vs) (or_introl eq_refl)). simpl in H. congruence.
    + split; [discriminate |]. intros H.
      specialize (H (k, vs) (or_introl eq_refl)). simpl in H. congruence.
Qed.

Lemma Raw_matchEntries_false (es : Filters) (ds : Raw.Dataset) :
  Raw.matchEntries es ds = Some false ->
  exists kv, In kv es /\ Raw.facetMatch (fst kv) (snd kv) ds = Some false.
Proof.
  induction es as [| [k vs] es IH]; simpl; [discriminate |].
  destruct (Raw.facetMatch k vs ds) as [[|] |] eqn:E.
  - intros H. destruct (IH H) as [kv [Hin Hm]]. exists kv. split; [now right | assumption].
  - intros _. exists (k, vs). split; [now left | exact E].
  - discriminate.
Qed.

Lemma Raw_matchEntries_None (es : Filters) (ds : Raw.Dataset) :
  Raw.matchEntries es ds = None ->
  exists kv, In kv es /\ Raw.facetMatch (fst kv) (snd kv) ds = None.
Proof.
  induction es as [| [k vs] es IH]; simpl; [discriminate |].
  destruct (Raw.facetMatch k vs ds) as [[|] |] eqn:E.
  - intros H. destruct (IH H) as [kv [Hin Hm]]. exists kv. split; [now right | assumption].
  - discriminate.
  - intros _. exists (k, vs). split; [now left | exact E].
Qed.

Lemma Raw_filterDatasets_None (keep : Raw.Dataset -> option bool) (l : list Raw.Dataset) :
  Raw.filterDatasets keep l = None <-> exists ds, In ds l /\ keep ds = None.
Proof.
  induction l as [| d l IH]; simpl.
  - split; [discriminate | intros [ds [[] _]]].
  - destruct (keep d) as [b |] eqn:E.
    + destruct (Raw.filterDatasets keep l) as [kept |].
      * split; [discriminate |]. intros [ds [[<- | Hin] Hnone]]; [congruence |].
        assert (H : Some kept = None) by (apply IH; now exists ds).
        discriminate.
      * split; [| reflexivity]. intros _.
        destruct (proj1 IH eq_refl) as [ds [Hin Hnone]]. exists ds. split; [now right | assumption].
    + split; [| reflexivity]. intros _. exists d. split; [now left | assumption].
Qed.

Lemma Raw_filterDatasets_Some (keep : Raw.Dataset -> option bool)
    (l kept : list Raw.Dataset) :
  Raw.filterDatasets keep l = Some kept ->
  kept = filter (fun ds => match keep ds with Some true => true | _ => false end) l.
Proof.
  revert kept. induction l as [| d l IH]; simpl; intros kept H.
  - now injection H as <-.
  - destruct (keep d) as [b |]; [| discriminate].
    destruct (Raw.filterDatasets keep l) as [kept0 |]; [| discriminate].
    injection H as <-. rewrite (IH kept0 eq_refl). now destruct b.
Qed.

Section RawOrder.

Variable entries : Filters -> Filters.
Hypothesis entries_once : forall fs, Permutation (entries fs) fs.
Variable toLowerCase : string -> string.

Lemma Raw_keepDataset_None (searchQuery : string) (fs : Filters) (ds : Raw.Dataset) :
  Raw.keepDataset entries toLowerCase searchQuery fs ds = None ->
  In "object" (map fst fs) /\
  exists objs obj, Raw.objects ds = Some objs /\ In obj objs /\ Raw.hierarchy obj = None.
Proof.
  unfold Raw.keepDataset. destruct (Js.truthy searchQuery && _); [discriminate |].
  intros H. apply Raw_matchEntries_None in H. destruct H as [[k vs] [Hin Hnone]].
  apply Raw_facetMatch_None in Hnone. cbn [fst] in Hnone. destruct Hnone as [-> Hobj].
  split; [| exact Hobj].
  apply (Permutation_in _ (entries_once fs)) in Hin.
  apply in_map_iff. now exists ("object", vs).
Qed.

(** When the test throws on no record for either order of the same ids,
    the two verdicts on a record agree. *)
Lemma Raw_keepDataset_same_ids (searchQuery : string)
    (pairs pairs' : list (string * option string)) (ds : Raw.Dataset) :
  (forall k x, In x (valuesFor k pairs) <-> In x (valuesFor k pairs')) ->
  Raw.keepDataset entries toLowerCase searchQuery (pushAll pairs []) ds <> None ->
  Raw.keepDataset entries toLowerCase searchQuery (pushAll pairs' []) ds <> None ->
  Raw.keepDataset entries toLowerCase searchQuery (pushAll pairs []) ds
  = Raw.keepDataset entries toLowerCase searchQuery (pushAll pairs' []) ds.
Proof.
  intros Hvals. unfold Raw.keepDataset.
  destruct (Js.truthy searchQuery && _); [reflexivity |].
  assert (Hstep : forall p p',
             (forall k x, In x (valuesFor k p) <-> In x (valuesFor k p')) ->
             Raw.matchEntries (entries (pushAll p [])) ds = Some true ->
             Raw.matchEntries (entries (pushAll p' [])) ds = Some false -> False).
  { intros p p' Hv Htrue Hfalse.
    apply Raw_matchEntries_false in Hfalse. destruct Hfalse as [[k vs'] [Hin Hm]].
    apply (Permutation_in _ (entries_once _)) in Hin.
    apply In_pushAll_nil in Hin. destruct Hin as [Hne ->].
    assert (Hin : In (k, valuesFor k p) (entries (pushAll p []))).
    { apply (Permutation_in _ (Permutation_sym (entries_once _))).
      apply In_pushAll_nil. split; [| reflexivity].
      intros Hnil. destruct (valuesFor k p') as [| x xs] eqn:Ex; [contradiction |].
      assert (Hx : In x (valuesFor k p)) by (apply Hv; rewrite Ex; now left).
      rewrite Hnil in Hx. contradiction. }
    apply (proj1 (Raw_matchEntries_true _ _) Htrue) in Hin. cbn [fst snd] in Hin, Hm.
    rewrite (Raw_facetMatch_same_values k _ _ ds (Hv k)) in Hin. congruence. }
  destruct (Raw.matchEntries (entries (pushAll pairs [])) ds) as [[|] |] eqn:E;
    destruct (Raw.matchEntries (entries (pushAll pairs' [])) ds) as [[|] |] eqn:E';
    intros H H'; try reflexivity; try contradiction.
  - exfalso. exact (Hstep pairs pairs' Hvals E E').
  - exfalso. apply (Hstep pairs' pairs); [| exact E' | exact E].
    intros k x. symmetry. apply Hvals.
Qed.

(** [applyFilters] throws in the collecting loop on a key that names a
    member of [Object.prototype], and otherwise only on a record with an
    object entry without [hierarchy], with an [object] id selected. *)
Lemma Raw_applyFilters_None (selected : StrSet.t) (records : list Raw.Dataset)
    (searchQuery : string) :
  Raw.applyFilters entries toLowerCase selected records searchQuery = None ->
  (exists id, In id selected /\ Js.isPrototypeKey (fst (splitFilterId id)) = true) \/
  ((exists id, In id selected /\ fst (splitFilterId id) = "object") /\
   exists ds objs obj,
     In ds records /\ Raw.objects ds = Some objs /\ In obj objs /\ Raw.hierarchy obj = None).
Proof.
  unfold Raw.applyFilters.
  destruct (collectFilters selected) as [fs |] eqn:E.
  - intros H. right. apply Raw_filterDatasets_None in H. destruct H as [ds [Hin Hnone]].
    apply Raw_keepDataset_None in Hnone. destruct Hnone as [Hkey [objs [obj Hobj]]].
    split; [| now exists ds, objs, obj].
    apply (collectFilters_keys _ _ _ E) in Hkey. destruct Hkey as [[] | Hid]. exact Hid.
  - intros _. left. now apply collectFilters_None_iff.
Qed.

Lemma Raw_applyFilters_prototype_key (selected : StrSet.t) (records : list Raw.Dataset)
    (searchQuery : string) :
  (exists id, In id selected /\ Js.isPrototypeKey (fst (splitFilterId id)) = true) ->
  Raw.applyFilters entries toLowerCase selected records searchQuery = None.
Proof.
  intros H. apply collectFilters_None_iff in H. unfold Raw.applyFilters. now rewrite H.
Qed.

Lemma Raw_applyFilters_None_checked (selected : StrSet.t) (records : list Raw.Dataset)
    (searchQuery : string) :
  forallb hasHierarchy records = true ->
  (Raw.applyFilters entries toLowerCase selected records searchQuery = None
   <-> exists id, In id selected /\ Js.isPrototypeKey (fst (splitFilterId id)) = true).
Proof.
  intros Hall. split; [| apply Raw_applyFilters_prototype_key].
  intros H. apply Raw_applyFilters_None in H.
  destruct H as [H | [_ [ds [objs [obj [Hin [Hobjs [Hobj Hnone]]]]]]]]; [exact H |].
  exfalso. rewrite forallb_forall in Hall. specialize (Hall ds Hin).
  unfold hasHierarchy in Hall. rewrite Hobjs in Hall. rewrite forallb_forall in Hall.
  specialize (Hall obj Hobj). rewrite Hnone in Hall. discriminate.
Qed.

Lemma Raw_facetMatch_loosen (key : string) (vs : list (option string)) (ds : Dataset) :
  Raw.facetMatch key vs (loosen ds) = Some (facetMatch key vs ds).
Proof.
  unfold Raw.facetMatch, facetMatch.
  destruct (String.eqb key "scene"); [reflexivity |].
  destruct (String.eqb key "robot"); [reflexivity |].
  destruct (String.eqb key "end"); [reflexivity |].
  destruct (String.eqb key "action"); [reflexivity |].
  destruct (String.eqb key "object"); [| reflexivity].
  cbn [loosen Raw.objects]. destruct (objects ds) as [objs |]; [| reflexivity].
  cbn [option_map]. induction objs as [| obj objs IH]; [reflexivity |].
  cbn [map Raw.someObject loosenObject Raw.hierarchy existsb]. rewrite IH.
  now destruct (existsb _ (hierarchy obj)).
Qed.

Lemma Raw_keepDataset_loosen (searchQuery : string) (fs : Filters) (ds : Dataset) :
  Raw.keepDataset entries toLowerCase searchQuery fs (loosen ds)
  = Some (keepDataset toLowerCase searchQuery fs ds).
Proof.
  unfold Raw.keepDataset, keepDataset. cbn [loosen Raw.name].
  destruct (Js.truthy searchQuery && _); [reflexivity |].
  assert (Hall : forall es,
             Raw.matchEntries es (loosen ds)
             = Some (forallb (fun kv => facetMatch (fst kv) (snd kv) ds) es)).
  { induction es as [| [k vs] es IH]; [reflexivity |].
    cbn [Raw.matchEntries forallb fst snd]. rewrite Raw_facetMatch_loosen.
    destruct (facetMatch k vs ds); [exact IH | reflexivity]. }
  rewrite Hall. apply f_equal.
  pose proof (keepDataset_entries_order toLowerCase "" (entries fs) fs ds (entries_once fs))
    as H.
  exact H.
Qed.

(** On records whose object entries all carry a hierarchy, [applyFilters]
    is the one of the earlier sections. *)
Lemma Raw_applyFilters_loosen (fm : FilterManager) (searchQuery : string) :
  Raw.applyFilters entries toLowerCase (selectedFilters fm) (map loosen (datasets fm))
    searchQuery
  = option_map (map loosen) (applyFilters toLowerCase fm searchQuery).
Proof.
  unfold Raw.applyFilters, applyFilters.
  destruct (collectFilters (selectedFilters fm)) as [fs |]; [| reflexivity].
  cbn [option_map]. induction (datasets fm) as [| ds l IH]; [reflexivity |].
  cbn [map Raw.filterDatasets filter]. rewrite Raw_keepDataset_loosen, IH.
  now destruct (keepDataset toLowerCase searchQuery fs ds).
Qed.

End RawOrder.

(** X4.  [applyFilters] throws when the part before the first [':'] of
    some selected id names a member of [Object.prototype] ([constructor],
    [toString], ...), and otherwise only when an [object] id is selected
    and some record has an object entry without [hierarchy]; a single
    selected [object] id makes it throw on a record whose first object
    entry has none.  So on records whose object entries all carry their
    hierarchy it throws exactly in the first case, never on a selection
    made of ids of the facet keys, and it returns what the [applyFilters]
    of the earlier sections returns.  This holds whatever the order in
    which [Object.entries] lists the keys. *)
Theorem applyFilters_throws_on_prototype_key_or_missing_hierarchy
    (entries : Filters -> Filters) (toLowerCase : string -> string)
    (selected : StrSet.t) (records : list Raw.Dataset) (searchQuery : string) :
  (forall fs, Permutation (entries fs) fs) ->
  let result := Raw.applyFilters entries toLowerCase selected records searchQuery in
  let prototypeKeySelected :=
    exists id, In id selected /\ Js.isPrototypeKey (fst (splitFilterId id)) = true in
  (prototypeKeySelected -> result = None) /\
  (result = None ->
   prototypeKeySelected \/
   ((exists id, In id selected /\ fst (splitFilterId id) = "object") /\
    exists ds objs obj,
      In ds records /\ Raw.objects ds = Some objs /\ In obj objs
      /\ Raw.hierarchy obj = None)) /\
  (forall v ds obj rest,
     selected = [filterIdOf "object" v] -> searchQuery = "" ->
     In ds records -> Raw.objects ds = Some (obj :: rest) -> Raw.hierarchy obj = None ->
     result = None) /\
  (forallb hasHierarchy records = true -> (result = None <-> prototypeKeySelected)) /\
  (forallb hasHierarchy records = true ->
   (forall id, In id selected -> In (fst (splitFilterId id)) facetKeys) ->
   result <> None) /\
  (forall fm,
     selected = selectedFilters fm -> records = map loosen (datasets fm) ->
     result = option_map (map loosen) (applyFilters toLowerCase fm searchQuery)).
Proof.
  intros Hperm result prototypeKeySelected. subst result prototypeKeySelected.
  split; [apply Raw_applyFilters_prototype_key |].
  split; [now apply Raw_applyFilters_None |].
  split; [| split; [now apply Raw_applyFilters_None_checked | split]].
  - intros v ds obj rest -> -> Hin Hobjs Hnone.
    unfold Raw.applyFilters, collectFilters.
    change (fold_left collectFilter [filterIdOf "object" v] (Some []))
      with (collectFilter (Some []) (filterIdOf "object" v)).
    unfold collectFilter. rewrite (splitFilterId_filterIdOf "object" v eq_refl).
    change (Js.isPrototypeKey "object") with false. cbv iota. unfold pushFilter.
    apply Raw_filterDatasets_None. exists ds. split; [exact Hin |].
    unfold Raw.keepDataset. cbn [Js.truthy andb].
    assert (Hone : entries [("object", [Some (beforeColon v)])]
                   = [("object", [Some (beforeColon v)])]).
    { apply Permutation_length_1_inv. apply Permutation_sym. apply Hperm. }
    rewrite Hone. cbn [Raw.matchEntries]. unfold Raw.facetMatch. cbn [String.eqb Ascii.eqb Bool.eqb].
    rewrite Hobjs. cbn [Raw.someObject]. now rewrite Hnone.
  - intros Hall Hkeys Hnone.
    apply (Raw_applyFilters_None_checked entries Hperm toLowerCase _ _ _ Hall) in Hnone.
    destruct Hnone as [id [Hin Hk]].
    rewrite (facetKeys_not_prototype _ (Hkeys id Hin)) in Hk. discriminate.
  - intros fm -> ->. now apply Raw_applyFilters_loosen.
Qed.

Lemma applyFilters_throws_on_prototype_key_or_missing_hierarchy_witness :
  Raw.applyFilters insertionOrder (fun s => s) ["object:x"] [bareObjectRecord] "" = None /\
  Raw.applyFilters insertionOrder (fun s => s) ["scene:k"; "robot:arm1"]
    (map loosen [recordA; recordB]) "" <> None.
Proof.
  pose proof (applyFilters_throws_on_prototype_key_or_missing_hierarchy
                insertionOrder (fun s => s) ["object:x"] [bareObjectRecord] ""
                (fun fs => Permutation_refl fs)) as [_ [_ [Hthrow _]]].
  pose proof (applyFilters_throws_on_prototype_key_or_missing_hierarchy
                insertionOrder (fun s => s) ["scene:k"; "robot:arm1"]
                (map loosen [recordA; recordB]) ""
                (fun fs => Permutation_refl fs)) as [_ [_ [_ [_ [Hfacet _]]]]].
  split.
  - apply (Hthrow "x" bareObjectRecord {| Raw.hierarchy := None |} []);
      try reflexivity. left. reflexivity.
  - apply Hfacet; [reflexivity |].
    intros id [<- | [<- | []]]; simpl; tauto.
Defined.

(** X26.  Two selections holding the same ids, in whatever order they
    were selected: whenever [applyFilters] returns for both, it returns
    the same records; on records whose object entries all carry their
    hierarchy it also throws in the same cases, so the order does not
    matter at all.  It does matter on a record with an object entry
    without [hierarchy]: with [scene:z] selected before [object:x] the
    record tagged [k] is rejected by the scene test and the call returns,
    with [object:x] selected first the object test throws. *)
Theorem selection_order_matters_only_by_throwing
    (entries : Filters -> Filters) (toLowerCase : string -> string)
    (selected selected' : StrSet.t) (records : list Raw.Dataset) (searchQuery : string) :
  (forall fs, Permutation (entries fs) fs) ->
  (forall id, In id selected <-> In id selected') ->
  (forall kept kept',
     Raw.applyFilters entries toLowerCase selected records searchQuery = Some kept ->
     Raw.applyFilters entries toLowerCase selected' records searchQuery = Some kept' ->
     kept = kept') /\
  (forallb hasHierarchy records = true ->
   Raw.applyFilters entries toLowerCase selected records searchQuery
   = Raw.applyFilters entries toLowerCase selected' records searchQuery) /\
  Raw.applyFilters insertionOrder toLowerCase ["scene:z"; "object:x"] [bareObjectRecord] ""
  = Some [] /\
  Raw.applyFilters insertionOrder toLowerCase ["object:x"; "scene:z"] [bareObjectRecord] ""
  = None.
Proof.
  intros Hperm Hsame.
  assert (Hboth : forall kept kept',
             Raw.applyFilters entries toLowerCase selected records searchQuery = Some kept ->
             Raw.applyFilters entries toLowerCase selected' records searchQuery
             = Some kept' ->
             kept = kept').
  { intros kept kept' H H'. unfold Raw.applyFilters in H, H'.
    destruct (collectFilters selected) as [fs |] eqn:E; [| discriminate].
    destruct (collectFilters selected') as [fs' |] eqn:E'; [| discriminate].
    apply collectFilters_Some_pushAll in E, E'. subst fs fs'.
    assert (Hvals : forall k x,
               In x (valuesFor k (map splitFilterId selected))
               <-> In x (valuesFor k (map splitFilterId selected'))).
    { intros k x. rewrite !In_valuesFor, !in_map_iff.
      split; intros [id [Hs Hin]]; exists id; (split; [assumption | now apply Hsame]). }
    rewrite (Raw_filterDatasets_Some _ _ _ H), (Raw_filterDatasets_Some _ _ _ H').
    apply filter_ext_in. intros ds Hin.
    rewrite (Raw_keepDataset_same_ids entries Hperm toLowerCase searchQuery
               _ _ ds Hvals); [reflexivity | |].
    - intros Hnone.
      assert (Hthrow : Raw.filterDatasets
                         (Raw.keepDataset entries toLowerCase searchQuery
                            (pushAll (map splitFilterId selected) [])) records = None)
        by (apply Raw_filterDatasets_None; now exists ds).
      congruence.
    - intros Hnone.
      assert (Hthrow : Raw.filterDatasets
                         (Raw.keepDataset entries toLowerCase searchQuery
                            (pushAll (map splitFilterId selected') [])) records = None)
        by (apply Raw_filterDatasets_None; now exists ds).
      congruence. }
  split; [exact Hboth | split; [| split; reflexivity]].
  intros Hall.
  pose proof (Raw_applyFilters_None_checked entries Hperm toLowerCase selected records
                searchQuery Hall) as Hnone.
  pose proof (Raw_applyFilters_None_checked entries Hperm toLowerCase selected' records
                searchQuery Hall) as Hnone'.
  destruct (Raw.applyFilters entries toLowerCase selected records searchQuery)
    as [kept |] eqn:E;
    destruct (Raw.applyFilters entries toLowerCase selected' records searchQuery)
      as [kept' |] eqn:E'.
  - apply f_equal. now apply Hboth.
  - exfalso. destruct (proj1 Hnone' eq_refl) as [id [Hin Hk]].
    assert (Hsome : Some kept = None).
    { apply Hnone. exists id. split; [now apply Hsame | assumption]. }
    discriminate.
  - exfalso. destruct (proj1 Hnone eq_refl) as [id [Hin Hk]].
    assert (Hsome : Some kept' = None).
    { apply Hnone'. exists id. split; [now apply Hsame | assumption]. }
    discriminate.
  - reflexivity.
Qed.

Lemma selection_order_matters_only_by_throwing_witness :
  Raw.applyFilters insertionOrder (fun s => s) ["scene:kitchen"; "robot:arm1"]
    (map loosen [recordA; recordB]) ""
  = Raw.applyFilters insertionOrder (fun s => s) ["robot:arm1"; "scene:kitchen"]
      (map loosen [recordA; recordB]) "".
Proof.
  apply (selection_order_matters_only_by_throwing insertionOrder (fun s => s)
           ["scene:kitchen"; "robot:arm1"] ["robot:arm1"; "scene:kitchen"]
           (map loosen [recordA; recordB]) "" (fun fs => Permutation_refl fs)).
  - intros id. simpl. tauto.
  - reflexivity.
Defined.

(** ** Tapping an option *)

(** X27.  On a touch device, in any reachable state, a first tap on an
    option arms its tooltip and holds the selection back; a second tap on
    the same option cancels the tooltip (none is armed, the tooltip is
    hidden) and lets the selection through; a tap outside every option
    cancels the tooltip as well. *)
Theorem second_tap_cancels_the_tooltip (optionEl : nat) (filterKey filterValue : string)
    (lastTouchTarget : option nat) (w : World) :
  reachable w ->
  Js.truthy filterKey = true -> Js.truthy filterValue = true ->
  lastTouchTarget <> Some optionEl ->
  let first := touchStart (Some (optionEl, filterKey, filterValue)) lastTouchTarget w in
  let second := touchStart (Some (optionEl, filterKey, filterValue))
                  (snd (fst first)) (fst (fst first)) in
  let outside := touchStart None (snd (fst first)) (fst (fst first)) in
  fst (fst first) = showTooltip filterKey filterValue w /\
  snd (fst first) = Some optionEl /\ snd first = true /\
  fst (fst second) = hideTooltip (showTooltip filterKey filterValue w) /\
  snd (fst second) = None /\ snd second = false /\
  pendingTooltips (host (fst (fst second))) = [] /\
  tooltipHidden (this (fst (fst second))) = true /\
  fst (fst outside) = fst (fst second) /\ snd (fst outside) = None.
Proof.
  intros Hreach Hk Hv Hlast first second outside.
  assert (Hfirst : first = (showTooltip filterKey filterValue w, Some optionEl, true)).
  { subst first. unfold touchStart. rewrite Hk, Hv. cbn [andb].
    destruct lastTouchTarget as [last |]; [| reflexivity].
    destruct (Nat.eqb_spec last optionEl) as [-> | Hne]; [now contradiction Hlast | reflexivity]. }
  assert (Hsecond : second
                    = (hideTooltip (showTooltip filterKey filterValue w), None, false)).
  { subst second. rewrite Hfirst. cbn [fst snd]. unfold touchStart.
    now rewrite Hk, Hv, Nat.eqb_refl. }
  assert (Houtside : outside
                     = (hideTooltip (showTooltip filterKey filterValue w), None, false)).
  { subst outside. rewrite Hfirst. reflexivity. }
  rewrite Hfirst, Hsecond, Houtside. cbn [fst snd].
  repeat (split; [reflexivity |]).
  split; [| split; [apply tooltipHidden_hideTooltip | split; reflexivity]].
  apply filter_nil_iff. intros t Ht. apply negb_false_iff.
  destruct (isUpdateTimer t) eqn:Eu; [reflexivity |].
  assert (Hok : tooltipOk (hideTooltip (showTooltip filterKey filterValue w))).
  { apply tooltipOk_hideTooltip, reachable_tooltipOk. now apply ReachShowTooltip. }
  specialize (Hok t Ht Eu). unfold hideTooltip in Hok.
  destruct (tooltipTimeout (this (showTooltip filterKey filterValue w))) eqn:E;
    cbn [this] in Hok.
  - destruct (tooltipElement
                (withTooltipTimeout None (this (showTooltip filterKey filterValue w))));
      discriminate.
  - destruct (tooltipElement (this (showTooltip filterKey filterValue w)));
      simpl in Hok; congruence.
Qed.

Lemma second_tap_cancels_the_tooltip_witness :
  pendingTooltips
    (host (fst (fst (touchStart (Some (7, "robot", "arm1"))
                       (snd (fst (touchStart (Some (7, "robot", "arm1")) None
                                    hoverThenToggle)))
                       (fst (fst (touchStart (Some (7, "robot", "arm1")) None
                                    hoverThenToggle))))))) = [].
Proof.
  refine (proj1 (proj2 (proj2 (proj2 (proj2 (proj2 (proj2
            (second_tap_cancels_the_tooltip 7 "robot" "arm1" None hoverThenToggle
               _ eq_refl eq_refl _)))))))).
  - unfold hoverThenToggle.
    apply ReachToggle, ReachShowTooltip, ReachInitTooltips.
    apply (ReachBuild {| this := constructor [recordA; recordB]; host := initialHost |}).
    apply (ReachNew [recordA; recordB] 300).
  - discriminate.
Defined.
